(** * cli-primer: argument and configuration resolution, verified

    A shallow embedding of the dictionary-driven argument/config pipeline of
    cli-primer ([argTools.js], [configTools.js], [utils.js], [index.js]) and
    the properties its specification states about it.

    Conventions of the embedding:
    - a JavaScript string is the [string] of the bytes of its UTF-8
      encoding; on ASCII text a byte is a code unit, and what depends on
      the difference (a [.] of a pattern against a character beyond ASCII)
      is kept out of the statements by their hypotheses;
    - a [RegExp] is its syntax tree ([regex]), for the fragment of the
      pattern language the program and its documented descriptors use;
      [source] prints the pattern text JavaScript exposes as
      [RegExp.prototype.source], and [exec] is the backtracking matcher
      behind [String.prototype.match];
    - a value is what [JSON.parse] can return; a number is kept as its
      numeral, which is what JavaScript prints back for the plain integers
      only ([plain_numeral]): [prints_plainly] and [written_as_is] say
      which values [to_string] and [JSON_stringify] print as the code
      does;
    - an object is an association list in insertion order, its own
      properties being the first binding of each key; its prototype is
      [Object.prototype], whose property names are [inherited_name] (the
      special order of integer-like keys is left out);
    - code that may throw returns a [completion]; the texts of the errors
      the engine and the file system raise are indicative;
    - the monitoring sink is the log of the events sent to it;
    - the file system, [path] and [os] are a [Platform] the functions are
      parametric in; [mem_platform] is a small instance to compute with;
    - of [wrapAndRun], the debug switch of the default sink and the signal
      handlers registered after step 11 are left out; [wrapAndRun] is the
      executor once [getAppInfo] has returned, and [wrapAndRun_calling]
      the executor with that call, which may throw. *)

From Stdlib Require Import String Ascii List Bool Arith NArith Lia DecimalString.
Import ListNotations.
Set Warnings "-register-all".
Local Open Scope list_scope.
Local Open Scope string_scope.

(* ================================================================== *)
(** * Part I: definitions *)
(* ================================================================== *)

(** ** Strings: the [String.prototype] methods the program calls *)

Fixpoint join (sep : string) (l : list string) : string :=
  match l with
  | [] => ""
  | [x] => x
  | x :: rest => x ++ sep ++ join sep rest
  end.

(** [s.split(c)] for a one-character separator. *)
Fixpoint split_aux (c : ascii) (s : string) (cur : string) : list string :=
  match s with
  | EmptyString => [cur]
  | String a s' =>
      if Ascii.eqb a c then cur :: split_aux c s' ""
      else split_aux c s' (cur ++ String a "")
  end.

Definition split (c : ascii) (s : string) : list string := split_aux c s "".

(** [s.includes(c)] for a one-character needle. *)
Fixpoint includes (c : ascii) (s : string) : bool :=
  match s with
  | EmptyString => false
  | String a s' => Ascii.eqb a c || includes c s'
  end.

Fixpoint firstn_str (n : nat) (s : string) : string :=
  match n, s with
  | S n', String a s' => String a (firstn_str n' s')
  | _, _ => ""
  end.

Fixpoint skipn_str (n : nat) (s : string) : string :=
  match n, s with
  | S n', String _ s' => skipn_str n' s'
  | _, _ => s
  end.

(** Every character of [s] satisfies [p]. *)
Fixpoint all_chars (p : ascii -> bool) (s : string) : bool :=
  match s with
  | EmptyString => true
  | String a s' => p a && all_chars p s'
  end.

(** A text of ASCII characters: each byte is a code unit of the
    JavaScript string. *)
Definition ascii_text (s : string) : bool :=
  all_chars (fun a => (nat_of_ascii a <? 128)%nat) s.

Definition is_space (a : ascii) : bool :=
  let n := nat_of_ascii a in
  ((n =? 32) || ((9 <=? n) && (n <=? 13)))%nat.

(** The white space and line terminators beyond ASCII, by their UTF-8
    bytes: U+00A0, and U+1680, U+2000 to U+200A, U+2028, U+2029, U+202F,
    U+205F, U+3000 and U+FEFF. *)
Definition is_wide_space2 (a b : ascii) : bool :=
  ((nat_of_ascii a =? 194) && (nat_of_ascii b =? 160))%nat.

Definition is_wide_space3 (a b c : ascii) : bool :=
  let x := nat_of_ascii a in
  let y := nat_of_ascii b in
  let z := nat_of_ascii c in
  (((x =? 225) && (y =? 154) && (z =? 128))
   || ((x =? 226) && (y =? 128)
       && (((128 <=? z) && (z <=? 138)) || (z =? 168) || (z =? 169) || (z =? 175)))
   || ((x =? 226) && (y =? 129) && (z =? 159))
   || ((x =? 227) && (y =? 128) && (z =? 128))
   || ((x =? 239) && (y =? 187) && (z =? 191)))%nat.

(** The text without the white space it begins with, for a given reading
    of the characters of two and three bytes. *)
Fixpoint strip_spaces (wide2 : ascii -> ascii -> bool)
    (wide3 : ascii -> ascii -> ascii -> bool) (s : string) : string :=
  match s with
  | String a s1 =>
      if is_space a then strip_spaces wide2 wide3 s1
      else
        match s1 with
        | String b s2 =>
            if wide2 a b then strip_spaces wide2 wide3 s2
            else
              match s2 with
              | String c s3 =>
                  if wide3 a b c then strip_spaces wide2 wide3 s3 else s
              | EmptyString => s
              end
        | EmptyString => s
        end
  | EmptyString => ""
  end.

Definition trim_start (s : string) : string :=
  strip_spaces is_wide_space2 is_wide_space3 s.

(** The same on the text read backwards, for the white space at the end. *)
Definition trim_start_reversed (s : string) : string :=
  strip_spaces (fun b a => is_wide_space2 a b) (fun c b a => is_wide_space3 a b c) s.

Fixpoint rev_str (s : string) (acc : string) : string :=
  match s with
  | EmptyString => acc
  | String a s' => rev_str s' (String a acc)
  end.

(** [s.trim()] *)
Definition trim (s : string) : string :=
  rev_str (trim_start_reversed (rev_str (trim_start s) "")) "".

(** ** Regular expressions *)

(** The fragment of the pattern language the program and its documented
    descriptors use. *)
Inductive regex : Type :=
| Eps                                  (* the empty pattern *)
| Chr (c : ascii)                      (* a literal character *)
| Dot                                  (* .     *)
| NotChr (c : ascii)                   (* [^c]  *)
| NonWord                              (* \W    *)
| Bol                                  (* ^     *)
| Eol                                  (* $     *)
| Seq (r1 r2 : regex)
| Alt (r1 r2 : regex)                  (* r1|r2 *)
| Star (greedy : bool) (r : regex)     (* r* and r*? *)
| Plus (r : regex)                     (* r+    *)
| Group (r : regex).                   (* (r), capturing *)

Fixpoint lit (s : string) : regex :=
  match s with
  | EmptyString => Eps
  | String a EmptyString => Chr a
  | String a s' => Seq (Chr a) (lit s')
  end.

Fixpoint alts (l : list string) : regex :=
  match l with
  | [] => Eps
  | [x] => lit x
  | x :: rest => Alt (lit x) (alts rest)
  end.

Definition is_line_terminator (a : ascii) : bool :=
  let n := nat_of_ascii a in ((n =? 10) || (n =? 13))%nat.

(** The characters a pattern does not spell as themselves: the syntax
    characters, the slash, and the line terminators. *)
Definition is_syntax_char (a : ascii) : bool :=
  existsb (Ascii.eqb a)
    (list_ascii_of_string "\^$.|?*+()[]{}/")
  || is_line_terminator a.

(** How [source] spells a literal character. *)
Definition source_char (c : ascii) : string :=
  if (nat_of_ascii c =? 10)%nat then "\n"
  else if (nat_of_ascii c =? 13)%nat then "\r"
  else if is_syntax_char c then String "\" (String c "") else String c "".

(** The pattern text. Precedence levels: 0 inside a disjunction, 1 inside
    a sequence, 2 under a quantifier; a sub-pattern that needs brackets gets
    a non-capturing group. *)
Fixpoint source_at (lvl : nat) (r : regex) : string :=
  let wrap (need : bool) (s : string) :=
    if need then "(?:" ++ s ++ ")" else s in
  match r with
  | Eps => wrap (2 <=? lvl)%nat ""
  | Chr c => source_char c
  | Dot => "."
  | NotChr c => "[^" ++ source_char c ++ "]"
  | NonWord => "\W"
  | Bol => "^"
  | Eol => "$"
  | Seq r1 r2 => wrap (2 <=? lvl)%nat (source_at 1 r1 ++ source_at 1 r2)
  | Alt r1 r2 => wrap (1 <=? lvl)%nat (source_at 0 r1 ++ "|" ++ source_at 0 r2)
  | Star g r' => wrap (2 <=? lvl)%nat (source_at 2 r' ++ (if g then "*" else "*?"))
  | Plus r' => wrap (2 <=? lvl)%nat (source_at 2 r' ++ "+")
  | Group r' => "(" ++ source_at 0 r' ++ ")"
  end.

(** [RegExp.prototype.source]; the empty pattern reads [(?:)]. *)
Definition source (r : regex) : string :=
  let text := source_at 0 r in
  if text =? "" then "(?:)" else text.

(** Number of capturing groups. *)
Fixpoint ngroups (r : regex) : nat :=
  match r with
  | Seq r1 r2 | Alt r1 r2 => ngroups r1 + ngroups r2
  | Star _ r' | Plus r' => ngroups r'
  | Group r' => S (ngroups r')
  | _ => 0
  end.

(** Captures: group [i] (counted from 0) holds [caps i]; [None] is
    JavaScript's [undefined]. *)
Definition caps := nat -> option string.

Definition no_caps : caps := fun _ => None.

Definition set_cap (i : nat) (v : option string) (cs : caps) : caps :=
  fun j => if (j =? i)%nat then v else cs j.

Definition clear_caps (from n : nat) (cs : caps) : caps :=
  fun j => if ((from <=? j) && (j <? from + n))%nat then None else cs j.

Definition is_word_char (a : ascii) : bool :=
  let n := nat_of_ascii a in
  (((48 <=? n) && (n <=? 57)) || ((65 <=? n) && (n <=? 90))
   || ((97 <=? n) && (n <=? 122)) || (n =? 95))%nat.

Section Matcher.
(** The matcher is written in continuation-passing style, as the
    language definition does: a matcher takes the position reached, the
    rest of the input and the captures, and a continuation that says
    whether the rest of the pattern matches from there. *)
Context {R : Type}.

Definition cont := nat -> string -> caps -> option R.
Definition matcher := nat -> string -> caps -> cont -> option R.

Definition one_char (ok : ascii -> bool) : matcher :=
  fun pos s cs k =>
    match s with
    | String a s' => if ok a then k (S pos) s' cs else None
    | EmptyString => None
    end.

(** Iterations of a quantified body. An iteration that consumes nothing
    is rejected; the captures of the body are reset on each entry. *)
Fixpoint repeat_matcher (greedy : bool) (body : matcher) (reset : caps -> caps)
    (fuel : nat) : matcher :=
  fun pos s cs k =>
    match fuel with
    | 0 => k pos s cs
    | S fuel' =>
        let again :=
          body pos s (reset cs)
            (fun pos' s' cs' =>
               if (String.length s' <? String.length s)%nat
               then repeat_matcher greedy body reset fuel' pos' s' cs' k
               else None) in
        if greedy then
          match again with
          | Some x => Some x
          | None => k pos s cs
          end
        else
          match k pos s cs with
          | Some x => Some x
          | None => again
          end
    end.

(** [rmatch r gi]: [gi] is the number of capturing groups opened to the
    left of [r] in the whole pattern. *)
Fixpoint rmatch (r : regex) (gi : nat) : matcher :=
  match r with
  | Eps => fun pos s cs k => k pos s cs
  | Chr c => one_char (Ascii.eqb c)
  | Dot => one_char (fun a => negb (is_line_terminator a))
  | NotChr c => one_char (fun a => negb (Ascii.eqb a c))
  | NonWord => one_char (fun a => negb (is_word_char a))
  | Bol => fun pos s cs k => if (pos =? 0)%nat then k pos s cs else None
  | Eol => fun pos s cs k =>
      match s with EmptyString => k pos s cs | _ => None end
  | Seq r1 r2 => fun pos s cs k =>
      rmatch r1 gi pos s cs
        (fun pos' s' cs' => rmatch r2 (gi + ngroups r1) pos' s' cs' k)
  | Alt r1 r2 => fun pos s cs k =>
      match rmatch r1 gi pos s cs k with
      | Some x => Some x
      | None => rmatch r2 (gi + ngroups r1) pos s cs k
      end
  | Star g r' => fun pos s cs k =>
      repeat_matcher g (rmatch r' gi) (clear_caps gi (ngroups r'))
        (S (String.length s)) pos s cs k
  | Plus r' => fun pos s cs k =>
      rmatch r' gi pos s (clear_caps gi (ngroups r') cs)
        (fun pos' s' cs' =>
           repeat_matcher true (rmatch r' gi) (clear_caps gi (ngroups r'))
             (S (String.length s')) pos' s' cs' k)
  | Group r' => fun pos s cs k =>
      rmatch r' (S gi) pos s cs
        (fun pos' s' cs' =>
           k pos' s' (set_cap gi (Some (firstn_str (pos' - pos) s)) cs'))
  end.
End Matcher.

(** The result of a successful match: where it starts and ends in the
    input, and the captures ([match[i+1]] is [m_caps i]). *)
Record match_result : Type := MatchResult {
  m_index : nat;
  m_end : nat;
  m_caps : caps
}.

(** Try the pattern at each start offset in turn. *)
Fixpoint exec_from (r : regex) (fuel : nat) (pos : nat) (s : string)
  : option match_result :=
  match rmatch r 0 pos s no_caps
          (fun pos' _ cs' => Some (MatchResult pos pos' cs')) with
  | Some m => Some m
  | None =>
      match fuel, s with
      | S fuel', String _ s' => exec_from r fuel' (S pos) s'
      | _, _ => None
      end
  end.

(** [s.match(r)] for a pattern without the [g] flag. *)
Definition exec (r : regex) (s : string) : option match_result :=
  exec_from r (String.length s) 0 s.

(** [match[i]] for [i >= 1]. *)
Definition m_group (m : match_result) (i : nat) : option string :=
  m_caps m (i - 1).

(** [s.replace(r, repl)] for a pattern without the [g] flag. *)
Definition replace_first (r : regex) (repl : string) (s : string) : string :=
  match exec r s with
  | None => s
  | Some m => firstn_str (m_index m) s ++ repl ++ skipn_str (m_end m) s
  end.

(** ** The documented shapes of a pattern payload *)

(** [prefix(a1|...|an)rest]: a group that lists the aliases of the
    argument, after a prefix without brackets. *)
Definition named_pattern (prefix : regex) (aliases : list string)
    (rest : regex) : regex :=
  Seq prefix (Seq (Group (alts aliases)) rest).

(** [^--] *)
Definition dashes : regex := Seq Bol (lit "--").

(** [/^--(a1|...|an)$/], a flag. *)
Definition flag_pattern (aliases : list string) : regex :=
  named_pattern dashes aliases Eol.

(** [/^--(a1|...|an)=(v)$/], an argument that carries a value. *)
Definition value_pattern (aliases : list string) (v : regex) : regex :=
  named_pattern dashes aliases (Seq (Chr "=") (Seq (Group v) Eol)).

(** The bytes of U+2028 or U+2029, which [source] would spell as an
    escape, occur in the text. *)
Fixpoint has_line_separator (s : string) : bool :=
  match s with
  | String a s1 =>
      match s1 with
      | String b (String c _) =>
          ((nat_of_ascii a =? 226) && (nat_of_ascii b =? 128)
           && ((nat_of_ascii c =? 168) || (nat_of_ascii c =? 169)))%nat
          || has_line_separator s1
      | _ => false
      end
  | EmptyString => false
  end.

(** A name a pattern spells literally: not empty, and no character that
    is pattern syntax or a line terminator. *)
Definition is_plain_name (a : string) : bool :=
  negb (a =? "")
  && forallb (fun c => negb (is_syntax_char c)) (list_ascii_of_string a)
  && negb (has_line_separator a).

(** The descriptor invariant on the name group: at least one alias, each
    a plain name. *)
Definition well_named (aliases : list string) : Prop :=
  aliases <> [] /\ forallb is_plain_name aliases = true.

(** A prefix whose source has no bracket (so no group of its own). *)
Definition plain_prefix (prefix : regex) : Prop :=
  includes "(" (source_at 1 prefix) = false.

(** ** Values, objects, errors *)

(** The values that flow through the pipeline: what [JSON.parse] returns,
    plus the [true] the argument parser stores for flags. A number is kept
    as its JSON numeral. *)
Inductive value : Type :=
| VNull
| VBool (b : bool)
| VNum (numeral : string)
| VStr (s : string)
| VArr (items : list value)
| VObj (props : list (string * value)).

Definition obj := list (string * value).

(** The digits [s] begins with, read in base ten after [acc]: the number
    read, how many digits there were, and the rest of the text. *)
Fixpoint read_digits (s : string) (acc count : N) : N * N * string :=
  match s with
  | String a s' =>
      if ((48 <=? nat_of_ascii a) && (nat_of_ascii a <=? 57))%nat
      then read_digits s' (10 * acc + N.of_nat (nat_of_ascii a - 48))%N (count + 1)%N
      else (acc, count, s)
  | EmptyString => (acc, count, "")
  end.

(** The number a JSON numeral is read as is zero: [JSON.parse] rounds
    to the nearest double, so a magnitude [m / 10 ^ below] is zero when
    [m] is, and when it is at most [2 ^ -1075], half of the least positive
    double. *)
Definition numeral_is_zero (s : string) : bool :=
  let unsigned := match s with String "-" r => r | _ => s end in
  let '(i, _, r1) := read_digits unsigned 0 0 in
  let '(m, fraction, r2) :=
    match r1 with
    | String "." r => read_digits r i 0
    | _ => (i, 0%N, r1)
    end in
  let below :=
    match r2 with
    | String _ (String "-" r) => (fraction + fst (fst (read_digits r 0 0)))%N
    | String _ (String "+" r) => (fraction - fst (fst (read_digits r 0 0)))%N
    | String _ r => (fraction - fst (fst (read_digits r 0 0)))%N
    | EmptyString => fraction
    end in
  if (m =? 0)%N then true
  else if (below =? 0)%N then false
  else (m * 2 ^ 1075 <=? 10 ^ below)%N.

(** A numeral JavaScript prints back as it is written: an integer of at
    most fifteen digits, without a leading zero and other than [-0]. *)
Definition plain_numeral (n : string) : bool :=
  let digits := match n with String "-" r => r | _ => n end in
  match digits with
  | String d _ =>
      all_chars (fun a => ((48 <=? nat_of_ascii a) && (nat_of_ascii a <=? 57))%nat) digits
      && (String.length digits <=? 15)%nat
      && (if Ascii.eqb d "0" then n =? "0" else true)
  | EmptyString => false
  end.

(** ToBoolean. *)
Definition truthy (v : value) : bool :=
  match v with
  | VNull => false
  | VBool b => b
  | VNum n => negb (numeral_is_zero n)
  | VStr s => negb (s =? "")
  | VArr _ | VObj _ => true
  end.

(** ToBoolean of a property read: a missing property is [undefined]. *)
Definition truthy_opt (o : option value) : bool :=
  match o with Some v => truthy v | None => false end.

(** Every number the value holds is a plain numeral, which JavaScript
    prints back as it was read. *)
Fixpoint plain_numbers (v : value) : bool :=
  match v with
  | VNum n => plain_numeral n
  | VArr l =>
      (fix all (l : list value) : bool :=
         match l with
         | [] => true
         | x :: l' => plain_numbers x && all l'
         end) l
  | VObj o =>
      (fix all (o : list (string * value)) : bool :=
         match o with
         | [] => true
         | (_, x) :: o' => plain_numbers x && all o'
         end) o
  | _ => true
  end.

(** [o[k]] on own properties. *)
Fixpoint get (o : obj) (k : string) : option value :=
  match o with
  | [] => None
  | (k', v) :: o' => if k' =? k then Some v else get o' k
  end.

(** [o[k] = v]: an existing property keeps its place, a new one goes
    last. *)
Fixpoint set (o : obj) (k : string) (v : value) : obj :=
  match o with
  | [] => [(k, v)]
  | (k', v') :: o' =>
      if k' =? k then (k', v) :: o' else (k', v') :: set o' k v
  end.

(** The property names of [Object.prototype], which every plain object
    inherits: functions, and the accessor [__proto__]. *)
Definition inherited_name (k : string) : bool :=
  existsb (String.eqb k)
    ["constructor"; "__defineGetter__"; "__defineSetter__"; "hasOwnProperty";
     "__lookupGetter__"; "__lookupSetter__"; "isPrototypeOf";
     "propertyIsEnumerable"; "toString"; "valueOf"; "__proto__";
     "toLocaleString"].

(** ToBoolean of [o[k]] for a plain object: an own property decides, and
    what is inherited is a function or an object. *)
Definition truthy_member (o : obj) (k : string) : bool :=
  match get o k with
  | Some v => truthy v
  | None => inherited_name k
  end.

(** [o.hasOwnProperty(k)], when [o] does not shadow the method. *)
Definition has_own (o : obj) (k : string) : bool :=
  match get o k with Some _ => true | None => false end.

(** [o[k] = v] by assignment, on an object whose prototype is
    [Object.prototype]: an assignment to [__proto__] goes to the inherited
    accessor and creates no own property, unless the object has an own
    property of that name already ([set] is the definition of an own
    property, as a spread or [JSON.parse] does it). *)
Definition put (o : obj) (k : string) (v : value) : obj :=
  if (k =? "__proto__") && negb (has_own o k) then o
  else set o k v.

(** The own properties of an association list: the first binding of each
    key. A list built by [set] has no other bindings. *)
Fixpoint own_entries_from (seen : list string) (o : obj) : obj :=
  match o with
  | [] => []
  | (k, v) :: o' =>
      if existsb (String.eqb k) seen then own_entries_from seen o'
      else (k, v) :: own_entries_from (k :: seen) o'
  end.

Definition own_entries (o : obj) : obj := own_entries_from [] o.

(** [{ ...target, ...source }], one source at a time. *)
Definition assign (target source : obj) : obj :=
  fold_left (fun t kv => set t (fst kv) (snd kv)) (own_entries source) target.

Definition nat_to_string (n : nat) : string :=
  NilEmpty.string_of_uint (Nat.to_uint n).

Fixpoint indexed {A : Type} (i : nat) (l : list A) : list (string * A) :=
  match l with
  | [] => []
  | x :: l' => (nat_to_string i, x) :: indexed (S i) l'
  end.

Definition chars (s : string) : list value :=
  map (fun a => VStr (String a "")) (list_ascii_of_string s).

(** [Object.entries(v)]. *)
Definition Object_entries (v : value) : list (string * value) :=
  match v with
  | VObj o => own_entries o
  | VArr l => indexed 0 l
  | VStr s => indexed 0 (chars s)
  | _ => []
  end.

(** ToString, as a template literal applies it. *)
Fixpoint to_string (v : value) : string :=
  match v with
  | VNull => "null"
  | VBool true => "true"
  | VBool false => "false"
  | VNum n => n
  | VStr s => s
  | VArr l =>
      join "," (map (fun x => match x with VNull => "" | _ => to_string x end) l)
  | VObj _ => "[object Object]"
  end.

(** The values [to_string] prints as JavaScript does: a number that is
    a plain numeral, and no object with a [toString] property of its own,
    on which the conversion throws. *)
Fixpoint prints_plainly (v : value) : bool :=
  match v with
  | VNum n => plain_numeral n
  | VArr l =>
      (fix all (l : list value) : bool :=
         match l with
         | [] => true
         | x :: l' => prints_plainly x && all l'
         end) l
  | VObj o => negb (has_own o "toString")
  | _ => true
  end.

Inductive error : Type :=
| TypeError (msg : string)
| SyntaxError (msg : string)
| SystemError (code : string) (msg : string).   (* a failed [fs] call *)

Definition error_message (e : error) : string :=
  match e with
  | TypeError m | SyntaxError m | SystemError _ m => m
  end.

Definition error_code (e : error) : option string :=
  match e with
  | SystemError c _ => Some c
  | _ => None
  end.

(** The outcome of code that may throw. *)
Inductive completion (A : Type) : Type :=
| Normal (a : A)
| Throw (e : error).
Arguments Normal {A} a.
Arguments Throw {A} e.

(** ** The monitoring sink *)

Inductive severity : Type := info | warn | error_ | debug.

(** What a function passes to [$m]: [{ type, message, data }]. *)
Record event : Type := Event {
  ev_type : severity;
  ev_message : string;
  ev_data : option error
}.

Definition say (t : severity) (msg : string) : event := Event t msg None.

(** ** Argument descriptors *)

Inductive Payload : Type :=
| PString (s : string)          (* typeof payload === "string" *)
| PRegExp (r : regex)           (* payload instanceof RegExp   *)
| POther (v : value).           (* anything else               *)

Record descriptor : Type := Descriptor {
  name : string;
  payload : Payload;
  doc : string;
  mandatory : bool
}.

(** ** argTools.js *)

(** [/\(([^\)]+)\)/], the pattern the program reads alias lists and
    accepted values out of a payload's source with. *)
Definition REGEX_ARG_NAME : regex :=
  Seq (Chr "(") (Seq (Group (Plus (NotChr ")"))) (Chr ")")).

(** [src.match(/\(([^\)]+)\)/)[1]]: indexing the [null] of a failed match
    throws. *)
Definition first_group_text (src : string) : completion (option string) :=
  match exec REGEX_ARG_NAME src with
  | Some m => Normal (m_group m 1)
  | None => Throw (TypeError "Cannot read properties of null (reading '1')")
  end.

(** [text.split("|").shift()] *)
Definition first_alias (text : string) : string :=
  hd "" (split "|" text).

Definition string_or_undefined (o : option string) : string :=
  match o with Some s => s | None => "undefined" end.

(** [match[2] || true] *)
Definition argument_value (m : match_result) : value :=
  match m_group m 2 with
  | Some s => if s =? "" then VBool true else VStr s
  | None => VBool true
  end.

(** The inner loop of [getArguments]: the descriptors are tried in order
    for one token. [Normal None] when the loop ends with [matched] still
    false. *)
Fixpoint match_argument (dictionary : list descriptor) (arg : string)
    (argValues : obj) : completion (option obj) :=
  match dictionary with
  | [] => Normal None
  | d :: rest =>
      match payload d with
      | PString p =>
          if arg =? p then
            let key := replace_first (Seq Bol (Star true NonWord)) "" arg in
            Normal (Some (put argValues key (VBool true)))
          else match_argument rest arg argValues
      | PRegExp r =>
          match exec r arg with
          | Some m =>
              match first_group_text (source r) with
              | Throw e => Throw e
              | Normal argNames =>
                  let argName :=
                    match argNames with
                    | Some text =>
                        if text =? "" then string_or_undefined (m_group m 1)
                        else first_alias text
                    | None => string_or_undefined (m_group m 1)
                    end in
                  Normal (Some (put argValues argName (argument_value m)))
              end
          | None => match_argument rest arg argValues
          end
      | POther _ => match_argument rest arg argValues
      end
  end.

Fixpoint parse_arguments (dictionary : list descriptor) (args : list string)
    (argValues : obj) : completion (option obj) * list event :=
  match args with
  | [] => (Normal (Some argValues), [])
  | arg :: rest =>
      if arg =? "" then parse_arguments dictionary rest argValues
      else
        match match_argument dictionary arg argValues with
        | Throw e => (Throw e, [])
        | Normal (Some argValues') => parse_arguments dictionary rest argValues'
        | Normal None =>
            (Normal None, [say error_ ("Unknown argument: " ++ arg)])
        end
  end.

(** [getArguments(dictionary, defaults, monitoringFn)], with [args] for
    [process.argv.slice(2)]. The result is the parsed settings ([Some]) or
    [null] ([None]), and the events sent to the sink. *)
Definition getArguments (dictionary : list descriptor) (defaults : obj)
    (args : list string) : completion (option obj) * list event :=
  parse_arguments dictionary args (assign [] defaults).

(** The test the parser applies to a token: [arg === payload] for a
    string payload, [arg.match(payload)] for a pattern. *)
Definition matches (d : descriptor) (arg : string) : bool :=
  match payload d with
  | PString p => arg =? p
  | PRegExp r => match exec r arg with Some _ => true | None => false end
  | POther _ => false
  end.

(** The descriptor invariant the program relies on: a pattern payload has a
    capturing group with a name in it, so that reading
    [source.match(/\(([^\)]+)\)/)[1]] succeeds. *)
Definition well_formed (d : descriptor) : bool :=
  match payload d with
  | PRegExp r =>
      match first_group_text (source r) with
      | Normal _ => true
      | Throw _ => false
      end
  | _ => true
  end.

(** ** utils.js: [mergeData] *)

(** [mergeData(intrinsic, implicit, explicit, given)]:
    [{ ...intrinsic, ...implicit, ...explicit, ...given }]. *)
Definition mergeData (intrinsic implicit explicit given : obj) : obj :=
  assign (assign (assign (assign [] intrinsic) implicit) explicit) given.

(** ** JSON *)

Definition dq : ascii := "034"%char.           (* the double quote *)
Definition nl : string := String "010"%char "". (* line feed *)
Definition quoted (s : string) : string := String dq s ++ String dq "".

Fixpoint skip_ws (s : string) : string :=
  match s with
  | String a s' =>
      let n := nat_of_ascii a in
      if ((n =? 32) || (n =? 9) || (n =? 10) || (n =? 13))%nat then skip_ws s' else s
  | EmptyString => ""
  end.

Definition is_digit (a : ascii) : bool :=
  ((48 <=? nat_of_ascii a) && (nat_of_ascii a <=? 57))%nat.

Fixpoint take_digits (s : string) : string * string :=
  match s with
  | String a s' =>
      if is_digit a then let (d, r) := take_digits s' in (String a d, r)
      else ("", s)
  | EmptyString => ("", "")
  end.

(** A JSON numeral at the head of [s]: an optional minus sign, an integer
    part without leading zero, an optional fraction and an optional
    exponent. *)
Definition take_number (s : string) : option (string * string) :=
  let (sign, s1) :=
    match s with
    | String "-" r => ("-", r)
    | _ => ("", s)
    end in
  let (int, s2) := take_digits s1 in
  match int with
  | EmptyString => None
  | String d ds =>
      if (Ascii.eqb d "0" && negb (ds =? ""))%bool then None
      else
        let frac :=
          match s2 with
          | String "." r =>
              let (f, r') := take_digits r in
              if f =? "" then None else Some ("." ++ f, r')
          | _ => Some ("", s2)
          end in
        match frac with
        | None => None
        | Some (f, s3) =>
            let exp :=
              match s3 with
              | String e r =>
                  if (Ascii.eqb e "e" || Ascii.eqb e "E")%bool then
                    let (sg, r1) :=
                      match r with
                      | String "+" r' => ("+", r')
                      | String "-" r' => ("-", r')
                      | _ => ("", r)
                      end in
                    let (x, r2) := take_digits r1 in
                    if x =? "" then None
                    else Some (String e (sg ++ x), r2)
                  else Some ("", s3)
              | EmptyString => Some ("", s3)
              end in
            match exp with
            | None => None
            | Some (x, s4) => Some (sign ++ int ++ f ++ x, s4)
            end
        end
  end.

Definition hex_digit (a : ascii) : option nat :=
  let n := nat_of_ascii a in
  if ((48 <=? n) && (n <=? 57))%nat then Some (n - 48)
  else if ((65 <=? n) && (n <=? 70))%nat then Some (n - 55)
  else if ((97 <=? n) && (n <=? 102))%nat then Some (n - 87)
  else None.

(** The UTF-8 bytes of a code point below 65536. *)
Definition utf8 (cp : nat) : string :=
  if (cp <? 128)%nat then String (ascii_of_nat cp) ""
  else if (cp <? 2048)%nat then
    String (ascii_of_nat (192 + cp / 64))
      (String (ascii_of_nat (128 + cp mod 64)) "")
  else
    String (ascii_of_nat (224 + cp / 4096))
      (String (ascii_of_nat (128 + (cp / 64) mod 64))
         (String (ascii_of_nat (128 + cp mod 64)) "")).

(** The characters of a JSON string, after its opening quote. *)
Fixpoint take_string (s : string) : option (string * string) :=
  match s with
  | EmptyString => None
  | String a s' =>
      if Ascii.eqb a dq then Some ("", s')
      else if Ascii.eqb a "\" then
        match s' with
        | String e r =>
            let plain (c : ascii) :=
              match take_string r with
              | Some (t, r') => Some (String c t, r')
              | None => None
              end in
            if Ascii.eqb e dq then plain dq
            else if Ascii.eqb e "\" then plain "\"%char
            else if Ascii.eqb e "/" then plain "/"%char
            else if Ascii.eqb e "b" then plain "008"%char
            else if Ascii.eqb e "f" then plain "012"%char
            else if Ascii.eqb e "n" then plain "010"%char
            else if Ascii.eqb e "r" then plain "013"%char
            else if Ascii.eqb e "t" then plain "009"%char
            else if Ascii.eqb e "u" then
              match r with
              | String h1 (String h2 (String h3 (String h4 r4))) =>
                  match hex_digit h1, hex_digit h2, hex_digit h3, hex_digit h4,
                        take_string r4 with
                  | Some d1, Some d2, Some d3, Some d4, Some (t, r') =>
                      Some (utf8 (((d1 * 16 + d2) * 16 + d3) * 16 + d4) ++ t, r')
                  | _, _, _, _, _ => None
                  end
              | _ => None
              end
            else None
        | EmptyString => None
        end
      else if (nat_of_ascii a <? 32)%nat then None
      else
        match take_string s' with
        | Some (t, r') => Some (String a t, r')
        | None => None
        end
  end.

Definition expect (word : string) (s : string) : option string :=
  if String.prefix word s then Some (skipn_str (String.length word) s) else None.

(** Recursive descent, with one unit of fuel per call. *)
Fixpoint parse_value (fuel : nat) (s : string) : option (value * string) :=
  match fuel with
  | 0 => None
  | S fuel' =>
      match skip_ws s with
      | EmptyString => None
      | String a rest =>
          if Ascii.eqb a "n" then
            option_map (pair VNull) (expect "ull" rest)
          else if Ascii.eqb a "t" then
            option_map (pair (VBool true)) (expect "rue" rest)
          else if Ascii.eqb a "f" then
            option_map (pair (VBool false)) (expect "alse" rest)
          else if Ascii.eqb a dq then
            match take_string rest with
            | Some (t, r) => Some (VStr t, r)
            | None => None
            end
          else if Ascii.eqb a "[" then
            match skip_ws rest with
            | String "]" r => Some (VArr [], r)
            | _ => parse_elements fuel' rest []
            end
          else if Ascii.eqb a "{" then
            match skip_ws rest with
            | String "}" r => Some (VObj [], r)
            | _ => parse_members fuel' rest []
            end
          else
            match take_number (String a rest) with
            | Some (n, r) => Some (VNum n, r)
            | None => None
            end
      end
  end
with parse_elements (fuel : nat) (s : string) (acc : list value)
  : option (value * string) :=
  match fuel with
  | 0 => None
  | S fuel' =>
      match parse_value fuel' s with
      | Some (v, r) =>
          match skip_ws r with
          | String "," r' => parse_elements fuel' r' (v :: acc)
          | String "]" r' => Some (VArr (rev (v :: acc)), r')
          | _ => None
          end
      | None => None
      end
  end
with parse_members (fuel : nat) (s : string) (acc : obj)
  : option (value * string) :=
  match fuel with
  | 0 => None
  | S fuel' =>
      match skip_ws s with
      | String q r0 =>
          if Ascii.eqb q dq then
            match take_string r0 with
            | Some (k, r1) =>
                match skip_ws r1 with
                | String ":" r2 =>
                    match parse_value fuel' r2 with
                    | Some (v, r3) =>
                        match skip_ws r3 with
                        | String "," r4 => parse_members fuel' r4 (set acc k v)
                        | String "}" r4 => Some (VObj (set acc k v), r4)
                        | _ => None
                        end
                    | None => None
                    end
                | _ => None
                end
            | None => None
            end
          else None
      | EmptyString => None
      end
  end.

(** [JSON.parse(text)]: a value, or a [SyntaxError]. *)
Definition JSON_parse (text : string) : completion value :=
  match parse_value (2 * String.length text + 4) text with
  | Some (v, r) =>
      match skip_ws r with
      | EmptyString => Normal v
      | _ => Throw (SyntaxError "Unexpected non-whitespace character after JSON")
      end
  | None => Throw (SyntaxError "Unexpected token in JSON")
  end.

Definition hex_char (n : nat) : ascii :=
  if (n <? 10)%nat then ascii_of_nat (48 + n) else ascii_of_nat (87 + n).

(** The characters of a string as [JSON.stringify] writes them between
    quotes. *)
Fixpoint escape (s : string) : string :=
  match s with
  | EmptyString => ""
  | String a s' =>
      let n := nat_of_ascii a in
      (if Ascii.eqb a dq then String "\" (String dq "")
       else if Ascii.eqb a "\" then "\\"
       else if (n =? 8)%nat then "\b"
       else if (n =? 12)%nat then "\f"
       else if (n =? 10)%nat then "\n"
       else if (n =? 13)%nat then "\r"
       else if (n =? 9)%nat then "\t"
       else if (n <? 32)%nat then
         "\u00" ++ String (hex_char (n / 16)) (String (hex_char (n mod 16)) "")
       else String a "")
      ++ escape s'
  end.

(** [JSON.stringify(v, null, 2)] at an indentation. *)
Fixpoint stringify_at (indent : string) (v : value) : string :=
  let inner := indent ++ "  " in
  match v with
  | VNull => "null"
  | VBool true => "true"
  | VBool false => "false"
  | VNum n => n
  | VStr s => quoted (escape s)
  | VArr [] => "[]"
  | VArr l =>
      "[" ++ nl
      ++ join ("," ++ nl) (map (fun x => inner ++ stringify_at inner x) l)
      ++ nl ++ indent ++ "]"
  | VObj o =>
      let members :=
        (fix members (seen : list string) (o : obj) : list string :=
           match o with
           | [] => []
           | (k, x) :: o' =>
               if existsb (String.eqb k) seen then members seen o'
               else (inner ++ quoted (escape k) ++ ": " ++ stringify_at inner x)
                      :: members (k :: seen) o'
           end) [] o in
      match members with
      | [] => "{}"
      | _ => "{" ++ nl ++ join ("," ++ nl) members ++ nl ++ indent ++ "}"
      end
  end.

Definition JSON_stringify (v : value) : string := stringify_at "" v.

(** A name written in digits only, as the array indices are, which
    JavaScript lists before the other keys of an object. *)
Definition is_index_like (k : string) : bool :=
  negb (k =? "") && all_chars is_digit k.

(** A value [JSON_stringify] writes as JavaScript does: its numbers are
    plain numerals, its keys and strings are ASCII text, and no key is
    written in digits only. *)
Fixpoint written_as_is (v : value) : bool :=
  match v with
  | VNum n => plain_numeral n
  | VStr s => ascii_text s
  | VArr l =>
      (fix all (l : list value) : bool :=
         match l with
         | [] => true
         | x :: l' => written_as_is x && all l'
         end) l
  | VObj o =>
      (fix all (o : list (string * value)) : bool :=
         match o with
         | [] => true
         | (k, x) :: o' =>
             ascii_text k && negb (is_index_like k) && written_as_is x && all o'
         end) o
  | _ => true
  end.

(** ** The platform: [fs], [path], [os] *)

(** The synchronous file-system calls the program makes, on an explicit
    file-system state; a call that fails throws and leaves the state as it
    was. [mkdirSync] is the recursive one, [isDirectory] is
    [fs.lstatSync(p).isDirectory()]. *)
Record Platform : Type := {
  fs_state : Type;
  existsSync : fs_state -> string -> bool;
  mkdirSync : fs_state -> string -> completion fs_state;
  writeFileSync : fs_state -> string -> string -> completion fs_state;
  readFileSync : fs_state -> string -> completion string;
  isDirectory : fs_state -> string -> completion bool;
  path_dirname : string -> string;
  path_basename : string -> string;
  path_join : string -> string -> string;
  homedir : string;
  locale_leb : string -> string -> bool    (* a.localeCompare(b) <= 0 *)
}.

(** ** Effects *)

Section Effects.
Context {P : Platform}.

(** What the program can change: the file system, the events sent to the
    monitoring sink, and the lines printed with [console.log]. *)
Record world : Type := World {
  w_fs : fs_state P;
  w_log : list event;
  w_stdout : list string
}.

(** A computation: it runs in a world, completes normally or throws,
    and leaves a world. *)
Definition M (A : Type) : Type := world -> completion A * world.

Definition ret {A : Type} (a : A) : M A := fun w => (Normal a, w).

Definition bind {A B : Type} (m : M A) (k : A -> M B) : M B :=
  fun w =>
    match m w with
    | (Normal a, w') => k a w'
    | (Throw e, w') => (Throw e, w')
    end.

Definition lift {A : Type} (c : completion A) : M A := fun w => (c, w).

(** [try { body } catch (error) { handler }] *)
Definition try_catch {A : Type} (body : M A) (handler : error -> M A) : M A :=
  fun w =>
    match body w with
    | (Throw e, w') => handler e w'
    | r => r
    end.

(** [$m(ev)] *)
Definition monitor (ev : event) : M unit :=
  fun w => (Normal tt, World (w_fs w) (w_log w ++ [ev])%list (w_stdout w)).

Definition monitor_all (evs : list event) : M unit :=
  fun w => (Normal tt, World (w_fs w) (w_log w ++ evs)%list (w_stdout w)).

(** [console.log(line)] *)
Definition console_log (line : string) : M unit :=
  fun w => (Normal tt, World (w_fs w) (w_log w) (w_stdout w ++ [line])%list).

Definition fs_read (p : string) : M string :=
  fun w => (readFileSync P (w_fs w) p, w).

End Effects.

Arguments world P : clear implicits.
Arguments M P A : clear implicits.

Notation "x <- m ;; k" := (bind m (fun x => k))
  (at level 61, m at next level, right associativity).
Notation "m ;;; k" := (bind m (fun _ => k))
  (at level 61, right associativity).

(** ** configTools.js: [getConfigData] *)

(** [v.k] for the fixed property names the program reads ([profiles],
    [name], [settings]): reading a property of [null] throws, and only an
    object has such a property. *)
Definition member (v : value) (k : string) : completion (option value) :=
  match v with
  | VNull =>
      Throw (TypeError ("Cannot read properties of null (reading '" ++ k ++ "')"))
  | VObj o => Normal (get o k)
  | _ => Normal None
  end.

(** [profiles.find((p) => p.name === profileName)] *)
Fixpoint find_profile (profiles : list value) (profileName : string)
  : completion (option value) :=
  match profiles with
  | [] => Normal None
  | p :: rest =>
      match member p "name" with
      | Throw e => Throw e
      | Normal (Some (VStr n)) =>
          if n =? profileName then Normal (Some p)
          else find_profile rest profileName
      | Normal _ => find_profile rest profileName
      end
  end.

(** The test of [dictionary.find(...)] in [getConfigData]: the synthetic
    token [--key] against the payload. *)
Definition answers_to (key : string) (d : descriptor) : bool :=
  match payload d with
  | PString p => p =? "--" ++ key
  | PRegExp r =>
      match exec r ("--" ++ key) with
      | Some m =>
          match m_group m 1 with
          | Some g => g =? key
          | None => false
          end
      | None => false
      end
  | POther _ => false
  end.

(** [typeof value === "string" && value.trim() === ""] *)
Definition is_blank_string (v : value) : bool :=
  match v with
  | VStr s => trim s =? ""
  | _ => false
  end.

(** [acceptedValues.includes(value)] *)
Definition array_includes (l : list string) (v : value) : bool :=
  match v with
  | VStr s => existsb (String.eqb s) l
  | _ => false
  end.

Section ConfigTools.
Context {P : Platform}.

(** The body of the loop over [Object.entries(settings)]. *)
Fixpoint import_settings (entries : list (string * value))
    (profileName : string) (dictionary : list descriptor) (result : obj)
  : M P obj :=
  match entries with
  | [] => ret result
  | (key, v) :: rest =>
      let continue := import_settings rest profileName dictionary in
      match find (answers_to key) dictionary with
      | None =>
          monitor (say warn ("Ignoring unknown setting " ++ quoted key
                             ++ " in profile " ++ quoted profileName ++ "."))
          ;;; continue result
      | Some matchingArg =>
          if is_blank_string v then
            monitor (say debug ("Ignoring empty " ++ quoted key ++ " of the "
                                ++ quoted profileName ++ " profile."))
            ;;; continue result
          else
            match payload matchingArg with
            | PRegExp r =>
                if includes "|" (source r) then
                  text <- lift (first_group_text (source r)) ;;
                  match text with
                  | None =>
                      lift (Throw (TypeError
                        "Cannot read properties of undefined (reading 'split')"))
                  | Some t =>
                      let acceptedValues := split "|" t in
                      if array_includes acceptedValues v
                      then continue (put result key v)
                      else
                        monitor (say warn
                          ("Invalid value for " ++ quoted key ++ " in profile "
                           ++ quoted profileName ++ ". Expected one of: "
                           ++ join ", " acceptedValues ++ ". Received: "
                           ++ quoted (to_string v) ++ "."))
                        ;;; continue result
                  end
                else continue (put result key v)
            | _ => continue (put result key v)
            end
      end
  end.

(** [getConfigData(filePath, profileName, dictionary, monitoringFn)]: the
    settings of the profile ([Some]), or [null] ([None]). *)
Definition getConfigData (filePath profileName : string)
    (dictionary : list descriptor) : M P (option obj) :=
  try_catch
    (fileContent <- fs_read filePath ;;
     configData <- lift (JSON_parse fileContent) ;;
     profiles <- lift (member configData "profiles") ;;
     match profiles with
     | Some (VArr items) =>
         profile <- lift (find_profile items profileName) ;;
         match profile with
         | None =>
             monitor (say (if profileName =? "default" then debug else warn)
                        ("Profile " ++ quoted profileName
                         ++ " not found in configuration file: " ++ filePath))
             ;;; ret None
         | Some p =>
             s <- lift (member p "settings") ;;
             let settings :=
               match s with
               | Some v => if truthy v then v else VObj []
               | None => VObj []
               end in
             result <- import_settings (Object_entries settings) profileName
                         dictionary [] ;;
             ret (Some result)
         end
     | _ =>
         monitor (say error_
                    ("Invalid configuration structure in file: " ++ filePath))
         ;;; ret None
     end)
    (fun error =>
       let isFileMissing :=
         match error_code error with
         | Some c => c =? "ENOENT"
         | None => false
         end in
       monitor (Event (if isFileMissing then warn else error_)
                  ("Error reading configuration file. Details: "
                   ++ error_message error)
                  (if isFileMissing then None else Some error))
       ;;; ret None).
End ConfigTools.

(** ** An in-memory platform *)

(** Files with their contents, and directories, by path; POSIX paths
    without [.] and [..] segments. It is what the examples run on. *)
Record mem_fs : Type := MemFs {
  files : list (string * string);
  dirs : list string
}.

Fixpoint file_lookup (l : list (string * string)) (p : string) : option string :=
  match l with
  | [] => None
  | (p', c) :: l' => if p' =? p then Some c else file_lookup l' p
  end.

Fixpoint file_store (l : list (string * string)) (p c : string)
  : list (string * string) :=
  match l with
  | [] => [(p, c)]
  | (p', c') :: l' =>
      if p' =? p then (p', c) :: l' else (p', c') :: file_store l' p c
  end.

Definition is_dir (fs : mem_fs) (p : string) : bool :=
  existsb (String.eqb p) (dirs fs).

Definition mem_exists (fs : mem_fs) (p : string) : bool :=
  match file_lookup (files fs) p with
  | Some _ => true
  | None => is_dir fs p
  end.

Definition mem_dirname (p : string) : string :=
  match join "/" (removelast (split "/" p)) with
  | EmptyString => if String.prefix "/" p then "/" else "."
  | d => d
  end.

Definition mem_basename (p : string) : string := last (split "/" p) "".

Definition mem_join (a b : string) : string :=
  if (a =? "") || (a =? "/") then a ++ b else a ++ "/" ++ b.

Definition mem_mkdir (fs : mem_fs) (p : string) : completion mem_fs :=
  match file_lookup (files fs) p with
  | Some _ => Throw (SystemError "EEXIST" ("EEXIST: file already exists, mkdir '" ++ p ++ "'"))
  | None => Normal (MemFs (files fs) (if is_dir fs p then dirs fs else p :: dirs fs))
  end.

Definition mem_write (fs : mem_fs) (p c : string) : completion mem_fs :=
  if is_dir fs p then
    Throw (SystemError "EISDIR" ("EISDIR: illegal operation on a directory, open '" ++ p ++ "'"))
  else if mem_exists fs (mem_dirname p) then
    Normal (MemFs (file_store (files fs) p c) (dirs fs))
  else
    Throw (SystemError "ENOENT" ("ENOENT: no such file or directory, open '" ++ p ++ "'")).

Definition mem_read (fs : mem_fs) (p : string) : completion string :=
  match file_lookup (files fs) p with
  | Some c => Normal c
  | None =>
      if is_dir fs p then
        Throw (SystemError "EISDIR" "EISDIR: illegal operation on a directory, read")
      else
        Throw (SystemError "ENOENT" ("ENOENT: no such file or directory, open '" ++ p ++ "'"))
  end.

Definition mem_is_directory (fs : mem_fs) (p : string) : completion bool :=
  if is_dir fs p then Normal true
  else match file_lookup (files fs) p with
       | Some _ => Normal false
       | None =>
           Throw (SystemError "ENOENT" ("ENOENT: no such file or directory, lstat '" ++ p ++ "'"))
       end.

Definition mem_platform : Platform := {|
  fs_state := mem_fs;
  existsSync := mem_exists;
  mkdirSync := mem_mkdir;
  writeFileSync := mem_write;
  readFileSync := mem_read;
  isDirectory := mem_is_directory;
  path_dirname := mem_dirname;
  path_basename := mem_basename;
  path_join := mem_join;
  homedir := "/home/user";
  locale_leb := String.leb
|}.

(** A world with nothing logged or printed yet. *)
Definition start {P : Platform} (fs : fs_state P) : world P := World fs [] [].

(** ** utils.js: [populateTemplate] and [ensureSetup] *)

(** [s.replace(r, f)] for a pattern with the [g] flag: the matches are
    replaced from left to right; after an empty match the search moves on
    by one character. The function may send events and may throw. *)
Fixpoint replace_all_from (r : regex)
    (f : match_result -> completion string * list event)
    (fuel pos : nat) (s : string) : completion string * list event :=
  match fuel with
  | 0 => (Normal s, [])
  | S fuel' =>
      match exec_from r (String.length s) pos s with
      | None => (Normal s, [])
      | Some m =>
          let before := firstn_str (m_index m - pos) s in
          let rest := skipn_str (m_end m - pos) s in
          match f m with
          | (Throw e, evs) => (Throw e, evs)
          | (Normal rep, evs) =>
              let '(skipped, pos', rest') :=
                if (m_end m =? m_index m)%nat
                then (firstn_str 1 rest, S (m_end m), skipn_str 1 rest)
                else ("", m_end m, rest) in
              match rest, (m_end m =? m_index m)%nat with
              | EmptyString, true => (Normal (before ++ rep), evs)
              | _, _ =>
                  match replace_all_from r f fuel' pos' rest' with
                  | (Normal tail, evs') =>
                      (Normal (before ++ rep ++ skipped ++ tail), (evs ++ evs')%list)
                  | (Throw e, evs') => (Throw e, (evs ++ evs')%list)
                  end
              end
          end
      end
  end.

Definition replace_all (r : regex)
    (f : match_result -> completion string * list event) (s : string)
  : completion string * list event :=
  replace_all_from r f (S (String.length s)) 0 s.

(** [/{{(.*?)}}/g] *)
Definition PLACEHOLDER : regex :=
  Seq (lit "{{") (Seq (Group (Star false Dot)) (lit "}}")).

(** The canonical array index a property key spells, if any. *)
Definition array_index (key : string) : option nat :=
  match NilEmpty.uint_of_string key with
  | Some u => if nat_to_string (Nat.of_uint u) =? key then Some (Nat.of_uint u) else None
  | None => None
  end.

(** The string form of a member a plain object inherits: a built-in
    function, or the prototype itself for [__proto__]. *)
Definition inherited_text (k : string) : string :=
  if k =? "__proto__" then "[object Object]"
  else "function " ++ (if k =? "constructor" then "Object" else k)
       ++ "() { [native code] }".

(** [key in data ? Some data[key] : None]; the [in] operator throws when
    [data] is not an object. A plain object has its own properties and
    the members of [Object.prototype]; [populateTemplate] only prints the
    member, so an inherited one is given by its string form. For an array
    the length and the elements are looked up, not the methods it
    inherits. *)
Definition lookup_in (data : value) (key : string) : completion (option value) :=
  match data with
  | VObj o =>
      match get o key with
      | Some v => Normal (Some v)
      | None =>
          if inherited_name key then Normal (Some (VStr (inherited_text key)))
          else Normal None
      end
  | VArr l =>
      if key =? "length" then Normal (Some (VNum (nat_to_string (length l))))
      else match array_index key with
           | Some i => Normal (nth_error l i)
           | None => Normal None
           end
  | _ =>
      Throw (TypeError ("Cannot use 'in' operator to search for '" ++ key
                        ++ "' in " ++ to_string data))
  end.

(** [populateTemplate(template, data, monitoringFn)] *)
Definition populateTemplate (template : string) (data : value)
  : completion string * list event :=
  replace_all PLACEHOLDER
    (fun m =>
       let key := string_or_undefined (m_group m 1) in
       match lookup_in data key with
       | Throw e => (Throw e, [])
       | Normal (Some v) => (Normal (to_string v), [])
       | Normal None =>
           (Normal ("{{" ++ key ++ "}}"),
            [say warn ("Missing data for placeholder: " ++ key)])
       end)
    template.

(** An entry of a blueprint's [content]. *)
Record blueprint_item : Type := Item {
  item_type : string;
  item_path : string;
  item_template : option string;      (* [None]: no [template] property *)
  item_data : value
}.

(** [{ content: [...] }]; [None] when the blueprint has no [content]. *)
Definition blueprint : Type := option (list blueprint_item).

Fixpoint insert_sorted {A : Type} (leb : A -> A -> bool) (x : A) (l : list A)
  : list A :=
  match l with
  | [] => [x]
  | y :: l' => if leb y x then y :: insert_sorted leb x l' else x :: y :: l'
  end.

(** [Array.prototype.sort], which is stable. *)
Definition sort_by {A : Type} (leb : A -> A -> bool) (l : list A) : list A :=
  fold_left (fun acc x => insert_sorted leb x acc) l [].

Section Utils.
Context {P : Platform}.

(** The loop of [ensureSetup] over the sorted items: the error thrown,
    if any, the paths created so far, and the world reached. *)
Fixpoint ensure_items (homeDir : string) (items : list blueprint_item)
    (createdPaths : list string) (w : world P)
  : option error * list string * world P :=
  match items with
  | [] => (None, createdPaths, w)
  | item :: rest =>
      let itemPath := path_join P homeDir (item_path item) in
      if item_type item =? "folder" then
        if existsSync P (w_fs w) itemPath then
          ensure_items homeDir rest createdPaths w
        else
          match mkdirSync P (w_fs w) itemPath with
          | Throw e => (Some e, createdPaths, w)
          | Normal fs' =>
              ensure_items homeDir rest (createdPaths ++ [itemPath])%list
                (World fs'
                   (w_log w ++ [say info ("Created folder: " ++ itemPath)])%list
                   (w_stdout w))
          end
      else if item_type item =? "file" then
        let dir := path_dirname P itemPath in
        let prepared :=
          if existsSync P (w_fs w) dir then Normal (createdPaths, w)
          else
            match mkdirSync P (w_fs w) dir with
            | Throw e => Throw e
            | Normal fs' =>
                Normal
                  ((createdPaths ++ [dir])%list,
                   World fs'
                     (w_log w
                      ++ [say info ("Created parent directory for file: " ++ dir)])%list
                     (w_stdout w))
            end in
        match prepared with
        | Throw e => (Some e, createdPaths, w)
        | Normal (created1, w1) =>
            let rendered :=
              match item_template item with
              | Some template => fst (populateTemplate template (item_data item))
              | None =>
                  Throw (TypeError
                    "Cannot read properties of undefined (reading 'replace')")
              end in
            match rendered with
            | Throw e => (Some e, created1, w1)
            | Normal content =>
                match writeFileSync P (w_fs w1) itemPath content with
                | Throw e => (Some e, created1, w1)
                | Normal fs2 =>
                    ensure_items homeDir rest (created1 ++ [itemPath])%list
                      (World fs2
                         (w_log w1 ++ [say info ("Created file: " ++ itemPath)])%list
                         (w_stdout w1))
                end
            end
        end
      else ensure_items homeDir rest createdPaths w
  end.

(** [ensureSetup(homeDir, bluePrint, monitoringFn)]: it never throws,
    and returns the sorted paths it created. *)
Definition ensureSetup (homeDir : string) (bluePrint : blueprint)
  : M P (list string) :=
  fun w =>
    let '(thrown, createdPaths, w') :=
      match bluePrint with
      | None =>
          (Some (TypeError "Cannot read properties of undefined (reading 'sort')"),
           [], w)
      | Some content =>
          ensure_items homeDir
            (sort_by (fun a b => locale_leb P (item_path a) (item_path b)) content)
            [] w
      end in
    let w'' :=
      match thrown with
      | Some e =>
          World (w_fs w')
            (w_log w'
             ++ [Event error_ ("Error in ensureSetup. Details: " ++ error_message e)
                   (Some e)])%list
            (w_stdout w')
      | None => w'
      end in
    (Normal (sort_by String.leb createdPaths), w'').
End Utils.

(** ** configTools.js: [initializeConfig] *)

(** [defaultConfigStructure.profiles] *)
Definition defaultProfiles : value :=
  VArr [VObj [("name", VStr "default_profile");
              ("settings",
               VObj [("key_1", VStr "default_value_1");
                     ("key_2", VStr "default_value_2")])]].

Definition defaultConfigStructure : value :=
  VObj [("profiles", defaultProfiles)].

(** [typeof v !== "string"] of a property read. *)
Definition not_a_string (o : option value) : bool :=
  match o with Some (VStr _) => false | _ => true end.

(** [typeof v !== "object" || Array.isArray(v) || v === null] of a
    property read. *)
Definition not_a_plain_object (o : option value) : bool :=
  match o with Some (VObj _) => false | _ => true end.

(** [x || fallback] of a property read. *)
Definition or_else (o : option value) (fallback : value) : value :=
  match o with
  | Some v => if truthy v then v else fallback
  | None => fallback
  end.

(** The function [initializeConfig] maps over the profiles. *)
Definition repair_profile (profile : value) : completion value * list event :=
  match member profile "name", member profile "settings" with
  | Normal n, Normal st =>
      if not_a_string n || not_a_plain_object st then
        (Normal (VObj [("name", or_else n (VStr "default_profile"));
                       ("settings", or_else st (VObj []))]),
         [say warn ("Invalid profile detected. Ensuring valid " ++ quoted "name"
                    ++ " and " ++ quoted "settings" ++ " in the profile.")])
      else (Normal profile, [])
  | Throw e, _ | _, Throw e => (Throw e, [])
  end.

Fixpoint repair_profiles (profiles : list value)
  : completion (list value) * list event :=
  match profiles with
  | [] => (Normal [], [])
  | p :: rest =>
      match repair_profile p with
      | (Throw e, evs) => (Throw e, evs)
      | (Normal p', evs) =>
          match repair_profiles rest with
          | (Throw e, evs') => (Throw e, (evs ++ evs')%list)
          | (Normal rest', evs') => (Normal (p' :: rest'), (evs ++ evs')%list)
          end
      end
  end.

(** [target.k = v]: on an object it sets the property; on an array it
    sets a property [JSON.stringify] does not write; on a primitive it
    does nothing (the module is not in strict mode). *)
Definition assign_member (target : value) (k : string) (v : value) : value :=
  match target with
  | VObj o => VObj (set o k v)
  | _ => target
  end.

(** Steps 1 and 2 of [initializeConfig]: the template parsed, defaulted
    and repaired, with the warnings sent on the way. *)
Definition validate_template (template : string) : completion value * list event :=
  let '(parsed1, evs1) :=
    match JSON_parse template with
    | Normal v => (v, [])
    | Throw _ =>
        (defaultConfigStructure,
         [say warn "Invalid JSON provided in template. Reverting to default configuration structure."])
    end in
  let '(parsed2, evs2) :=
    if truthy parsed1 then (parsed1, [])
    else
      (defaultConfigStructure,
       [say warn "Provided template was empty or invalid. Using default configuration structure."]) in
  match member parsed2 "profiles" with
  | Throw e => (Throw e, (evs1 ++ evs2)%list)
  | Normal (Some (VArr (p :: ps))) =>
      match repair_profiles (p :: ps) with
      | (Throw e, evs3) => (Throw e, (evs1 ++ evs2 ++ evs3)%list)
      | (Normal repaired, evs3) =>
          (Normal (assign_member parsed2 "profiles" (VArr repaired)),
           (evs1 ++ evs2 ++ evs3)%list)
      end
  | Normal _ =>
      (Normal (assign_member parsed2 "profiles" defaultProfiles),
       (evs1 ++ evs2
        ++ [say warn ("Invalid or missing " ++ quoted "profiles"
                      ++ " array in template. Injecting default profiles structure.")])%list)
  end.

Section InitializeConfig.
Context {P : Platform}.

(** [initializeConfig(filePath, template, templateData, monitoringFn)] *)
Definition initializeConfig (filePath template : string) (templateData : value)
  : M P unit :=
  try_catch
    (monitor_all (snd (validate_template template)) ;;;
     parsedTemplate <- lift (fst (validate_template template)) ;;
     let finalTemplate := JSON_stringify parsedTemplate in
     let homeDir := path_dirname P filePath in
     let fileName := path_basename P filePath in
     ensureSetup homeDir
       (Some [Item "file" fileName (Some finalTemplate) templateData]) ;;;
     monitor (say info ("Configuration file " ++ quoted filePath
                        ++ " created successfully.")))
    (fun error =>
       monitor (Event error_
                  ("Error initializing configuration file " ++ quoted filePath ++ ".")
                  (Some error))).
End InitializeConfig.

(** ** index.js: [wrapAndRun] *)

(** [finalSetupData]: the caller's setup merged over the defaults. *)
Record SetupData : Type := {
  showDebugMessages : bool;
  useOutputDir : bool;
  useSessionControl : bool;
  useConfig : bool;
  useHelp : bool;
  argsDictionary : list descriptor;
  intrinsicDefaults : obj;
  configTemplate : string;
  outputDirBlueprint : blueprint
}.

(** [/^--(help|h)$/] and the other descriptors [wrapAndRun] adds. *)
Definition help_descriptor : descriptor :=
  Descriptor "Help" (PRegExp (flag_pattern ["help"; "h"]))
    "Displays information about the program's input parameters and exits." false.

Definition init_config_descriptor : descriptor :=
  Descriptor "Configuration File Initialization"
    (PRegExp (flag_pattern ["init_config"; "ic"]))
    "Initializes an empty configuration file in the user's home directory and exits."
    false.

Definition config_profile_descriptor : descriptor :=
  Descriptor "Configuration Profile Selection"
    (PRegExp (value_pattern ["config_profile"; "cp"] (Plus Dot)))
    "Loads default data from a configuration profile if it has been defined." false.

Definition output_dir_descriptor : descriptor :=
  Descriptor "Output directory"
    (PRegExp (value_pattern ["output_dir"; "od"] (Plus Dot)))
    "The working directory for the program. All content produced by the program will be placed in this directory. It must be an absolute and valid path to an already existing folder."
    true.

(** [getDefaultBanner(appInfo)] of utils.js, for the object [getAppInfo]
    returns. *)
Definition getDefaultBanner (appInfo : obj) : string :=
  let field k := get appInfo k in
  let shown o := match o with Some v => to_string v | None => "undefined" end in
  shown (field "name")
  ++ (if truthy_opt (field "version") then " " ++ shown (field "version") else "")
  ++ (if truthy_opt (field "author") then nl ++ "by " ++ shown (field "author") else "")
  ++ (if truthy_opt (field "description") then nl ++ shown (field "description") else "")
  ++ nl ++ "---".

(** The dictionary [wrapAndRun] parses with: the caller's descriptors,
    then the ones of the features switched on. *)
Definition full_dictionary (finalSetupData : SetupData) : list descriptor :=
  (argsDictionary finalSetupData
   ++ (if useHelp finalSetupData then [help_descriptor] else [])
   ++ (if useConfig finalSetupData
       then [init_config_descriptor; config_profile_descriptor] else [])
   ++ (if useOutputDir finalSetupData then [output_dir_descriptor] else []))%list.

(** How the promise [wrapAndRun] returns ends up: resolved with a value,
    or never settled, either because the executor returned without
    resolving or because it threw (an async executor's exception rejects
    nothing but its own, unobserved promise). *)
Inductive settlement : Type :=
| Resolved (v : value)
| NeverSettled (thrown : option error).

Section WrapAndRun.
Context {P : Platform}.

(** What [wrapAndRun] calls and this development does not look into:
    reading the application's [package.json], rendering the help text,
    the session lock of session.js, and the caller's [mainFn]. *)
Record Collaborators : Type := {
  getAppInfo : world P -> obj * world P;
  getHelp : list descriptor -> world P -> string * world P;
  canOpenSession : fs_state P -> string -> bool;
  openSession : string -> world P -> world P;
  closeSession : string -> world P -> world P;
  mainFn : obj -> M P value
}.

Variable C : Collaborators.

(** Step 7 for one descriptor: the name
    [payload.source.match(/\(([^)]+)\)/)[1].split("|")[0]]. A string has
    no [source], so [.match] is called on [undefined]. *)
Definition mandatory_name (d : descriptor) : completion string :=
  match payload d with
  | PRegExp r =>
      match first_group_text (source r) with
      | Normal (Some text) => Normal (first_alias text)
      | Normal None =>
          Throw (TypeError "Cannot read properties of undefined (reading 'split')")
      | Throw e => Throw e
      end
  | PString _ | POther _ =>
      Throw (TypeError "Cannot read properties of undefined (reading 'match')")
  end.

(** The loop of step 7: [Normal None] when every mandatory argument is
    there, [Normal (Some argName)] at the first one missing. *)
Fixpoint missing_mandatory (dictionary : list descriptor) (mergedData : obj)
  : completion (option string) :=
  match dictionary with
  | [] => Normal None
  | d :: rest =>
      if mandatory d then
        match mandatory_name d with
        | Throw e => Throw e
        | Normal argName =>
            if truthy_member mergedData argName
            then missing_mandatory rest mergedData
            else Normal (Some argName)
        end
      else missing_mandatory rest mergedData
  end.

(** Steps 8 to 11, once the merged data passed validation. *)
Definition run_main (finalSetupData : SetupData) (mergedData : obj)
  : world P -> settlement * world P :=
  fun w =>
    let outputDir := get mergedData "output_dir" in
    let shown := match outputDir with Some v => to_string v | None => "undefined" end in
    let dir_ok :=
      match outputDir with
      | Some (VStr dir) =>
          if negb (dir =? "") && existsSync P (w_fs w) dir
          then isDirectory P (w_fs w) dir
          else Normal false
      | _ => Normal false
      end in
    if useOutputDir finalSetupData then
      match dir_ok with
      | Throw e => (NeverSettled (Some e), w)
      | Normal false =>
          (Resolved (VNum "2"),
           snd (monitor (say error_ ("Provided output directory " ++ quoted shown
                                    ++ " is invalid.")) w))
      | Normal true =>
          let session := useSessionControl finalSetupData in
          if session && negb (canOpenSession C (w_fs w) shown) then
            (Resolved (VNum "2"),
             snd (monitor (say error_ ("Session is already active for the directory: "
                                      ++ shown)) w))
          else
            let w1 := if session then openSession C shown w else w in
            let w2 := snd (ensureSetup shown (outputDirBlueprint finalSetupData) w1) in
            let '(mainExitVal, w3) :=
              match mainFn C mergedData w2 with
              | (Normal v, w') => (v, w')
              | (Throw e, w') =>
                  (VNum "2",
                   snd (monitor (Event error_
                                   ("Error in main function execution: "
                                    ++ error_message e) (Some e)) w'))
              end in
            (Resolved mainExitVal, if session then closeSession C shown w3 else w3)
      end
    else
      let '(mainExitVal, w3) :=
        match mainFn C mergedData w with
        | (Normal v, w') => (v, w')
        | (Throw e, w') =>
            (VNum "2",
             snd (monitor (Event error_
                             ("Error in main function execution: "
                              ++ error_message e) (Some e)) w'))
        end in
      (Resolved mainExitVal, w3).

(** Steps 4 to 6: the default profile and the profile the command line
    names are loaded, and the four sources merged. A profile that could
    not be loaded is [null], which spreads to nothing. *)
Definition load_and_merge (finalSetupData : SetupData) (configFilePath : string)
    (argsDictionary : list descriptor) (cmdArgs : obj) (w : world P)
  : obj * world P :=
  let '(defaultProfileData, w) :=
    if useConfig finalSetupData
    then getConfigData configFilePath "default" argsDictionary w
    else (Normal (Some []), w) in
  let '(specifiedProfileData, w) :=
    match get cmdArgs "config_profile" with
    | Some v =>
        if useConfig finalSetupData && truthy v
        then getConfigData configFilePath (to_string v) argsDictionary w
        else (Normal (Some []), w)
    | None => (Normal (Some []), w)
    end in
  let spread (c : completion (option obj)) : obj :=
    match c with Normal (Some o) => o | _ => [] end in
  (mergeData (intrinsicDefaults finalSetupData)
     (spread defaultProfileData) (spread specifiedProfileData) cmdArgs,
   w).

(** [wrapAndRun(setupData, mainFn, cleanupFn, userMonitoringFn)], with
    [args] for [process.argv.slice(2)]: how the promise ends up, and the
    world left when the executor returns. *)
Definition wrapAndRun (finalSetupData : SetupData) (args : list string)
  : world P -> settlement * world P :=
  fun w =>
    let argsDictionary := full_dictionary finalSetupData in
    (* 1. Parse command-line arguments *)
    let '(appInfo, w) := getAppInfo C w in
    let '(parsed, evs) := getArguments argsDictionary [] args in
    let w := snd (monitor_all evs w) in
    match parsed with
    | Throw e => (NeverSettled (Some e), w)
    | Normal None =>
        (Resolved (VNum "2"),
         snd (monitor
                (say error_
                   ("Failed reading program arguments. Run "
                    ++ quoted (match get appInfo "name" with
                               | Some v => to_string v
                               | None => "undefined"
                               end ++ " --h")
                    ++ " for documentation.")) w))
    | Normal (Some cmdArgs) =>
        (* 2. Handle --help *)
        if useHelp finalSetupData && truthy_opt (get cmdArgs "help") then
          let '(help, w) := getHelp C argsDictionary w in
          (NeverSettled None,
           snd (console_log (getDefaultBanner appInfo ++ nl ++ help) w))
        else
          (* 3. Handle --init_config *)
          let configFilePath :=
            path_join P (homedir P)
              (match get appInfo "appPathName" with
               | Some v => to_string v
               | None => "undefined"
               end ++ ".config") in
          if useConfig finalSetupData && truthy_opt (get cmdArgs "init_config") then
            let w := snd (initializeConfig configFilePath
                            (configTemplate finalSetupData) (VObj appInfo) w) in
            (Resolved (VNum "1"),
             snd (monitor (say debug ("Configuration file initialized at "
                                      ++ configFilePath)) w))
          else
            (* 4. to 6. Load the profiles and merge all data sources *)
            let '(mergedData, w) :=
              load_and_merge finalSetupData configFilePath argsDictionary
                cmdArgs w in
            (* 7. Validate mandatory arguments *)
            match missing_mandatory argsDictionary mergedData with
            | Throw e => (NeverSettled (Some e), w)
            | Normal (Some argName) =>
                (Resolved (VNum "2"),
                 snd (monitor (say error_ ("Mandatory argument " ++ quoted argName
                                          ++ " is missing.")) w))
            | Normal None => run_main finalSetupData mergedData w
            end
    end.
End WrapAndRun.

(** A descriptor written in ASCII: its string payload, or the source
    text of its pattern payload. *)
Definition ascii_payload (d : descriptor) : bool :=
  match payload d with
  | PString p => ascii_text p
  | PRegExp r => ascii_text (source r)
  | POther _ => true
  end.

Section Executor.
Context {P : Platform}.

(** The collaborators [C], once [getAppInfo] has returned [appInfo] and
    left the world [w1]. *)
Definition once_app_info_is (C : @Collaborators P) (appInfo : obj) (w1 : world P)
  : @Collaborators P := {|
  getAppInfo := fun _ => (appInfo, w1);
  getHelp := getHelp C;
  canOpenSession := canOpenSession C;
  openSession := openSession C;
  closeSession := closeSession C;
  mainFn := mainFn C
|}.

(** The executor of [wrapAndRun] from its first call on. The call
    [getAppInfo($m)] stands outside any [try] and may throw, as the
    function of utils.js does on a package name that is not a string; the
    executor is an [async] function, so nothing settles the promise then.
    With the object returned, the run goes on as [wrapAndRun] has it. *)
Definition wrapAndRun_calling (callAppInfo : M P obj) (C : @Collaborators P)
    (finalSetupData : SetupData) (args : list string)
  : world P -> settlement * world P :=
  fun w =>
    match callAppInfo w with
    | (Throw e, w1) => (NeverSettled (Some e), w1)
    | (Normal appInfo, w1) =>
        wrapAndRun (once_app_info_is C appInfo w1) finalSetupData args w
    end.

End Executor.

Section Pipeline.
Context {P : Platform}.
Variable C : @Collaborators P.

(** The world [wrapAndRun] has reached once the arguments are parsed. *)
Definition after_parsing (finalSetupData : SetupData) (args : list string)
    (w : world P) : world P :=
  snd (monitor_all
         (snd (getArguments (full_dictionary finalSetupData) [] args))
         (snd (getAppInfo C w))).

Definition config_file (w : world P) : string :=
  path_join P (homedir P)
    (match get (fst (getAppInfo C w)) "appPathName" with
     | Some v => to_string v
     | None => "undefined"
     end ++ ".config").

End Pipeline.

(** The descriptors before the first one that stops the loop: each is
    optional, or its argument is there. *)
Definition satisfied (mergedData : obj) (d : descriptor) : Prop :=
  mandatory d = false
  \/ exists argName,
       mandatory_name d = Normal argName
       /\ truthy_member mergedData argName = true.

Section MatcherInvariant.
Context {R : Type}.

(** What a continuation reached from [(pos, s, cs)] sees, for a matcher
    whose groups are numbered from [gi]. *)
Definition reaches (gi pos : nat) (s : string) (cs : caps)
    (k : @cont R) (res : R) : Prop :=
  exists w s' cs',
    s = w ++ s' /\
    k (pos + String.length w) s' cs' = Some res /\
    forall j, j < gi -> cs' j = cs j.

Definition sound_matcher (gi : nat) (m : @matcher R) : Prop :=
  forall pos s cs k res, m pos s cs k = Some res -> reaches gi pos s cs k res.

End MatcherInvariant.

(** The continuation at the end of a pattern. *)
Definition final_cont (start : nat) : @cont match_result :=
  fun pos' _ cs' => Some (MatchResult start pos' cs').

(** A descriptor of an argument that carries a value: its payload reads
    [^--(g)=rest], as [/^--(output_dir|od)=(.+)$/] does. *)
Definition value_bearing (d : descriptor) : Prop :=
  exists g rest,
    payload d = PRegExp (Seq dashes (Seq (Group g) (Seq (Chr "=") rest))).

(** The warning [getConfigData] sends for a key it finds no descriptor
    for. *)
Definition unknown_setting (profileName key : string) : event :=
  say warn ("Ignoring unknown setting " ++ quoted key ++ " in profile "
            ++ quoted profileName ++ ".").

(** The text of the built-in default document, as it is written. *)
Definition default_document : string := JSON_stringify defaultConfigStructure.

(** The Configuration Document invariant: an object whose [profiles] is a
    non-empty array of objects, each with a string [name] and a
    plain-object [settings]. *)
Definition conforming_profile (p : value) : bool :=
  match p with
  | VObj o =>
      match get o "name", get o "settings" with
      | Some (VStr _), Some (VObj _) => true
      | _, _ => false
      end
  | _ => false
  end.

Definition conforming_document (doc : value) : bool :=
  match doc with
  | VObj o =>
      match get o "profiles" with
      | Some (VArr (p :: ps)) => forallb conforming_profile (p :: ps)
      | _ => false
      end
  | _ => false
  end.

(** The path [initializeConfig] writes at: the directory and the base
    name of [filePath], joined again. *)
Definition config_path (P : Platform) (filePath : string) : string :=
  path_join P (path_dirname P filePath) (path_basename P filePath).

(** The text [initializeConfig] hands to the file system for a template
    and its data, when validation and substitution do not throw. *)
Definition config_text (template : string) (data : value) : completion string :=
  match fst (validate_template template) with
  | Normal parsedTemplate => fst (populateTemplate (JSON_stringify parsedTemplate) data)
  | Throw e => Throw e
  end.

(** ** Sample data for the examples *)

Definition sample_dictionary : list descriptor :=
  [ Descriptor "Dry Run" (PString "--isDryRun") "A simple flag argument" false;
    Descriptor "Version" (PRegExp (flag_pattern ["version"; "v"]))
      "Prints app version" false;
    Descriptor "Output directory"
      (PRegExp (value_pattern ["output_dir"; "od"] (Plus Dot)))
      "The working directory" true ].

Definition sample_fs : mem_fs := MemFs [] ["/home/user"].

Definition sample_app : obj :=
  [("name", VStr "demo"); ("version", VStr "1.0.0"); ("appPathName", VStr "demo")].

(** The template of the package's README. *)
Definition sample_template : string :=
  JSON_stringify
    (VObj [("appInfo", VObj [("appName", VStr "{{name}}");
                             ("appVersion", VStr "{{version}}")])]).

(** A configuration file with one profile, [dev], that sets [parseModel]. *)
Definition sample_config (parseModel : string) : string :=
  JSON_stringify
    (VObj [("profiles",
            VArr [VObj [("name", VStr "dev");
                        ("settings", VObj [("parseModel", VStr parseModel)])]])]).

(** [/^--(parseModel)=(saasFile|raw)$/] *)
Definition parse_model_descriptor : descriptor :=
  Descriptor "Parse Model"
    (PRegExp (value_pattern ["parseModel"] (alts ["saasFile"; "raw"])))
    "Sets the parsing model to use; one of saasFile or raw." false.

(** A template whose only profile has a number for a name and an array
    for settings. *)
Definition odd_profile_template : string :=
  JSON_stringify
    (VObj [("profiles",
            VArr [VObj [("name", VNum "5"); ("settings", VArr [VNum "1"])]])]).

Definition sample_collaborators : @Collaborators mem_platform := {|
  getAppInfo := fun w => (sample_app, w);
  getHelp := fun _ w => ("(help text)", w);
  canOpenSession := fun _ _ => true;
  openSession := fun _ w => w;
  closeSession := fun _ w => w;
  mainFn := fun _ => console_log "main ran" ;;; ret (VNum "0")
|}.

Definition sample_setup : SetupData := {|
  showDebugMessages := false;
  useOutputDir := false;
  useSessionControl := false;
  useConfig := false;
  useHelp := false;
  argsDictionary := [];
  intrinsicDefaults := [];
  configTemplate := "";
  outputDirBlueprint := None
|}.

(** ** argTools.js: [getArguments], the notions its properties are stated with *)

(** [key.replace(/^\W*/, "")], said directly. *)
Fixpoint skip_non_word (s : string) : string :=
  match s with
  | String a s' => if is_word_char a then s else skip_non_word s'
  | EmptyString => ""
  end.

Definition keys (o : obj) : list string := map fst o.

(** ** utils.js: [deepMergeData] *)

(** What [deepMergeData] is given as [setA]: a plain object or, when the
    recursion went through the [__proto__] a plain object inherits,
    [Object.prototype] itself. *)
Inductive merge_target : Type :=
| PlainObject (o : obj)
| ObjectPrototype.

(** [{ ...setA }]; [Object.prototype] has no enumerable property. *)
Definition spread (setA : merge_target) : obj :=
  match setA with
  | PlainObject o => assign [] o
  | ObjectPrototype => []
  end.

(** [setA[key]] when it is an object that is neither [null] nor an array.
    Besides its own properties a plain object inherits functions and the
    accessor [__proto__], which reads as [Object.prototype]; the
    [__proto__] of [Object.prototype] is [null]. *)
Definition object_at (setA : merge_target) (key : string) : option merge_target :=
  match setA with
  | PlainObject o =>
      match get o key with
      | Some (VObj a) => Some (PlainObject a)
      | Some _ => None
      | None => if key =? "__proto__" then Some ObjectPrototype else None
      end
  | ObjectPrototype => None
  end.

(** The loop [for (const key in setB)], with [rec] for the recursive
    call. *)
Definition merge_entries (rec : value -> merge_target -> completion obj)
    (setA : merge_target)
  : list string -> obj -> obj -> completion obj :=
  fix loop (seen : list string) (entries : obj) (result : obj) : completion obj :=
    match entries with
    | [] => Normal result
    | (key, v) :: rest =>
        if existsb (String.eqb key) seen then loop seen rest result
        else
          match v, object_at setA key with
          | VObj _, Some a =>
              match rec v a with
              | Throw e => Throw e
              | Normal merged => loop (key :: seen) rest (put result key (VObj merged))
              end
          | _, _ => loop (key :: seen) rest (put result key v)
          end
    end.

(** [deepMergeData(setA, setB)] for a plain object [setB]. The loop
    calls [setB.hasOwnProperty(key)]: an own property of that name shadows
    the method, and calling it throws. *)
Fixpoint deep_merge (setB : value) (setA : merge_target) : completion obj :=
  match setB with
  | VObj entries =>
      if has_own entries "hasOwnProperty" then
        Throw (TypeError "setB.hasOwnProperty is not a function")
      else merge_entries deep_merge setA [] entries (spread setA)
  | _ => Normal (spread setA)
  end.

Definition deepMergeData (setA setB : obj) : completion obj :=
  deep_merge (VObj setB) (PlainObject setA).

(** No object on the way shadows [hasOwnProperty]: the objects [setB]
    holds, at any depth under object-valued keys. *)
Fixpoint method_free (v : value) : bool :=
  match v with
  | VObj o =>
      negb (has_own o "hasOwnProperty")
      && (fix all (o : obj) : bool :=
            match o with
            | [] => true
            | (_, x) :: o' => method_free x && all o'
            end) o
  | _ => true
  end.

Section ValueInduction.
Variable Q : value -> Prop.
Hypothesis HNull : Q VNull.
Hypothesis HBool : forall b, Q (VBool b).
Hypothesis HNum : forall n, Q (VNum n).
Hypothesis HStr : forall s, Q (VStr s).
Hypothesis HArr : forall items, Forall Q items -> Q (VArr items).
Hypothesis HObj : forall props, Forall (fun kv => Q (snd kv)) props -> Q (VObj props).

(** Induction on a value, with the property at hand for the items of an
    array and the values of an object. *)
Fixpoint value_nested_ind (v : value) : Q v :=
  match v with
  | VNull => HNull
  | VBool b => HBool b
  | VNum n => HNum n
  | VStr s => HStr s
  | VArr items =>
      HArr items
        ((fix go (l : list value) : Forall Q l :=
            match l with
            | [] => Forall_nil _
            | x :: l' => Forall_cons x (value_nested_ind x) (go l')
            end) items)
  | VObj props =>
      HObj props
        ((fix go (l : obj) : Forall (fun kv => Q (snd kv)) l :=
            match l with
            | [] => Forall_nil _
            | (k, x) :: l' =>
                Forall_cons (P := fun kv => Q (snd kv)) (k, x)
                  (value_nested_ind x) (go l')
            end) props)
  end.

End ValueInduction.

(** ** utils.js: [generatePathSafeName] and [getAppInfo] *)

Definition is_upper (a : ascii) : bool :=
  ((65 <=? nat_of_ascii a) && (nat_of_ascii a <=? 90))%nat.

(** [[a-z0-9]] *)
Definition is_lower_alnum (a : ascii) : bool :=
  (((48 <=? nat_of_ascii a) && (nat_of_ascii a <=? 57))
   || ((97 <=? nat_of_ascii a) && (nat_of_ascii a <=? 122)))%nat.

(** [[a-zA-Z0-9]] *)
Definition is_alnum (a : ascii) : bool := is_lower_alnum a || is_upper a.

(** [s.replace(/[^a-zA-Z0-9]/g, "-")] *)
Fixpoint dash_others (s : string) : string :=
  match s with
  | EmptyString => ""
  | String a s' => String (if is_alnum a then a else "-"%char) (dash_others s')
  end.

(** [s.replace(/-+/g, "-")] *)
Fixpoint squeeze_dashes (s : string) : string :=
  match s with
  | EmptyString => ""
  | String a s' =>
      match s' with
      | String b _ =>
          if Ascii.eqb a "-" && Ascii.eqb b "-" then squeeze_dashes s'
          else String a (squeeze_dashes s')
      | EmptyString => String a ""
      end
  end.

Fixpoint drop_last_dash (s : string) : string :=
  match s with
  | EmptyString => ""
  | String a EmptyString => if Ascii.eqb a "-" then "" else s
  | String a s' => String a (drop_last_dash s')
  end.

(** [s.replace(/^-|-$/g, "")]: a dash at the start goes, and a dash at
    the end of what follows it. *)
Definition trim_dashes (s : string) : string :=
  drop_last_dash
    (match s with
     | String a s' => if Ascii.eqb a "-" then s' else s
     | EmptyString => ""
     end).

(** [s.toLowerCase()], for ASCII text. *)
Fixpoint toLowerCase (s : string) : string :=
  match s with
  | EmptyString => ""
  | String a s' =>
      String (if is_upper a then ascii_of_nat (nat_of_ascii a + 32) else a)
        (toLowerCase s')
  end.

(** [.*[a-z0-9]$] from a position on. *)
Fixpoint ends_alnum (s : string) : bool :=
  match s with
  | EmptyString => false
  | String a EmptyString => is_lower_alnum a
  | String a s' => negb (is_line_terminator a) && ends_alnum s'
  end.

(** [/^[a-z0-9].*[a-z0-9]$/.test(s)] *)
Definition valid_name (s : string) : bool :=
  match s with
  | String a s' => is_lower_alnum a && ends_alnum s'
  | EmptyString => false
  end.

Definition sanitize (name : string) : string :=
  toLowerCase (trim_dashes (squeeze_dashes (dash_others name))).

(** [generatePathSafeName(name)] for a string, with [uniqueId] for what
    [generateUniqueId()] returns when it is called. *)
Definition path_safe_name (name uniqueId : string) : string :=
  let sanitized := sanitize name in
  if valid_name sanitized then sanitized else "app-" ++ uniqueId.

(** [generatePathSafeName(name)]: only a string has a [replace] method. *)
Definition generatePathSafeName (name : option value) (uniqueId : string)
  : completion string :=
  match name with
  | Some (VStr s) => Normal (path_safe_name s uniqueId)
  | Some VNull =>
      Throw (TypeError "Cannot read properties of null (reading 'replace')")
  | None =>
      Throw (TypeError "Cannot read properties of undefined (reading 'replace')")
  | Some _ => Throw (TypeError "name.replace is not a function")
  end.

Fixpoint count_chars (p : ascii -> bool) (s : string) : nat :=
  match s with
  | EmptyString => 0
  | String a s' => (if p a then 1 else 0) + count_chars p s'
  end.

Definition is_dash (a : ascii) : bool := Ascii.eqb a "-".

Fixpoint has_double_dash (s : string) : bool :=
  match s with
  | EmptyString => false
  | String a s' =>
      match s' with
      | String b _ => (is_dash a && is_dash b) || has_double_dash s'
      | EmptyString => false
      end
  end.

Definition tame (a : ascii) : bool := is_alnum a || is_dash a.

Definition low (a : ascii) : bool := is_lower_alnum a || is_dash a.

(** What makes a name safe in a path: lower-case letters, digits and
    single dashes, with a letter or digit at both ends. *)
Definition path_safe (s : string) : bool :=
  all_chars low s && negb (has_double_dash s) && valid_name s.

Definition first_is_dash (s : string) : bool :=
  match s with String a _ => is_dash a | EmptyString => false end.

Fixpoint last_is_dash (s : string) : bool :=
  match s with
  | EmptyString => false
  | String a EmptyString => is_dash a
  | String _ s' => last_is_dash s'
  end.

Definition lower_char (a : ascii) : ascii :=
  if is_upper a then ascii_of_nat (nat_of_ascii a + 32) else a.

Module Utils.

(** What [getAppInfo] attaches to an event as [data]: nothing, the
    object read so far, or the error caught. *)
Inductive report_data : Type :=
| NoData
| InfoData (appInfo : obj)
| ErrorData (e : error).

(** What [getAppInfo] passes to [$m]. *)
Record report : Type := Report {
  r_type : severity;
  r_message : string;
  r_data : report_data
}.

(** [if (packageData.k) { appInfo.k = packageData.k; }] for each key in
    turn: the object as it is when the reads end, and what was thrown,
    if anything. *)
Fixpoint copy_truthy (keys : list string) (packageData : value) (appInfo : obj)
  : obj * option error :=
  match keys with
  | [] => (appInfo, None)
  | k :: rest =>
      match member packageData k with
      | Throw e => (appInfo, Some e)
      | Normal (Some v) =>
          if truthy v then copy_truthy rest packageData (set appInfo k v)
          else copy_truthy rest packageData appInfo
      | Normal None => copy_truthy rest packageData appInfo
      end
  end.

Section AppInfo.
Context {P : Platform}.

(** [getAppInfo(monitoringFn)], with [packageJsonPath] for
    [path.resolve(process.cwd(), "package.json")], and [nameId] and
    [pathId] for what the two calls of [generateUniqueId()] return: the
    object returned or the error thrown, and the events sent. *)
Definition getAppInfo (packageJsonPath nameId pathId : string) (fs : fs_state P)
  : completion obj * list report :=
  let initial := [("name", VStr ("App " ++ nameId))] in
  let failed (appInfo : obj) (e : error) :=
    (appInfo,
     [Report warn ("Failed to read package.json. Details: " ++ error_message e)
        (ErrorData e)]) in
  let '(appInfo, reports) :=
    if existsSync P fs packageJsonPath then
      match readFileSync P fs packageJsonPath with
      | Throw e => failed initial e
      | Normal text =>
          match JSON_parse text with
          | Throw e => failed initial e
          | Normal packageData =>
              match copy_truthy ["name"; "author"; "version"; "description"]
                      packageData initial with
              | (appInfo, Some e) => failed appInfo e
              | (appInfo, None) =>
                  (appInfo,
                   [Report debug
                      ("Successfully read package.json from path: " ++ packageJsonPath)
                      (InfoData appInfo)])
              end
          end
      end
    else
      (initial,
       [Report warn ("package.json not found at path: " ++ packageJsonPath) NoData]) in
  match generatePathSafeName (get appInfo "name") pathId with
  | Throw e => (Throw e, reports)
  | Normal appPathName =>
      (Normal (set appInfo "appPathName" (VStr appPathName)), reports)
  end.

End AppInfo.

End Utils.

(** A [package.json] with the given content, in the working directory
    [/work]. *)
Definition package_fs (packageData : value) : mem_fs :=
  MemFs [("/work/package.json", JSON_stringify packageData)] ["/work"].

Section AppInfoFactsDefinitions.
Context {P : Platform}.

(** The name the package file gives the application: the [name] of the
    object it holds, when it is truthy. *)
Definition package_name (fs : fs_state P) (packageJsonPath : string) : option value :=
  if existsSync P fs packageJsonPath then
    match readFileSync P fs packageJsonPath with
    | Normal text =>
        match JSON_parse text with
        | Normal (VObj o) =>
            match get o "name" with
            | Some v => if truthy v then Some v else None
            | None => None
            end
        | _ => None
        end
    | Throw _ => None
    end
  else None.

End AppInfoFactsDefinitions.

(** ** configTools.js: [getConfigData], the notions its properties are stated with *)

(** The settings [getConfigData] goes through for a profile of a parsed
    configuration document: the entries of [profile.settings || {}] of the
    first profile of that name. *)
Definition profile_entries (configData : value) (profileName : string)
  : option (list (string * value)) :=
  match member configData "profiles" with
  | Normal (Some (VArr items)) =>
      match find_profile items profileName with
      | Normal (Some p) =>
          match member p "settings" with
          | Normal (Some v) => Some (Object_entries (if truthy v then v else VObj []))
          | Normal None => Some []
          | Throw _ => None
          end
      | _ => None
      end
  | _ => None
  end.

(** [error.code === "ENOENT"] *)
Definition is_file_missing (e : error) : bool :=
  match error_code e with
  | Some c => c =? "ENOENT"
  | None => false
  end.

(** The event [getConfigData] sends from its [catch]. *)
Definition read_failure (e : error) : event :=
  Event (if is_file_missing e then warn else error_)
    ("Error reading configuration file. Details: " ++ error_message e)
    (if is_file_missing e then None else Some e).

Section ConfigReadsDefinitions.
Context {P : Platform}.

(** A computation that only sends events. *)
Definition only_reports {A : Type} (m : M P A) : Prop :=
  forall w, exists (r : completion A) evs,
    m w = (r, World (w_fs w) (w_log w ++ evs)%list (w_stdout w)).

End ConfigReadsDefinitions.

(** A configuration file with the profile [dev]. *)
Definition dev_profile_fs (settings : obj) : mem_fs :=
  MemFs [("/home/user/demo.config",
          JSON_stringify
            (VObj [("profiles",
                    VArr [VObj [("name", VStr "dev"); ("settings", VObj settings)]])]))]
    ["/home/user"].

Definition verbose_descriptor : descriptor :=
  Descriptor "Verbose" (PRegExp (flag_pattern ["verbose"])) "Says more" false.


(** ** utils.js: [populateTemplate], the notions its properties are stated with *)

(** A pattern without [^]: where it matches does not depend on the
    position in the input. *)
Fixpoint bol_free (r : regex) : bool :=
  match r with
  | Bol => false
  | Seq r1 r2 | Alt r1 r2 => bol_free r1 && bol_free r2
  | Star _ r' | Plus r' | Group r' => bol_free r'
  | _ => true
  end.

(** A match moved [d] characters to the right. *)
Definition shift (d : nat) (m : match_result) : match_result :=
  MatchResult (m_index m + d) (m_end m + d) (m_caps m).

(** The text of a placeholder [{{key}}] begins somewhere in [s]. *)
Fixpoint has_open (s : string) : bool :=
  match s with
  | EmptyString => false
  | String a s' =>
      match s' with
      | String b _ => (Ascii.eqb a "{" && Ascii.eqb b "{") || has_open s'
      | EmptyString => false
      end
  end.

(** What [populateTemplate] puts in the place of [{{key}}]. *)
Definition placeholder_value (data : value) (key : string)
  : completion string * list event :=
  match lookup_in data key with
  | Throw e => (Throw e, [])
  | Normal (Some v) => (Normal (to_string v), [])
  | Normal None =>
      (Normal ("{{" ++ key ++ "}}"),
       [say warn ("Missing data for placeholder: " ++ key)])
  end.

Section ShiftDefinitions.
Context {R R' : Type}.
Variable g : R -> R'.
Variable d : nat.

Definition shifted (k : @cont R) (k' : @cont R') : Prop :=
  forall p s cs, k' (p + d) s cs = option_map g (k p s cs).

End ShiftDefinitions.

Definition first_is (c : ascii) (s : string) : bool :=
  match s with String a _ => Ascii.eqb a c | EmptyString => false end.

(** ** utils.js: [ensureSetup], the notions its properties are stated with *)

Section EnsureSetupFactsDefinitions.
Context {P : Platform}.

(** An item [ensureSetup] has nothing to do for: a folder that is there,
    or an entry that is neither a folder nor a file. *)
Definition nothing_to_do (homeDir : string) (fs : fs_state P) (item : blueprint_item)
  : Prop :=
  (item_type item = "folder"
   /\ existsSync P fs (path_join P homeDir (item_path item)) = true)
  \/ (item_type item <> "folder" /\ item_type item <> "file").

End EnsureSetupFactsDefinitions.

(** ** argTools.js: [getHelp] *)

(** [s.match(r)] for a pattern with the [g] flag: the texts matched, from
    left to right; the empty list is JavaScript's [null]. *)
Fixpoint match_all_from (r : regex) (fuel pos : nat) (s : string) : list string :=
  match fuel with
  | 0 => []
  | S fuel' =>
      match exec_from r (String.length s) pos s with
      | None => []
      | Some m =>
          let text :=
            firstn_str (m_end m - m_index m) (skipn_str (m_index m - pos) s) in
          let rest := skipn_str (m_end m - pos) s in
          if (m_end m =? m_index m)%nat then
            match rest with
            | EmptyString => [text]
            | String _ rest' => text :: match_all_from r fuel' (S (m_end m)) rest'
            end
          else text :: match_all_from r fuel' (m_end m) rest
      end
  end.

Definition match_all (r : regex) (s : string) : list string :=
  match_all_from r (S (String.length s)) 0 s.

(** [s.replace(/c/g, rep)] for a one-character pattern. *)
Fixpoint replace_char (c : ascii) (rep : string) (s : string) : string :=
  match s with
  | EmptyString => ""
  | String a s' =>
      (if Ascii.eqb a c then rep else String a "") ++ replace_char c rep s'
  end.

Module ArgTools.

(** [payload.source] *)
Definition pattern_source (r : regex) : string := source r.

(** [`${payload}`] *)
Definition payload_text (p : Payload) : string :=
  match p with
  | PString s => s
  | PRegExp r => "/" ++ pattern_source r ++ "/"
  | POther v => to_string v
  end.

(** What one turn of the loop appends to [helpString]. *)
Definition entry_text (formattedPayload acceptedValues : string) (d : descriptor)
  : string :=
  formattedPayload ++ nl ++ "Name: " ++ name d ++ nl ++ "Details: " ++ doc d ++ nl
  ++ (if acceptedValues =? "" then "" else acceptedValues ++ nl)
  ++ "Form: " ++ payload_text (payload d) ++ nl ++ nl.

Definition undefined_has_no (property : string) : error :=
  TypeError ("Cannot read properties of undefined (reading '" ++ property ++ "')").

(** The line [Accepted values: ...] for the second bracket of the source,
    or the empty string. *)
Definition accepted_values (group : string) : completion string :=
  match exec REGEX_ARG_NAME group with
  | Some valueMatch =>
      match m_group valueMatch 1 with
      | Some values =>
          Normal (if includes "|" values
                  then "Accepted values: " ++ replace_char "|" ", " values
                  else "")
      | None => Throw (undefined_has_no "includes")
      end
  | None => Normal ""
  end.

(** One turn of the loop of [getHelp]: the text appended to [helpString]
    and the events sent, or what is thrown before anything is appended. *)
Definition help_entry (d : descriptor) : completion string * list event :=
  match payload d with
  | PString p => (Normal (entry_text p "" d), [])
  | PRegExp r =>
      let argNameSrc := pattern_source r in
      match exec REGEX_ARG_NAME argNameSrc with
      | Some argNamesMatch =>
          match m_group argNamesMatch 1 with
          | None => (Throw (undefined_has_no "split"), [])
          | Some names =>
              let argNames := split "|" names in
              let formattedPayload := "--" ++ join " or --" argNames in
              match match_all REGEX_ARG_NAME argNameSrc with
              | [] =>
                  (Throw (TypeError "Cannot read properties of null (reading 'length')"),
                   [])
              | [_] => (Normal (entry_text formattedPayload "" d), [])
              | _ :: second :: _ =>
                  match accepted_values second with
                  | Throw e => (Throw e, [])
                  | Normal acceptedValues =>
                      (Normal (entry_text (formattedPayload ++ "=...") acceptedValues d),
                       [])
                  end
              end
          end
      | None => (Normal (entry_text ("/" ++ argNameSrc ++ "/") "" d), [])
      end
  | POther _ =>
      (Normal "", [say error_ ("Invalid payload type for argument: " ++ name d)])
  end.

(** The loop, inside its [try]: the text built when the loop ends or
    something is thrown, and the events sent, the one of the [catch]
    included. *)
Fixpoint help_loop (dictionary : list descriptor) (helpString : string)
  : string * list event :=
  match dictionary with
  | [] => (helpString, [])
  | d :: rest =>
      match help_entry d with
      | (Throw e, evs) =>
          (helpString,
           (evs ++ [Event error_
                      ("Error generating help string. Details: " ++ error_message e)
                      (Some e)])%list)
      | (Normal text, evs) =>
          let '(helpString', evs') := help_loop rest (helpString ++ text) in
          (helpString', (evs ++ evs')%list)
      end
  end.

(** [getHelp(dictionary, monitoringFn)]: the help text and the events
    sent. *)
Definition getHelp (dictionary : list descriptor) : string * list event :=
  let '(helpString, evs) := help_loop dictionary "" in
  (trim helpString, evs).

End ArgTools.

(** A payload that is neither a string nor a pattern. *)
Definition is_other (d : descriptor) : bool :=
  match payload d with POther _ => true | _ => false end.

(** The event [getHelp] sends for such a descriptor. *)
Definition invalid_payload (d : descriptor) : event :=
  say error_ ("Invalid payload type for argument: " ++ name d).

(** The block of a descriptor in the help text, without the blank line
    that follows it. *)
Definition help_block (formattedPayload acceptedValues : string) (d : descriptor)
  : string :=
  formattedPayload ++ nl ++ "Name: " ++ name d ++ nl ++ "Details: " ++ doc d ++ nl
  ++ (if acceptedValues =? "" then "" else acceptedValues ++ nl)
  ++ "Form: " ++ ArgTools.payload_text (payload d).

(** A character [trim] keeps: printable and not a space. *)
Definition is_visible (a : ascii) : bool :=
  ((33 <=? nat_of_ascii a) && (nat_of_ascii a <=? 126))%nat.

Definition starts_visible (s : string) : bool :=
  match s with String a _ => is_visible a | EmptyString => false end.

Fixpoint ends_visible (s : string) : bool :=
  match s with
  | EmptyString => false
  | String a EmptyString => is_visible a
  | String _ s' => ends_visible s'
  end.

(** The block [getHelp] writes for a descriptor of one of the documented
    forms: a literal, a flag [/^--(a1|...|an)$/], an argument with a free
    value [/^--(a1|...|an)=(v)$/] or with a choice of values
    [/^--(a1|...|an)=(v1|...|vm)$/]. *)
Inductive documented : descriptor -> string -> Prop :=
| documented_literal (d : descriptor) (p : string) :
    payload d = PString p ->
    starts_visible p = true -> ends_visible p = true ->
    documented d (help_block p "" d)
| documented_flag (d : descriptor) (aliases : list string) :
    payload d = PRegExp (flag_pattern aliases) ->
    well_named aliases ->
    documented d (help_block ("--" ++ join " or --" aliases) "" d)
| documented_value (d : descriptor) (aliases : list string) (v : regex) :
    payload d = PRegExp (value_pattern aliases v) ->
    well_named aliases ->
    source v <> "" ->
    includes ")" (source v) = false -> includes "|" (source v) = false ->
    documented d (help_block ("--" ++ join " or --" aliases ++ "=...") "" d)
| documented_choice (d : descriptor) (aliases values : list string) :
    payload d = PRegExp (value_pattern aliases (alts values)) ->
    well_named aliases ->
    well_named values -> 2 <= length values ->
    documented d
      (help_block ("--" ++ join " or --" aliases ++ "=...")
         ("Accepted values: " ++ join ", " values) d).

(* ================================================================== *)
(** * Part II: properties *)
(* ================================================================== *)

(** ** Strings *)

Lemma str_app_assoc (a b c : string) : (a ++ b) ++ c = a ++ (b ++ c).
Proof. induction a as [|x a IH]; simpl; [reflexivity | now rewrite IH]. Qed.

Lemma str_app_nil_r (a : string) : a ++ "" = a.
Proof. induction a as [|x a IH]; simpl; [reflexivity | now rewrite IH]. Qed.

Lemma str_length_app (a b : string) :
  String.length (a ++ b) = String.length a + String.length b.
Proof. induction a as [|x a IH]; simpl; [reflexivity | now rewrite IH]. Qed.

Lemma firstn_str_app (a b : string) : firstn_str (String.length a) (a ++ b) = a.
Proof. induction a as [|x a IH]; simpl; [now destruct b | now rewrite IH]. Qed.

Lemma skipn_str_app (a b : string) : skipn_str (String.length a) (a ++ b) = b.
Proof. induction a as [|x a IH]; simpl; [now destruct b | exact IH]. Qed.

Lemma includes_app (c : ascii) (a b : string) :
  includes c (a ++ b) = includes c a || includes c b.
Proof.
  induction a as [|x a IH]; simpl; [reflexivity|].
  now rewrite IH, orb_assoc.
Qed.

(** ** The matcher consumes a prefix and keeps the captures to its left *)

Section MatcherFacts.
Context {R : Type}.

Lemma reaches_here gi pos s cs k res :
  k pos s cs = Some res -> @reaches R gi pos s cs k res.
Proof.
  intros H. exists "", s, cs. simpl. rewrite Nat.add_0_r. auto.
Qed.

Lemma reaches_step gi gi' pos s cs k res w s1 cs1 :
  s = w ++ s1 ->
  (forall j, j < gi -> cs1 j = cs j) ->
  gi <= gi' ->
  @reaches R gi' (pos + String.length w) s1 cs1 k res ->
  @reaches R gi pos s cs k res.
Proof.
  intros -> Hcs Hle (w2 & s2 & cs2 & -> & Hk & Hcs2).
  exists (w ++ w2), s2, cs2. repeat split.
  - now rewrite str_app_assoc.
  - now rewrite str_length_app, Nat.add_assoc.
  - intros j Hj. rewrite Hcs2 by lia. now apply Hcs.
Qed.

Lemma one_char_sound gi ok : @sound_matcher R gi (one_char ok).
Proof.
  intros pos s cs k res H. unfold one_char in H.
  destruct s as [|a s']; [discriminate|].
  destruct (ok a); [|discriminate].
  exists (String a ""), s', cs. simpl. rewrite Nat.add_1_r. auto.
Qed.

Lemma repeat_matcher_sound gi greedy body reset :
  @sound_matcher R gi body ->
  (forall cs j, j < gi -> reset cs j = cs j) ->
  forall fuel, @sound_matcher R gi (repeat_matcher greedy body reset fuel).
Proof.
  intros Hbody Hreset fuel.
  induction fuel as [|fuel IH]; intros pos s cs k res H; simpl in H.
  - now apply reaches_here.
  - assert (Hagain :
      body pos s (reset cs)
        (fun pos' s' cs' =>
           if (String.length s' <? String.length s)%nat
           then repeat_matcher greedy body reset fuel pos' s' cs' k
           else None) = Some res ->
      @reaches R gi pos s cs k res).
    { intros Hb. apply Hbody in Hb.
      destruct Hb as (w & s1 & cs1 & Hs & Hk & Hcs).
      destruct (String.length s1 <? String.length s)%nat; [|discriminate].
      apply IH in Hk.
      apply (reaches_step gi gi pos s cs k res w s1 cs1 Hs); [| lia | exact Hk].
      intros j Hj. rewrite Hcs by exact Hj. now apply Hreset. }
    destruct greedy.
    + destruct (body pos s (reset cs) _) as [x|] eqn:E.
      * apply Hagain. now rewrite <- H.
      * now apply reaches_here.
    + destruct (k pos s cs) as [x|] eqn:E.
      * apply reaches_here. now rewrite E.
      * now apply Hagain.
Qed.

Lemma clear_caps_below gi n cs j : j < gi -> clear_caps gi n cs j = cs j.
Proof.
  intros Hj. unfold clear_caps.
  destruct (gi <=? j)%nat eqn:E; [apply Nat.leb_le in E; lia | reflexivity].
Qed.

Lemma rmatch_sound r : forall gi, @sound_matcher R gi (rmatch r gi).
Proof.
  induction r as [| c | | c | | | | r1 IH1 r2 IH2 | r1 IH1 r2 IH2
                 | g r IH | r IH | r IH];
    intros gi pos s cs k res H; cbn [rmatch] in H.
  - now apply reaches_here.
  - now apply (one_char_sound gi) in H.
  - now apply (one_char_sound gi) in H.
  - now apply (one_char_sound gi) in H.
  - now apply (one_char_sound gi) in H.
  - destruct (pos =? 0)%nat; [now apply reaches_here | discriminate].
  - destruct s; [now apply reaches_here | discriminate].
  - apply IH1 in H. destruct H as (w & s1 & cs1 & Hs & Hk & Hcs).
    apply IH2 in Hk.
    apply (reaches_step gi (gi + ngroups r1) pos s cs k res w s1 cs1 Hs);
      [exact Hcs | lia | exact Hk].
  - destruct (rmatch r1 gi pos s cs k) as [x|] eqn:E.
    + apply IH1. now rewrite E.
    + apply IH2 in H. destruct H as (w & s1 & cs1 & Hs & Hk & Hcs).
      exists w, s1, cs1. repeat split; auto. intros j Hj. apply Hcs. lia.
  - revert H. apply repeat_matcher_sound; [apply IH|].
    intros cs' j Hj. now apply clear_caps_below.
  - apply IH in H. destruct H as (w & s1 & cs1 & Hs & Hk & Hcs).
    apply (repeat_matcher_sound gi) in Hk;
      [| apply IH | intros cs' j Hj; now apply clear_caps_below].
    apply (reaches_step gi gi pos s cs k res w s1 cs1 Hs); [| lia | exact Hk].
    intros j Hj. rewrite Hcs by exact Hj. now apply clear_caps_below.
  - apply IH in H. destruct H as (w & s1 & cs1 & Hs & Hk & Hcs).
    exists w, s1, (set_cap gi (Some (firstn_str (pos + String.length w - pos) s)) cs1).
    repeat split; auto.
    intros j Hj. unfold set_cap.
    destruct (j =? gi)%nat eqn:E; [apply Nat.eqb_eq in E; lia|].
    apply Hcs. lia.
Qed.
End MatcherFacts.

(** ** Literal patterns and alias lists *)

Lemma ngroups_lit (a : string) : ngroups (lit a) = 0.
Proof.
  induction a as [|c a IH]; [reflexivity|].
  destruct a; [reflexivity | simpl in *; exact IH].
Qed.

Lemma ngroups_alts (l : list string) : ngroups (alts l) = 0.
Proof.
  induction l as [|a l IH]; [reflexivity|].
  destruct l; simpl in *; [apply ngroups_lit|].
  rewrite IH. pose proof (ngroups_lit a) as H. simpl in H. now rewrite H.
Qed.

Lemma rmatch_lit_inv {R : Type} (a : string) :
  forall gi pos s cs (k : @cont R) res,
    rmatch (lit a) gi pos s cs k = Some res ->
    exists s', s = a ++ s' /\ k (pos + String.length a) s' cs = Some res.
Proof.
  induction a as [|c a IH]; intros gi pos s cs k res H.
  - exists s. simpl in *. now rewrite Nat.add_0_r.
  - assert (Hc : forall (k' : @cont R),
               one_char (Ascii.eqb c) pos s cs k' = Some res ->
               exists s1, s = String c s1 /\ k' (S pos) s1 cs = Some res).
    { intros k' Hk'. unfold one_char in Hk'.
      destruct s as [|x s1]; [discriminate|].
      destruct (Ascii.eqb_spec c x) as [->|]; [|discriminate].
      now exists s1. }
    destruct a as [|c' a'].
    + cbn [lit rmatch] in H. apply Hc in H. destruct H as (s1 & -> & Hk).
      exists s1. simpl. now rewrite Nat.add_1_r.
    + change (lit (String c (String c' a')))
        with (Seq (Chr c) (lit (String c' a'))) in H.
      cbn [rmatch] in H. apply Hc in H. destruct H as (s1 & -> & Hk).
      apply IH in Hk. destruct Hk as (s2 & -> & Hk).
      exists s2. split; [reflexivity|].
      cbn [String.length] in *.
      now replace (pos + S (S (String.length a')))
        with (S pos + S (String.length a')) by lia.
Qed.

Lemma rmatch_lit_app {R : Type} (a : string) :
  forall gi pos s' cs (k : @cont R),
    rmatch (lit a) gi pos (a ++ s') cs k = k (pos + String.length a) s' cs.
Proof.
  induction a as [|c a IH]; intros gi pos s' cs k.
  - simpl. now rewrite Nat.add_0_r.
  - destruct a as [|c' a'].
    + simpl. rewrite Ascii.eqb_refl. now rewrite Nat.add_1_r.
    + change (lit (String c (String c' a')))
        with (Seq (Chr c) (lit (String c' a'))).
      cbn [rmatch]. change (String c (String c' a') ++ s')
        with (String c (String c' a' ++ s')).
      unfold one_char at 1. rewrite Ascii.eqb_refl.
      rewrite IH. cbn [String.length].
      now replace (pos + S (S (String.length a')))
        with (S pos + S (String.length a')) by lia.
Qed.


(** ** Where a match starts *)

Lemma exec_from_inv (r : regex) :
  forall fuel pos s m,
    exec_from r fuel pos s = Some m ->
    exists pre suf,
      s = pre ++ suf /\
      rmatch r 0 (pos + String.length pre) suf no_caps
        (final_cont (pos + String.length pre)) = Some m.
Proof.
  induction fuel as [|fuel IH]; intros pos s m H; cbn [exec_from] in H.
  - destruct (rmatch r 0 pos s no_caps _) as [x|] eqn:E.
    + exists "", s. cbn. rewrite Nat.add_0_r. unfold final_cont. now rewrite E.
    + discriminate.
  - destruct (rmatch r 0 pos s no_caps _) as [x|] eqn:E.
    + exists "", s. cbn. rewrite Nat.add_0_r. unfold final_cont. now rewrite E.
    + destruct s as [|a s']; [discriminate|].
      apply IH in H. destruct H as (pre & suf & -> & H).
      exists (String a pre), suf. split; [reflexivity|].
      cbn [String.length]. now rewrite Nat.add_succ_r.
Qed.

Lemma exec_inv (r : regex) (s : string) (m : match_result) :
  exec r s = Some m ->
  exists pre suf,
    s = pre ++ suf /\
    rmatch r 0 (String.length pre) suf no_caps
      (final_cont (String.length pre)) = Some m.
Proof. intros H. now apply exec_from_inv in H. Qed.

(** A match of [^--(g)rest] starts at the first character, and the first
    group captures what [g] matched after the two dashes. *)
Lemma exec_dashes_group (g rest : regex) (arg : string) (m : match_result) :
  exec (Seq dashes (Seq (Group g) rest)) arg = Some m ->
  exists w tail cs,
    arg = "--" ++ w ++ tail /\
    m_group m 1 = Some w /\
    rmatch rest (S (ngroups g)) (2 + String.length w) tail cs (final_cont 0)
    = Some m.
Proof.
  intros H. apply exec_inv in H. destruct H as (pre & suf & -> & H).
  unfold dashes in H. cbn [rmatch] in H.
  destruct (String.length pre =? 0)%nat eqn:E; [|discriminate].
  apply Nat.eqb_eq in E. destruct pre; [|discriminate]. clear E.
  cbn [String.length String.append] in *.
  apply (rmatch_lit_inv "--") in H. destruct H as (s1 & -> & H).
  apply rmatch_sound in H. destruct H as (w & tail & cs1 & -> & H & _).
  replace (0 + String.length "--" + String.length w - (0 + String.length "--"))
    with (String.length w) in H by lia.
  rewrite firstn_str_app in H.
  exists w, tail, (set_cap 0 (Some w) cs1).
  split; [reflexivity|]. split; [|exact H].
  apply rmatch_sound in H. destruct H as (w2 & s' & cs' & _ & Hk & Hcs).
  unfold final_cont in Hk. injection Hk as <-.
  unfold m_group. cbn [m_caps Nat.sub]. rewrite Hcs by (cbn; lia).
  reflexivity.
Qed.


(** ** The source text of a payload, and what the program reads in it *)

Lemma source_char_plain (c : ascii) :
  is_syntax_char c = false -> source_char c = String c "".
Proof.
  intros H. unfold source_char. rewrite H.
  unfold is_syntax_char in H. apply orb_false_iff in H. destruct H as [_ H].
  unfold is_line_terminator in H. cbn zeta in H.
  apply orb_false_iff in H. destruct H as [Ha Hb]. now rewrite Ha, Hb.
Qed.

Lemma source_lit (a : string) :
  forallb (fun c => negb (is_syntax_char c)) (list_ascii_of_string a) = true ->
  forall lvl, lvl <= 1 -> source_at lvl (lit a) = a.
Proof.
  induction a as [|c a IH]; intros Hp lvl Hl.
  - simpl. destruct lvl as [|[|lvl]]; [reflexivity | reflexivity | lia].
  - cbn [list_ascii_of_string forallb] in Hp. apply andb_true_iff in Hp.
    destruct Hp as [Hc Hp]. apply negb_true_iff in Hc.
    destruct a as [|c' a'].
    + cbn [lit source_at]. now rewrite (source_char_plain c Hc).
    + change (lit (String c (String c' a')))
        with (Seq (Chr c) (lit (String c' a'))).
      cbn [source_at]. rewrite (source_char_plain c Hc). rewrite (IH Hp 1) by lia.
      destruct lvl as [|[|lvl]]; [reflexivity | reflexivity | lia].
Qed.

Lemma is_plain_name_chars (a : string) :
  is_plain_name a = true ->
  a <> "" /\
  forallb (fun c => negb (is_syntax_char c)) (list_ascii_of_string a) = true.
Proof.
  unfold is_plain_name. intros H. apply andb_true_iff in H. destruct H as [H _].
  apply andb_true_iff in H. destruct H as [H1 H2].
  split; [|exact H2]. apply negb_true_iff in H1. now apply String.eqb_neq.
Qed.

Lemma source_alts (l : list string) :
  forallb is_plain_name l = true -> source_at 0 (alts l) = join "|" l.
Proof.
  induction l as [|a l IH]; intros Hp; [reflexivity|].
  cbn [forallb] in Hp. apply andb_true_iff in Hp. destruct Hp as [Ha Hp].
  apply is_plain_name_chars in Ha. destruct Ha as [_ Ha].
  destruct l as [|b l'].
  - cbn [alts join]. apply source_lit; [exact Ha | lia].
  - change (alts (a :: b :: l')) with (Alt (lit a) (alts (b :: l'))).
    cbn [source_at]. rewrite (source_lit a Ha 0) by lia.
    rewrite (IH Hp). reflexivity.
Qed.

Lemma source_text (r : regex) :
  source_at 0 r <> "" -> source r = source_at 0 r.
Proof.
  intros H. unfold source. cbn zeta.
  now destruct (String.eqb_spec (source_at 0 r) "").
Qed.

Lemma source_named_pattern prefix aliases rest :
  forallb is_plain_name aliases = true ->
  source (named_pattern prefix aliases rest)
  = source_at 1 prefix ++ "(" ++ join "|" aliases ++ ")" ++ source_at 1 rest.
Proof.
  intros Hp. rewrite source_text; unfold named_pattern; cbn [source_at Nat.leb];
    rewrite (source_alts aliases Hp).
  - cbn [String.append]. now rewrite str_app_assoc.
  - intros E. apply (f_equal String.length) in E.
    rewrite !str_length_app in E. cbn [String.length] in E. lia.
Qed.



Lemma includes_plain (c : ascii) (a : string) :
  is_syntax_char c = true ->
  forallb (fun x => negb (is_syntax_char x)) (list_ascii_of_string a) = true ->
  includes c a = false.
Proof.
  intros Hc. induction a as [|x a IH]; intros Hp; [reflexivity|].
  cbn [list_ascii_of_string forallb] in Hp. apply andb_true_iff in Hp.
  destruct Hp as [Hx Hp]. cbn [includes]. rewrite (IH Hp), orb_false_r.
  destruct (Ascii.eqb_spec x c) as [->|]; [|reflexivity].
  rewrite Hc in Hx. discriminate.
Qed.

Lemma includes_join_plain (c : ascii) (l : list string) :
  is_syntax_char c = true -> c <> "|"%char ->
  forallb is_plain_name l = true ->
  includes c (join "|" l) = false.
Proof.
  intros Hc Hbar. induction l as [|a l IH]; intros Hp; [reflexivity|].
  cbn [forallb] in Hp. apply andb_true_iff in Hp. destruct Hp as [Ha Hp].
  apply is_plain_name_chars in Ha. destruct Ha as [_ Ha].
  destruct l as [|b l'].
  - cbn [join]. now apply includes_plain.
  - change (join "|" (a :: b :: l')) with (a ++ "|" ++ join "|" (b :: l')).
    rewrite includes_app, (includes_plain c a Hc Ha). cbn [String.append includes].
    rewrite (IH Hp), orb_false_r. cbn [orb].
    now apply Ascii.eqb_neq.
Qed.

Lemma join_nonempty (l : list string) :
  well_named l -> join "|" l <> "".
Proof.
  intros [Hne Hp]. destruct l as [|a l]; [congruence|].
  cbn [forallb] in Hp. apply andb_true_iff in Hp. destruct Hp as [Ha _].
  apply is_plain_name_chars in Ha. destruct Ha as [Ha _].
  destruct a as [|x a]; [congruence|]. destruct l; discriminate.
Qed.

(** *** [text.split("|").shift()] *)

Lemma split_aux_hd (c : ascii) (a : string) :
  includes c a = false ->
  forall cur rest,
    hd "" (split_aux c (a ++ rest) cur)
    = hd "" (split_aux c rest (cur ++ a)).
Proof.
  induction a as [|x a IH]; intros Hn cur rest.
  - simpl. now rewrite str_app_nil_r.
  - cbn [includes] in Hn. apply orb_false_iff in Hn. destruct Hn as [Hx Hn].
    cbn [String.append split_aux]. rewrite Hx. rewrite (IH Hn).
    rewrite str_app_assoc. reflexivity.
Qed.

Lemma first_alias_join (a : string) (l : list string) :
  is_plain_name a = true -> first_alias (join "|" (a :: l)) = a.
Proof.
  intros Ha. apply is_plain_name_chars in Ha. destruct Ha as [_ Ha].
  assert (Hn : includes "|" a = false) by now apply includes_plain.
  unfold first_alias, split. destruct l as [|b l'].
  - cbn [join]. rewrite <- (str_app_nil_r a) at 1.
    rewrite (split_aux_hd "|" a Hn). reflexivity.
  - change (join "|" (a :: b :: l')) with (a ++ "|" ++ join "|" (b :: l')).
    rewrite (split_aux_hd "|" a Hn). reflexivity.
Qed.

(** *** [src.match(/\(([^\)]+)\)/)[1]] *)

Lemma repeat_matcher_greedy_step {R : Type} (body : @matcher R) reset fuel
    pos s cs (k : @cont R) :
  repeat_matcher true body reset (S fuel) pos s cs k
  = match body pos s (reset cs)
            (fun pos' s' cs' =>
               if (String.length s' <? String.length s)%nat
               then repeat_matcher true body reset fuel pos' s' cs' k
               else None) with
    | Some x => Some x
    | None => k pos s cs
    end.
Proof. reflexivity. Qed.

Lemma rmatch_notchr_cons {R : Type} (c a : ascii) gi pos s cs (k : @cont R) :
  rmatch (NotChr c) gi pos (String a s) cs k
  = if Ascii.eqb a c then None else k (S pos) s cs.
Proof. cbn. now destruct (Ascii.eqb a c). Qed.

Lemma repeat_notchr {R : Type} (c : ascii) (P : R -> Prop) (w : string) :
  includes c w = false ->
  forall fuel gi n pos tail cs (k : @cont R),
    String.length w < fuel ->
    (forall cs', exists x,
        k (pos + String.length w) (String c tail) cs' = Some x /\ P x) ->
    exists x,
      repeat_matcher true (rmatch (NotChr c) gi) (clear_caps gi n) fuel pos
        (w ++ String c tail) cs k = Some x /\ P x.
Proof.
  induction w as [|a w IH]; intros Hn fuel gi n pos tail cs k Hf Hk.
  - destruct fuel as [|fuel]; [cbn in Hf; lia|].
    rewrite repeat_matcher_greedy_step. cbn [String.append].
    rewrite rmatch_notchr_cons, Ascii.eqb_refl.
    specialize (Hk cs). cbn [String.length] in Hk. now rewrite Nat.add_0_r in Hk.
  - destruct fuel as [|fuel]; [cbn in Hf; lia|].
    cbn [includes] in Hn. apply orb_false_iff in Hn. destruct Hn as [Ha Hn].
    rewrite repeat_matcher_greedy_step. cbn [String.append].
    rewrite rmatch_notchr_cons, Ha. cbn [String.length].
    rewrite (proj2 (Nat.ltb_lt _ _) (Nat.lt_succ_diag_r _)).
    destruct (IH Hn fuel gi n (S pos) tail (clear_caps gi n cs) k) as (x & Hx & HP).
    + cbn [String.length] in Hf. lia.
    + intros cs'. cbn [String.length] in Hk.
      replace (S pos + String.length w) with (pos + S (String.length w)) by lia.
      apply Hk.
    + exists x. now rewrite Hx.
Qed.

Lemma rmatch_arg_name (start pos : nat) (body tail : string) :
  body <> "" -> includes ")" body = false ->
  exists m,
    rmatch REGEX_ARG_NAME 0 pos (String "(" (body ++ String ")" tail)) no_caps
      (final_cont start) = Some m
    /\ m_caps m 0 = Some body.
Proof.
  intros Hne Hn. destruct body as [|b body']; [congruence|].
  pose proof Hn as Hn'.
  cbn [includes] in Hn. apply orb_false_iff in Hn. destruct Hn as [Hb Hn].
  unfold REGEX_ARG_NAME.
  cbn [rmatch one_char String.append ngroups Nat.add].
  rewrite Ascii.eqb_refl, Hb. cbn [negb].
  apply (repeat_notchr ")" (fun m => m_caps m 0 = Some (String b body')) body' Hn
           _ 1 0).
  - rewrite str_length_app. lia.
  - intros cs'. cbn [one_char]. rewrite Ascii.eqb_refl.
    eexists. split; [reflexivity|].
    cbn [m_caps]. unfold set_cap. cbn [Nat.eqb].
    replace (S (S pos) + String.length body' - S pos)
      with (String.length (String b body')) by (cbn [String.length]; lia).
    f_equal. exact (firstn_str_app (String b body') (String ")" tail)).
Qed.

Lemma exec_from_skip (pre : string) :
  includes "(" pre = false ->
  forall fuel pos rest,
    String.length pre <= fuel ->
    exec_from REGEX_ARG_NAME fuel pos (pre ++ rest)
    = exec_from REGEX_ARG_NAME (fuel - String.length pre)
        (pos + String.length pre) rest.
Proof.
  induction pre as [|a pre IH]; intros Hn fuel pos rest Hf.
  - cbn. now rewrite Nat.sub_0_r, Nat.add_0_r.
  - cbn [includes] in Hn. apply orb_false_iff in Hn. destruct Hn as [Ha Hn].
    destruct fuel as [|fuel]; [cbn in Hf; lia|].
    cbn [String.append exec_from]. unfold REGEX_ARG_NAME at 1.
    cbn [rmatch one_char]. rewrite Ascii.eqb_sym, Ha.
    rewrite (IH Hn) by (cbn in Hf; lia).
    cbn [String.length Nat.sub]. now rewrite Nat.add_succ_r.
Qed.

Lemma first_group_text_scan (pre body tail : string) :
  includes "(" pre = false -> body <> "" -> includes ")" body = false ->
  first_group_text (pre ++ "(" ++ body ++ ")" ++ tail) = Normal (Some body).
Proof.
  intros Hpre Hne Hn. unfold first_group_text, exec.
  rewrite (exec_from_skip pre Hpre) by (rewrite str_length_app; lia).
  destruct (rmatch_arg_name (0 + String.length pre) (0 + String.length pre)
              body tail Hne Hn) as (m & Hm & Hc).
  destruct (String.length (pre ++ "(" ++ body ++ ")" ++ tail) - String.length pre);
    cbn [exec_from String.append];
    unfold final_cont in Hm; rewrite Hm; unfold m_group; cbn [Nat.sub];
    now rewrite Hc.
Qed.

Lemma first_group_text_named prefix aliases rest :
  plain_prefix prefix ->
  well_named aliases ->
  first_group_text (source (named_pattern prefix aliases rest))
  = Normal (Some (join "|" aliases)).
Proof.
  intros Hpre Hw. pose proof Hw as [Hne Hp].
  rewrite (source_named_pattern prefix aliases rest Hp).
  apply first_group_text_scan.
  - exact Hpre.
  - now apply join_nonempty.
  - apply includes_join_plain; [reflexivity | discriminate | exact Hp].
Qed.

(** ** argTools.js: [getArguments] *)

Lemma match_argument_cases dictionary arg argValues :
  forallb well_formed dictionary = true ->
  (existsb (fun d => matches d arg) dictionary = true /\
   exists argValues', match_argument dictionary arg argValues = Normal (Some argValues'))
  \/
  (existsb (fun d => matches d arg) dictionary = false /\
   match_argument dictionary arg argValues = Normal None).
Proof.
  induction dictionary as [|d rest IH]; intros Hwf.
  - right. split; reflexivity.
  - cbn [forallb] in Hwf. apply andb_true_iff in Hwf. destruct Hwf as [Hd Hwf].
    specialize (IH Hwf). cbn [existsb match_argument].
    unfold matches, well_formed in *.
    destruct (payload d) as [p | r | v].
    + destruct (arg =? p); [left; split; [reflexivity | eauto] | exact IH].
    + destruct (exec r arg) as [m|]; [|exact IH].
      left. split; [reflexivity|].
      destruct (first_group_text (source r)); [eauto | discriminate].
    + exact IH.
Qed.

Lemma parse_arguments_unmatched dictionary args :
  forallb well_formed dictionary = true ->
  (exists arg, In arg args /\ arg <> "" /\
               existsb (fun d => matches d arg) dictionary = false) ->
  forall argValues,
  exists arg, In arg args /\
    parse_arguments dictionary args argValues
    = (Normal None, [say error_ ("Unknown argument: " ++ arg)]).
Proof.
  intros Hwf. induction args as [|a rest IH]; intros (arg & Hin & Hne & Hno) argValues.
  - destruct Hin.
  - cbn [parse_arguments]. destruct (String.eqb_spec a "") as [->|Ha].
    + destruct Hin as [<-|Hin]; [congruence|].
      destruct (IH (ex_intro _ arg (conj Hin (conj Hne Hno))) argValues)
        as (arg' & Hin' & E).
      exists arg'. split; [now right | exact E].
    + destruct (match_argument_cases dictionary a argValues Hwf)
        as [(Hyes & av' & E) | (Hnone & E)]; rewrite E.
      * destruct Hin as [<-|Hin]; [congruence|].
        destruct (IH (ex_intro _ arg (conj Hin (conj Hne Hno))) av')
          as (arg' & Hin' & E').
        exists arg'. split; [now right | exact E'].
      * exists a. split; [now left | reflexivity].
Qed.

Lemma parse_arguments_matched dictionary args :
  forallb well_formed dictionary = true ->
  (forall arg, In arg args -> arg <> "" ->
               existsb (fun d => matches d arg) dictionary = true) ->
  forall argValues,
  exists settings,
    parse_arguments dictionary args argValues = (Normal (Some settings), []).
Proof.
  intros Hwf. induction args as [|a rest IH]; intros Hall argValues.
  - now exists argValues.
  - cbn [parse_arguments].
    assert (Hrest : forall arg, In arg rest -> arg <> "" ->
                      existsb (fun d => matches d arg) dictionary = true)
      by (intros arg Hin; apply Hall; now right).
    destruct (String.eqb_spec a "") as [->|Ha]; [now apply IH|].
    destruct (match_argument_cases dictionary a argValues Hwf)
      as [(Hyes & av' & E) | (Hnone & E)]; rewrite E.
    + now apply IH.
    + rewrite (Hall a (or_introl eq_refl) Ha) in Hnone. discriminate.
Qed.

(** C7. Whatever the descriptors (each pattern payload having the named
    group the descriptor invariant asks for) and whatever the tokens: if
    some non-empty token matches no descriptor, [getArguments] returns
    [null] and reports an unknown argument, wherever that token stands and
    however many tokens before it matched; and if every non-empty token
    matches some descriptor, [getArguments] returns a settings mapping. *)
Theorem getArguments_fails_iff_unmatched_token :
  forall dictionary defaults args,
    forallb well_formed dictionary = true ->
    ((exists arg, In arg args /\ arg <> "" /\
                  existsb (fun d => matches d arg) dictionary = false) ->
     fst (getArguments dictionary defaults args) = Normal None /\
     exists arg, In arg args /\
       snd (getArguments dictionary defaults args)
       = [say error_ ("Unknown argument: " ++ arg)])
    /\
    ((forall arg, In arg args -> arg <> "" ->
                  existsb (fun d => matches d arg) dictionary = true) ->
     exists settings,
       getArguments dictionary defaults args = (Normal (Some settings), [])).
Proof.
  intros dictionary defaults args Hwf. unfold getArguments. split.
  - intros Hex.
    destruct (parse_arguments_unmatched dictionary args Hwf Hex (assign [] defaults))
      as (arg & Hin & E).
    rewrite E. split; [reflexivity|]. now exists arg.
  - intros Hall. now apply parse_arguments_matched.
Qed.

Lemma getArguments_fails_iff_unmatched_token_witness :
  fst (getArguments sample_dictionary [] ["--v"; "--bogus"; "--od=/tmp"])
  = Normal None
  /\ exists settings,
       getArguments sample_dictionary [] ["--v"; ""; "--od=/tmp"; "--isDryRun"]
       = (Normal (Some settings), []).
Proof.
  split.
  - apply (proj1 (getArguments_fails_iff_unmatched_token
                    sample_dictionary [] ["--v"; "--bogus"; "--od=/tmp"] eq_refl)).
    exists "--bogus". split; [right; left; reflexivity|].
    split; [discriminate | reflexivity].
  - apply (proj2 (getArguments_fails_iff_unmatched_token
                    sample_dictionary []
                    ["--v"; ""; "--od=/tmp"; "--isDryRun"] eq_refl)).
    intros arg [<-|[<-|[<-|[<-|[]]]]] Hne;
      solve [reflexivity | now elim Hne].
Defined.

Example getArguments_stops_at_unknown :
  getArguments sample_dictionary [] ["--v"; "--bogus"; "--od=/tmp"]
  = (Normal None, [say error_ "Unknown argument: --bogus"]).
Proof. reflexivity. Qed.

Example getArguments_dry_run :
  getArguments sample_dictionary [] ["--isDryRun"]
  = (Normal (Some [("isDryRun", VBool true)]), []).
Proof. reflexivity. Qed.

Lemma match_argument_skip before rest arg argValues :
  existsb (fun d => matches d arg) before = false ->
  match_argument (before ++ rest) arg argValues
  = match_argument rest arg argValues.
Proof.
  induction before as [|d before IH]; intros Hno; [reflexivity|].
  cbn [existsb] in Hno. apply orb_false_iff in Hno. destruct Hno as [Hd Hno].
  cbn [app match_argument]. unfold matches in Hd.
  destruct (payload d) as [p | r | v].
  - rewrite Hd. now apply IH.
  - destruct (exec r arg); [discriminate | now apply IH].
  - now apply IH.
Qed.

Lemma match_argument_named d after prefix aliases rest arg m argValues :
  plain_prefix prefix ->
  well_named aliases ->
  payload d = PRegExp (named_pattern prefix aliases rest) ->
  exec (named_pattern prefix aliases rest) arg = Some m ->
  match_argument (d :: after) arg argValues
  = Normal (Some (put argValues (hd "" aliases) (argument_value m))).
Proof.
  intros Hpre Hw Hd Hm. cbn [match_argument]. rewrite Hd, Hm.
  rewrite (first_group_text_named prefix aliases rest Hpre Hw).
  destruct (String.eqb_spec (join "|" aliases) "") as [E|_].
  - now apply join_nonempty in E.
  - destruct Hw as [Hne Hp]. destruct aliases as [|a l]; [congruence|].
    cbn [forallb] in Hp. apply andb_true_iff in Hp. destruct Hp as [Ha _].
    now rewrite (first_alias_join a l Ha).
Qed.




(** ** Objects: reading after writing *)

Lemma get_set_same (o : obj) (k : string) (v : value) :
  get (set o k v) k = Some v.
Proof.
  induction o as [|[k' v'] o IH]; cbn [set get].
  - now rewrite String.eqb_refl.
  - destruct (String.eqb_spec k' k) as [->|Hne]; cbn [get].
    + now rewrite String.eqb_refl.
    + now rewrite (proj2 (String.eqb_neq k' k) Hne).
Qed.

Lemma get_set_other (o : obj) (k k' : string) (v : value) :
  k <> k' -> get (set o k v) k' = get o k'.
Proof.
  intros Hne. induction o as [|[k0 v0] o IH]; cbn [set get].
  - now rewrite (proj2 (String.eqb_neq k k') Hne).
  - destruct (String.eqb_spec k0 k) as [->|Hk0]; cbn [get].
    + now rewrite (proj2 (String.eqb_neq k k') Hne).
    + now rewrite IH.
Qed.

Lemma get_assign_from (source : obj) :
  forall seen target k,
    get (fold_left (fun t kv => set t (fst kv) (snd kv))
           (own_entries_from seen source) target) k
    = match (if existsb (String.eqb k) seen then None else get source k) with
      | Some v => Some v
      | None => get target k
      end.
Proof.
  induction source as [|[k0 v0] o IH]; intros seen target k.
  - cbn. now destruct (existsb (String.eqb k) seen).
  - cbn [own_entries_from get].
    destruct (existsb (String.eqb k0) seen) eqn:Hseen.
    + rewrite IH. destruct (existsb (String.eqb k) seen) eqn:Hk; [reflexivity|].
      destruct (String.eqb_spec k0 k) as [->|_]; [congruence | reflexivity].
    + cbn [fold_left fst snd]. rewrite IH. cbn [existsb].
      destruct (String.eqb_spec k0 k) as [->|Hne].
      * rewrite String.eqb_refl. cbn [orb]. rewrite Hseen. apply get_set_same.
      * rewrite (proj2 (String.eqb_neq k k0) (not_eq_sym Hne)). cbn [orb].
        now rewrite (get_set_other target k0 k v0 Hne).
Qed.

(** Reading [{ ...target, ...source }]. *)
Lemma get_assign (target source : obj) (k : string) :
  get (assign target source) k
  = match get source k with
    | Some v => Some v
    | None => get target k
    end.
Proof. unfold assign, own_entries. now rewrite get_assign_from. Qed.

(** ** utils.js: [mergeData] *)

(** C8. Merging intrinsic defaults, default-profile data, named-profile
    data and command-line arguments, in this order, is a shallow override:
    a key of the result holds the value of the last source that has it,
    untouched. So the command-line value wins for a key all four have, a
    key only the intrinsic defaults have keeps its value, and a key of any
    source is a key of the result. *)
Theorem mergeData_last_source_wins :
  forall intrinsic implicit explicit given k,
    let merged := mergeData intrinsic implicit explicit given in
    get merged k
    = match get given k, get explicit k, get implicit k with
      | Some v, _, _ => Some v
      | None, Some v, _ => Some v
      | None, None, Some v => Some v
      | None, None, None => get intrinsic k
      end
    /\ (forall v1 v2 v3 v4,
          get intrinsic k = Some v1 -> get implicit k = Some v2 ->
          get explicit k = Some v3 -> get given k = Some v4 ->
          get merged k = Some v4)
    /\ (forall v,
          get intrinsic k = Some v -> get implicit k = None ->
          get explicit k = None -> get given k = None ->
          get merged k = Some v)
    /\ (get intrinsic k <> None \/ get implicit k <> None \/
        get explicit k <> None \/ get given k <> None ->
        get merged k <> None).
Proof.
  intros intrinsic implicit explicit given k merged.
  assert (E : get merged k
              = match get given k, get explicit k, get implicit k with
                | Some v, _, _ => Some v
                | None, Some v, _ => Some v
                | None, None, Some v => Some v
                | None, None, None => get intrinsic k
                end).
  { unfold merged, mergeData. rewrite !get_assign. cbn [get].
    destruct (get given k), (get explicit k), (get implicit k),
      (get intrinsic k); reflexivity. }
  split; [exact E|]. rewrite E. repeat split.
  - intros v1 v2 v3 v4 _ _ _ ->. reflexivity.
  - intros v -> -> -> ->. reflexivity.
  - destruct (get given k), (get explicit k), (get implicit k),
      (get intrinsic k); try discriminate.
    intros [H|[H|[H|H]]]; congruence.
Qed.

Example mergeData_sample :
  mergeData [("parseModel", VStr "raw"); ("depth", VNum "1")]
            [("parseModel", VStr "saasFile")]
            []
            [("parseModel", VStr "xml"); ("isDryRun", VBool true)]
  = [("parseModel", VStr "xml"); ("depth", VNum "1"); ("isDryRun", VBool true)].
Proof. reflexivity. Qed.

(** ** configTools.js: [getConfigData] *)

Lemma str_app_inv_head (a b c : string) : a ++ b = a ++ c -> b = c.
Proof. induction a as [|x a IH]; simpl; intros H; [exact H | injection H; auto]. Qed.

(** The lookup [getConfigData] makes with the synthetic token [--key]
    never answers for a payload that asks for [=] after the name: the
    first group captures less than the key. *)
Lemma answers_to_value_bearing (key : string) (d : descriptor) :
  value_bearing d -> answers_to key d = false.
Proof.
  intros (g & rest & Hd). unfold answers_to. rewrite Hd.
  destruct (exec _ ("--" ++ key)) as [m|] eqn:E; [|reflexivity].
  apply exec_dashes_group in E. destruct E as (w & tail & cs & Hs & Hg & Hr).
  rewrite Hg. apply String.eqb_neq. intros ->.
  apply str_app_inv_head in Hs.
  cbn [rmatch one_char] in Hr. destruct tail as [|a tail']; [discriminate|].
  assert (Hlen : String.length key = String.length (key ++ String a tail'))
    by now rewrite <- Hs.
  rewrite str_length_app in Hlen. cbn [String.length] in Hlen. lia.
Qed.

Lemma find_value_bearing (key : string) (dictionary : list descriptor) :
  Forall value_bearing dictionary ->
  find (answers_to key) dictionary = None.
Proof.
  induction 1 as [|d l Hd _ IH]; [reflexivity|].
  cbn [find]. now rewrite (answers_to_value_bearing key d Hd).
Qed.

Lemma find_none_but_value_bearing (key : string) (dictionary : list descriptor) :
  (forall d, In d dictionary -> value_bearing d \/ answers_to key d = false) ->
  find (answers_to key) dictionary = None.
Proof.
  induction dictionary as [|d l IH]; intros H; [reflexivity|].
  cbn [find].
  assert (Hd : answers_to key d = false).
  { destruct (H d (or_introl eq_refl)) as [Hv|Hf];
      [now apply answers_to_value_bearing | exact Hf]. }
  rewrite Hd. apply IH. intros d' Hin. apply H. now right.
Qed.

Lemma find_not_value_bearing (key : string) (dictionary : list descriptor)
    (d : descriptor) :
  find (answers_to key) dictionary = Some d -> ~ value_bearing d.
Proof.
  intros Hfind Hv. apply find_some in Hfind. destruct Hfind as [_ Ha].
  rewrite (answers_to_value_bearing key d Hv) in Ha. discriminate.
Qed.

Section ConfigFacts.
Context {P : Platform}.

Lemma import_settings_value_bearing (dictionary : list descriptor) :
  Forall value_bearing dictionary ->
  forall entries profileName result (w : world P),
    import_settings entries profileName dictionary result w
    = (Normal result,
       World (w_fs w)
         (w_log w ++ map (fun kv => unknown_setting profileName (fst kv)) entries)%list
         (w_stdout w)).
Proof.
  intros Hd entries. induction entries as [|[key v] rest IH];
    intros profileName result w.
  - cbn. rewrite app_nil_r. now destruct w.
  - cbn [import_settings]. rewrite (find_value_bearing key dictionary Hd).
    unfold bind at 1. unfold monitor at 1. rewrite IH.
    cbn [w_fs w_log w_stdout map fst]. now rewrite <- app_assoc.
Qed.
End ConfigFacts.

Section ConfigProperties.
Context {P : Platform}.

Lemma getConfigData_value_bearing (dictionary : list descriptor) :
  Forall value_bearing dictionary ->
  forall filePath profileName (w : world P) settings,
    fst (getConfigData filePath profileName dictionary w) = Normal (Some settings) ->
    settings = [].
Proof.
  intros Hd filePath profileName w settings.
  unfold getConfigData, try_catch, bind, lift, fs_read, ret, monitor.
  destruct (readFileSync P (w_fs w) filePath) as [text|e]; [|discriminate].
  destruct (JSON_parse text) as [configData|e]; [|discriminate].
  destruct (member configData "profiles") as [[profiles|]|e]; try discriminate.
  destruct profiles as [| | | | items |]; try discriminate.
  destruct (find_profile items profileName) as [[p|]|e]; try discriminate.
  destruct (member p "settings") as [s|e]; [|discriminate].
  rewrite (import_settings_value_bearing dictionary Hd).
  cbn [fst]. now intros [= <-].
Qed.

(** C3. A descriptor whose payload asks for [=] and a value after the
    name, [^--(g)=rest], never answers the lookup [getConfigData] makes
    with the synthetic token [--key], whatever the key: the descriptor a
    setting is matched with is never one of these, and a setting that only
    such descriptors could answer for is skipped as an unknown key, with
    the warning. With such descriptors only, every setting of the profile
    is skipped so, and the mapping returned holds no setting. *)
Theorem getConfigData_value_descriptor_never_found :
  forall dictionary : list descriptor,
    (forall d key, value_bearing d -> answers_to key d = false)
    /\ (forall key d,
          find (answers_to key) dictionary = Some d -> ~ value_bearing d)
    /\ (forall key v rest profileName result (w : world P),
          (forall d, In d dictionary ->
                     value_bearing d \/ answers_to key d = false) ->
          import_settings ((key, v) :: rest) profileName dictionary result w
          = import_settings rest profileName dictionary result
              (snd (monitor (unknown_setting profileName key) w)))
    /\ (Forall value_bearing dictionary ->
        (forall key, find (answers_to key) dictionary = None)
        /\ (forall entries profileName result (w : world P),
              import_settings entries profileName dictionary result w
              = (Normal result,
                 World (w_fs w)
                   (w_log w
                    ++ map (fun kv => unknown_setting profileName (fst kv)) entries)%list
                   (w_stdout w)))
        /\ (forall filePath profileName (w : world P) settings,
              fst (getConfigData filePath profileName dictionary w)
              = Normal (Some settings) ->
              settings = [])).
Proof.
  intros dictionary. split; [|split; [|split]].
  - intros d key Hd. now apply answers_to_value_bearing.
  - intros key d. apply find_not_value_bearing.
  - intros key v rest profileName result w Hnone.
    cbn [import_settings].
    now rewrite (find_none_but_value_bearing key dictionary Hnone).
  - intros Hall. split; [|split].
    + intros key. now apply find_value_bearing.
    + now apply import_settings_value_bearing.
    + now apply getConfigData_value_bearing.
Qed.
End ConfigProperties.

Lemma value_pattern_value_bearing (d : descriptor) aliases v :
  payload d = PRegExp (value_pattern aliases v) -> value_bearing d.
Proof. intros Hd. now exists (alts aliases), (Seq (Group v) Eol). Qed.

Lemma getConfigData_value_descriptor_never_found_witness :
  find (answers_to "output_dir")
    [output_dir_descriptor; config_profile_descriptor; parse_model_descriptor]
  = None
  /\ forall profileName result (w : world mem_platform),
       import_settings [("output_dir", VStr "/tmp"); ("parseModel", VStr "raw")]
         profileName
         [output_dir_descriptor; config_profile_descriptor; parse_model_descriptor]
         result w
       = (Normal result,
          World (w_fs w)
            (w_log w ++ [unknown_setting profileName "output_dir";
                         unknown_setting profileName "parseModel"])%list
            (w_stdout w)).
Proof.
  assert (Hall : Forall value_bearing
            [output_dir_descriptor; config_profile_descriptor;
             parse_model_descriptor]).
  { repeat constructor;
      eapply value_pattern_value_bearing; reflexivity. }
  destruct (getConfigData_value_descriptor_never_found (P := mem_platform)
              [output_dir_descriptor; config_profile_descriptor;
               parse_model_descriptor]) as (_ & _ & _ & H).
  destruct (H Hall) as (Hfind & Himport & _).
  split; [apply Hfind|].
  intros profileName result w. apply Himport.
Defined.

(** ** configTools.js: [initializeConfig] *)

Lemma validate_template_invalid_json (template : string) (e : error) :
  JSON_parse template = Throw e ->
  validate_template template
  = (Normal defaultConfigStructure,
     [say warn "Invalid JSON provided in template. Reverting to default configuration structure."]).
Proof. intros H. unfold validate_template. rewrite H. reflexivity. Qed.

(** The default document has no placeholder: whatever the data, it is
    written as it is. *)
Lemma populateTemplate_default_document (data : value) :
  populateTemplate default_document data = (Normal default_document, []).
Proof. reflexivity. Qed.

Lemma default_document_parses :
  JSON_parse default_document = Normal defaultConfigStructure.
Proof. reflexivity. Qed.

Section InitializeConfigFacts.
Context {P : Platform}.

Lemma initializeConfig_returns (filePath template : string) (data : value)
    (w : world P) :
  fst (initializeConfig filePath template data w) = Normal tt.
Proof.
  unfold initializeConfig, try_catch.
  match goal with |- context [match ?b with _ => _ end] => destruct b as [[[]|e] w'] end;
    reflexivity.
Qed.

(** Every call reports how it ended: the file created, or an error with
    what was thrown. *)
Lemma initializeConfig_reports (filePath template : string) (data : value)
    (w : world P) :
  exists evs,
    w_log (snd (initializeConfig filePath template data w)) = (w_log w ++ evs)%list
    /\ (In (say info ("Created file: " ++ config_path P filePath)) evs
        \/ exists msg e, In (Event error_ msg (Some e)) evs).
Proof.
  unfold initializeConfig, try_catch, bind, monitor_all, lift, monitor, ensureSetup.
  cbn [fst snd sort_by fold_left insert_sorted ensure_items item_type item_path
       item_template item_data String.eqb Ascii.eqb Bool.eqb].
  fold (config_path P filePath).
  destruct (validate_template template) as [[v|e] evs];
    cbn [fst snd w_fs w_log w_stdout].
  2:{ eexists. rewrite <- !app_assoc. split; [reflexivity|].
      right. do 2 eexists. rewrite in_app_iff. right. left. reflexivity. }
  destruct (existsSync P (w_fs w) (path_dirname P (config_path P filePath)));
    [|destruct (mkdirSync P (w_fs w) (path_dirname P (config_path P filePath)))];
    cbn [fst snd w_fs w_log w_stdout];
    try (destruct (fst (populateTemplate (JSON_stringify v) data));
         cbn [fst snd w_fs w_log w_stdout];
         try (destruct (writeFileSync P _ (config_path P filePath) _);
              cbn [fst snd w_fs w_log w_stdout]));
    eexists; rewrite <- !app_assoc; (split; [reflexivity|]);
    repeat (rewrite in_app_iff; cbn [In]);
    first [ left; tauto
          | right; do 2 eexists; repeat (rewrite in_app_iff; cbn [In]);
            eauto 10 ].
Qed.

(** C9. For every input [initializeConfig] returns normally: nothing is
    thrown to the caller, and the events it sends say how it ended, the
    file created or an error with what was thrown. A template that is not
    valid JSON makes it report a warning and fall back on the built-in
    default document (one profile named [default_profile] with two
    placeholder settings); when the file system lets the directory be made
    and the file be written, that document is what is written at the path,
    whatever the template data. *)
Theorem initializeConfig_invalid_json_writes_default :
  forall (filePath template : string) (data : value) (w : world P),
    fst (initializeConfig filePath template data w) = Normal tt
    /\ (exists evs,
          w_log (snd (initializeConfig filePath template data w))
          = (w_log w ++ evs)%list
          /\ (In (say info ("Created file: " ++ config_path P filePath)) evs
              \/ exists msg e, In (Event error_ msg (Some e)) evs))
    /\ (forall e, JSON_parse template = Throw e ->
        let dir := path_dirname P (config_path P filePath) in
        let w' := snd (initializeConfig filePath template data w) in
        In (say warn "Invalid JSON provided in template. Reverting to default configuration structure.")
           (w_log w')
        /\ JSON_parse default_document = Normal defaultConfigStructure
        /\ forall fs1 fs2,
             (if existsSync P (w_fs w) dir then fs1 = w_fs w
              else mkdirSync P (w_fs w) dir = Normal fs1) ->
             writeFileSync P fs1 (config_path P filePath) default_document = Normal fs2 ->
             w_fs w' = fs2
             /\ In (say info ("Created file: " ++ config_path P filePath)) (w_log w')).
Proof.
  intros filePath template data w. split; [apply initializeConfig_returns|].
  split; [apply initializeConfig_reports|].
  intros e He dir w'. subst dir w'.
  unfold initializeConfig, try_catch, bind, monitor_all, lift, monitor, ensureSetup.
  rewrite (validate_template_invalid_json template e He).
  cbn [fst snd sort_by fold_left insert_sorted ensure_items item_type item_path
       item_template item_data String.eqb Ascii.eqb Bool.eqb].
  change (JSON_stringify defaultConfigStructure) with default_document.
  rewrite populateTemplate_default_document.
  fold (config_path P filePath).
  cbn [fst snd w_fs w_log w_stdout].
  split; [|split; [exact default_document_parses|]].
  - destruct (existsSync P (w_fs w) (path_dirname P (config_path P filePath)));
      [|destruct (mkdirSync P (w_fs w) (path_dirname P (config_path P filePath)))];
      cbn [w_fs w_log w_stdout];
      try (destruct (writeFileSync P _ (config_path P filePath) default_document));
      cbn [fst snd w_fs w_log w_stdout];
      repeat (rewrite in_app_iff; cbn [In]); tauto.
  - intros fs1 fs2 Hdir Hwrite.
    destruct (existsSync P (w_fs w) (path_dirname P (config_path P filePath))).
    + subst fs1. cbn [w_fs w_log w_stdout]. rewrite Hwrite.
      cbn [fst snd w_fs w_log w_stdout]. split; [reflexivity|].
      repeat (rewrite in_app_iff; cbn [In]). tauto.
    + rewrite Hdir. cbn [w_fs w_log w_stdout]. rewrite Hwrite.
      cbn [fst snd w_fs w_log w_stdout]. split; [reflexivity|].
      repeat (rewrite in_app_iff; cbn [In]). tauto.
Qed.
End InitializeConfigFacts.

(** *** Two calls in a row *)

Lemma repair_profile_warns (p : value) :
  Forall (fun ev => ev_type ev = warn) (snd (repair_profile p)).
Proof.
  unfold repair_profile.
  destruct (member p "name") as [n|e], (member p "settings") as [st|e'];
    cbn [snd]; try constructor.
  destruct (not_a_string n || not_a_plain_object st); cbn [snd];
    repeat constructor.
Qed.

Lemma repair_profiles_warns (l : list value) :
  Forall (fun ev => ev_type ev = warn) (snd (repair_profiles l)).
Proof.
  induction l as [|p l IH]; cbn [repair_profiles snd]; [constructor|].
  pose proof (repair_profile_warns p) as Hp.
  destruct (repair_profile p) as [[p'|e] evs]; cbn [snd] in *; [|exact Hp].
  destruct (repair_profiles l) as [[l'|e] evs']; cbn [snd] in *;
    apply Forall_app; split; assumption.
Qed.

(** Validation sends warnings only. *)
Lemma validate_template_warns (template : string) :
  Forall (fun ev => ev_type ev = warn) (snd (validate_template template)).
Proof.
  unfold validate_template.
  destruct (JSON_parse template) as [v|e].
  - destruct (truthy v).
    + destruct (member v "profiles") as [[[| | | | [|p ps] |]|]|e'];
        cbn [snd app]; repeat constructor.
      pose proof (repair_profiles_warns (p :: ps)) as Hr.
      destruct (repair_profiles (p :: ps)) as [[l|e'] evs]; cbn [snd] in *;
        exact Hr.
    + cbn. repeat constructor.
  - cbn. repeat constructor.
Qed.

Section Idempotence.
Context {P : Platform}.

Ltac run_initializeConfig :=
  unfold initializeConfig, try_catch, bind, monitor_all, lift, monitor,
    ensureSetup, config_text;
  cbn [fst snd sort_by fold_left insert_sorted ensure_items item_type item_path
       item_template item_data String.eqb Ascii.eqb Bool.eqb];
  fold (config_path P).

(** Where a call leaves the file system: as it was, with the parent
    directory made, or with the document written on top of that. *)
Lemma initializeConfig_fs (filePath template : string) (data : value)
    (w : world P) :
  let dir := path_dirname P (config_path P filePath) in
  let fs' := w_fs (snd (initializeConfig filePath template data w)) in
  fs' = w_fs w
  \/ mkdirSync P (w_fs w) dir = Normal fs'
  \/ exists fs1 content,
       (fs1 = w_fs w \/ mkdirSync P (w_fs w) dir = Normal fs1)
       /\ config_text template data = Normal content
       /\ writeFileSync P fs1 (config_path P filePath) content = Normal fs'.
Proof.
  cbn zeta. run_initializeConfig.
  destruct (validate_template template) as [[v|e] evs];
    cbn [fst snd w_fs w_log w_stdout]; [|now left].
  fold (config_path P filePath).
  destruct (existsSync P (w_fs w) (path_dirname P (config_path P filePath))).
  - cbn [w_fs w_log w_stdout].
    destruct (fst (populateTemplate (JSON_stringify v) data)) as [content|e] eqn:Hc;
      cbn [fst snd w_fs w_log w_stdout]; [|now left].
    destruct (writeFileSync P (w_fs w) (config_path P filePath) content)
      as [fs2|e] eqn:Hw; cbn [fst snd w_fs w_log w_stdout]; [|now left].
    right; right. exists (w_fs w), content. auto.
  - destruct (mkdirSync P (w_fs w) (path_dirname P (config_path P filePath)))
      as [fs1|e] eqn:Hm; cbn [fst snd w_fs w_log w_stdout]; [|now left].
    destruct (fst (populateTemplate (JSON_stringify v) data)) as [content|e] eqn:Hc;
      cbn [fst snd w_fs w_log w_stdout]; [|now (right; left)].
    destruct (writeFileSync P fs1 (config_path P filePath) content)
      as [fs2|e] eqn:Hw; cbn [fst snd w_fs w_log w_stdout]; [|now (right; left)].
    right; right. exists fs1, content. auto.
Qed.

(** A call that reports the file created has written the document. *)
Lemma initializeConfig_created (filePath template : string) (data : value)
    (fs : fs_state P) :
  let w1 := snd (initializeConfig filePath template data (start fs)) in
  In (say info ("Created file: " ++ config_path P filePath)) (w_log w1) ->
  exists fs1 content,
    config_text template data = Normal content
    /\ writeFileSync P fs1 (config_path P filePath) content = Normal (w_fs w1).
Proof.
  cbn zeta. run_initializeConfig.
  pose proof (validate_template_warns template) as Hwarn.
  assert (Hnot : ~ In (say info ("Created file: " ++ config_path P filePath))
                   (snd (validate_template template))).
  { intros Hin. rewrite Forall_forall in Hwarn. apply Hwarn in Hin. discriminate. }
  destruct (validate_template template) as [[v|e] evs];
    cbn [fst snd w_fs w_log w_stdout start app] in *.
  2:{ rewrite in_app_iff. cbn [In]. intros [H|[H|[]]]; [tauto | discriminate]. }
  fold (config_path P filePath).
  destruct (existsSync P fs (path_dirname P (config_path P filePath))).
  - cbn [w_fs w_log w_stdout].
    destruct (fst (populateTemplate (JSON_stringify v) data)) as [content|e] eqn:Hc;
      cbn [fst snd w_fs w_log w_stdout].
    2:{ rewrite !in_app_iff. cbn [In].
        intros [[H|[H|[]]]|[H|[]]]; [tauto | discriminate | discriminate]. }
    destruct (writeFileSync P fs (config_path P filePath) content)
      as [fs2|e] eqn:Hw; cbn [fst snd w_fs w_log w_stdout].
    + intros _. exists fs, content. auto.
    + rewrite !in_app_iff. cbn [In].
      intros [[H|[H|[]]]|[H|[]]]; [tauto | discriminate | discriminate].
  - destruct (mkdirSync P fs (path_dirname P (config_path P filePath)))
      as [fs1|e] eqn:Hm; cbn [fst snd w_fs w_log w_stdout].
    2:{ rewrite !in_app_iff. cbn [In].
        intros [[H|[H|[]]]|[H|[]]]; [tauto | discriminate | discriminate]. }
    destruct (fst (populateTemplate (JSON_stringify v) data)) as [content|e] eqn:Hc;
      cbn [fst snd w_fs w_log w_stdout].
    2:{ rewrite !in_app_iff. cbn [In].
        intros [[[H|[H|[]]]|[H|[]]]|[H|[]]];
          [tauto | discriminate | discriminate | discriminate]. }
    destruct (writeFileSync P fs1 (config_path P filePath) content)
      as [fs2|e] eqn:Hw; cbn [fst snd w_fs w_log w_stdout].
    + intros _. exists fs1, content. auto.
    + rewrite !in_app_iff. cbn [In].
      intros [[[H|[H|[]]]|[H|[]]]|[H|[]]];
        [tauto | discriminate | discriminate | discriminate].
Qed.

(** What the property needs of a file system: a file holds what was last
    written to it, and making a directory changes no file. *)
Hypothesis read_after_write :
  forall fs p c fs',
    writeFileSync P fs p c = Normal fs' -> readFileSync P fs' p = Normal c.
Hypothesis read_after_mkdir :
  forall fs d fs' p c,
    mkdirSync P fs d = Normal fs' ->
    readFileSync P fs p = Normal c -> readFileSync P fs' p = Normal c.

(** C10. Two calls of [initializeConfig] in a row with the same path,
    template and data: when the first reports the file created, the file
    holds the document it wrote, and after the second call the file holds
    the same bytes. *)
Theorem initializeConfig_twice_same_bytes :
  forall (filePath template : string) (data : value) (fs : fs_state P),
    let w1 := snd (initializeConfig filePath template data (start fs)) in
    let w2 := snd (initializeConfig filePath template data w1) in
    In (say info ("Created file: " ++ config_path P filePath)) (w_log w1) ->
    exists text,
      config_text template data = Normal text
      /\ readFileSync P (w_fs w1) (config_path P filePath) = Normal text
      /\ readFileSync P (w_fs w2) (config_path P filePath) = Normal text.
Proof.
  intros filePath template data fs w1 w2 Hcreated.
  destruct (initializeConfig_created filePath template data fs Hcreated)
    as (fs1 & text & Htext & Hw1).
  fold w1 in Hw1.
  assert (Hr1 : readFileSync P (w_fs w1) (config_path P filePath) = Normal text)
    by exact (read_after_write _ _ _ _ Hw1).
  exists text. split; [exact Htext|]. split; [exact Hr1|].
  unfold w2.
  destruct (initializeConfig_fs filePath template data w1)
    as [E | [Hm | (fs1' & text' & Hprep & Htext' & Hw2)]].
  - now rewrite E.
  - exact (read_after_mkdir _ _ _ _ _ Hm Hr1).
  - rewrite Htext in Htext'. injection Htext' as <-.
    exact (read_after_write _ _ _ _ Hw2).
Qed.
End Idempotence.

(** *** On the in-memory platform *)

Lemma file_lookup_store (l : list (string * string)) (p c : string) :
  file_lookup (file_store l p c) p = Some c.
Proof.
  induction l as [|[p' c'] l IH]; cbn [file_store file_lookup].
  - now rewrite String.eqb_refl.
  - destruct (String.eqb_spec p' p) as [->|Hne]; cbn [file_lookup].
    + now rewrite String.eqb_refl.
    + now rewrite (proj2 (String.eqb_neq p' p) Hne).
Qed.

Lemma mem_read_after_write (fs : mem_fs) (p c : string) (fs' : mem_fs) :
  mem_write fs p c = Normal fs' -> mem_read fs' p = Normal c.
Proof.
  unfold mem_write. destruct (is_dir fs p); [discriminate|].
  destruct (mem_exists fs (mem_dirname p)); [|discriminate].
  intros [= <-]. unfold mem_read. cbn [files]. now rewrite file_lookup_store.
Qed.

Lemma mem_read_after_mkdir (fs : mem_fs) (d : string) (fs' : mem_fs)
    (p c : string) :
  mem_mkdir fs d = Normal fs' -> mem_read fs p = Normal c ->
  mem_read fs' p = Normal c.
Proof.
  unfold mem_mkdir. destruct (file_lookup (files fs) d); [discriminate|].
  intros [= <-]. unfold mem_read. cbn [files].
  destruct (file_lookup (files fs) p); [auto|].
  destruct (is_dir fs p); discriminate.
Qed.

Lemma initializeConfig_twice_same_bytes_witness :
  let w1 := snd (initializeConfig (P := mem_platform) "/home/user/demo.config"
                   sample_template (VObj sample_app) (start (P := mem_platform) sample_fs)) in
  let w2 := snd (initializeConfig (P := mem_platform) "/home/user/demo.config"
                   sample_template (VObj sample_app) w1) in
  exists text,
    config_text sample_template (VObj sample_app) = Normal text
    /\ mem_read (w_fs w1) "/home/user/demo.config" = Normal text
    /\ mem_read (w_fs w2) "/home/user/demo.config" = Normal text.
Proof.
  apply (initializeConfig_twice_same_bytes (P := mem_platform)
           mem_read_after_write mem_read_after_mkdir
           "/home/user/demo.config" sample_template (VObj sample_app) sample_fs).
  vm_compute. right. left. reflexivity.
Defined.

Lemma initializeConfig_invalid_json_writes_default_witness :
  let w' := snd (initializeConfig (P := mem_platform) "/home/user/demo.config"
                   "not json" (VObj sample_app) (start (P := mem_platform) sample_fs)) in
  mem_read (w_fs w') "/home/user/demo.config" = Normal default_document
  /\ In (say warn "Invalid JSON provided in template. Reverting to default configuration structure.")
        (w_log w').
Proof.
  destruct (initializeConfig_invalid_json_writes_default (P := mem_platform)
              "/home/user/demo.config" "not json" (VObj sample_app)
              (start (P := mem_platform) sample_fs)) as (_ & _ & H).
  destruct (H _ eq_refl) as (Hwarn & _ & Hwrite).
  destruct (Hwrite sample_fs
              (MemFs [("/home/user/demo.config", default_document)] ["/home/user"])
              eq_refl eq_refl) as [Hfs _].
  cbn zeta. split; [|exact Hwarn].
  cbn zeta in Hfs. rewrite Hfs. reflexivity.
Defined.

(** ** index.js: [wrapAndRun], whatever the platform and the collaborators *)

Section WrapAndRunFacts.
Context {P : Platform}.
Variable C : @Collaborators P.

(** With [useHelp] set and a truthy [help] among the parsed arguments,
    the executor prints and returns: the promise is never settled. *)
Lemma wrapAndRun_help (finalSetupData : SetupData) (args : list string)
    (w : world P) (cmdArgs : obj) :
  fst (getArguments (full_dictionary finalSetupData) [] args) = Normal (Some cmdArgs) ->
  useHelp finalSetupData = true ->
  truthy_opt (get cmdArgs "help") = true ->
  fst (wrapAndRun C finalSetupData args w) = NeverSettled None.
Proof.
  intros Hparse Hh Hhelp. unfold wrapAndRun.
  destruct (getAppInfo C w) as [appInfo w1].
  destruct (getArguments (full_dictionary finalSetupData) [] args) as [parsed evs].
  cbn [fst] in Hparse. subst parsed. rewrite Hh, Hhelp. cbn [andb].
  now destruct (getHelp C (full_dictionary finalSetupData) _).
Qed.

(** With [useConfig] set, a truthy [init_config] among the parsed
    arguments and no help asked for, the configuration file is initialized,
    a debug event is sent and the promise resolves to 1: no profile is
    loaded, nothing is merged or validated, [mainFn] is not called. *)
Lemma wrapAndRun_init_config (finalSetupData : SetupData) (args : list string)
    (w : world P) (cmdArgs : obj) :
  fst (getArguments (full_dictionary finalSetupData) [] args) = Normal (Some cmdArgs) ->
  useHelp finalSetupData && truthy_opt (get cmdArgs "help") = false ->
  useConfig finalSetupData = true ->
  truthy_opt (get cmdArgs "init_config") = true ->
  wrapAndRun C finalSetupData args w
  = (Resolved (VNum "1"),
     snd (monitor
            (say debug ("Configuration file initialized at " ++ config_file C w))
            (snd (initializeConfig (config_file C w) (configTemplate finalSetupData)
                    (VObj (fst (getAppInfo C w)))
                    (after_parsing C finalSetupData args w))))).
Proof.
  intros Hparse Hh Hc Hinit. unfold wrapAndRun, after_parsing, config_file.
  destruct (getAppInfo C w) as [appInfo w1].
  destruct (getArguments (full_dictionary finalSetupData) [] args) as [parsed evs].
  cbn [fst snd] in *. subst parsed. now rewrite Hh, Hc, Hinit.
Qed.

(** From step 4 on, when the arguments are parsed and neither early exit
    applies. *)
Lemma wrapAndRun_validates (finalSetupData : SetupData) (args : list string)
    (w : world P) (cmdArgs : obj) :
  fst (getArguments (full_dictionary finalSetupData) [] args) = Normal (Some cmdArgs) ->
  useHelp finalSetupData && truthy_opt (get cmdArgs "help") = false ->
  useConfig finalSetupData && truthy_opt (get cmdArgs "init_config") = false ->
  let loaded :=
    load_and_merge finalSetupData (config_file C w) (full_dictionary finalSetupData)
      cmdArgs (after_parsing C finalSetupData args w) in
  wrapAndRun C finalSetupData args w
  = match missing_mandatory (full_dictionary finalSetupData) (fst loaded) with
    | Throw e => (NeverSettled (Some e), snd loaded)
    | Normal (Some argName) =>
        (Resolved (VNum "2"),
         snd (monitor (say error_ ("Mandatory argument " ++ quoted argName
                                  ++ " is missing.")) (snd loaded)))
    | Normal None => run_main C finalSetupData (fst loaded) (snd loaded)
    end.
Proof.
  intros Hparse Hh Hi. unfold wrapAndRun, after_parsing, config_file.
  destruct (getAppInfo C w) as [appInfo w1].
  destruct (getArguments (full_dictionary finalSetupData) [] args) as [parsed evs].
  cbn [fst snd] in *. subst parsed. rewrite Hh, Hi.
  now destruct (load_and_merge finalSetupData _ _ cmdArgs _).
Qed.
End WrapAndRunFacts.

(** *** Step 7, the mandatory arguments *)

Lemma mandatory_name_named (d : descriptor) prefix aliases rest :
  plain_prefix prefix -> well_named aliases ->
  payload d = PRegExp (named_pattern prefix aliases rest) ->
  mandatory_name d = Normal (hd "" aliases).
Proof.
  intros Hpre Hw Hd. unfold mandatory_name. rewrite Hd.
  rewrite (first_group_text_named prefix aliases rest Hpre Hw).
  destruct Hw as [Hne Hp]. destruct aliases as [|a l]; [congruence|].
  cbn [forallb] in Hp. apply andb_true_iff in Hp. destruct Hp as [Ha _].
  now rewrite (first_alias_join a l Ha).
Qed.

Lemma mandatory_name_string (d : descriptor) (p : string) :
  payload d = PString p ->
  mandatory_name d
  = Throw (TypeError "Cannot read properties of undefined (reading 'match')").
Proof. intros Hd. unfold mandatory_name. now rewrite Hd. Qed.

Lemma missing_mandatory_at (before : list descriptor) (d : descriptor)
    (after : list descriptor) (mergedData : obj) :
  Forall (satisfied mergedData) before ->
  mandatory d = true ->
  missing_mandatory (before ++ d :: after) mergedData
  = match mandatory_name d with
    | Throw e => Throw e
    | Normal argName =>
        if truthy_member mergedData argName
        then missing_mandatory after mergedData
        else Normal (Some argName)
    end.
Proof.
  intros Hb Hd. induction Hb as [|d' l Hd' _ IH];
    cbn [app missing_mandatory].
  - now rewrite Hd.
  - destruct Hd' as [Hopt | (argName & Hname & Hthere)].
    + now rewrite Hopt.
    + destruct (mandatory d'); [|exact IH]. now rewrite Hname, Hthere.
Qed.

(** The first mandatory pattern descriptor whose first alias has no truthy
    value in the merged data stops the pipeline: the error is reported,
    the promise resolves to 2, and nothing else happens. *)
Lemma wrapAndRun_missing_mandatory_pattern {P : Platform} (C : @Collaborators P)
    finalSetupData args (w : world P) cmdArgs before d after prefix aliases rest :
  fst (getArguments (full_dictionary finalSetupData) [] args) = Normal (Some cmdArgs) ->
  useHelp finalSetupData && truthy_opt (get cmdArgs "help") = false ->
  useConfig finalSetupData && truthy_opt (get cmdArgs "init_config") = false ->
  full_dictionary finalSetupData = (before ++ d :: after)%list ->
  let loaded :=
    load_and_merge finalSetupData (config_file C w) (full_dictionary finalSetupData)
      cmdArgs (after_parsing C finalSetupData args w) in
  Forall (satisfied (fst loaded)) before ->
  mandatory d = true ->
  plain_prefix prefix -> well_named aliases ->
  payload d = PRegExp (named_pattern prefix aliases rest) ->
  truthy_member (fst loaded) (hd "" aliases) = false ->
  wrapAndRun C finalSetupData args w
  = (Resolved (VNum "2"),
     snd (monitor (say error_ ("Mandatory argument " ++ quoted (hd "" aliases)
                              ++ " is missing.")) (snd loaded))).
Proof.
  intros Hparse Hh Hi Hdict loaded Hbefore Hd Hpre Hw Hp Hmissing.
  rewrite (wrapAndRun_validates C finalSetupData args w cmdArgs Hparse Hh Hi).
  cbn zeta. fold loaded. rewrite Hdict.
  rewrite (missing_mandatory_at before d after _ Hbefore Hd).
  rewrite (mandatory_name_named d prefix aliases rest Hpre Hw Hp).
  now rewrite Hmissing.
Qed.

(** ** Where the program departs from its documentation *)

(** C1. A value of the enumerated set is not accepted: with the
    descriptor [/^--(parseModel)=(saasFile|raw)$/] and the setting
    [parseModel: "raw"], [getConfigData] reports an unknown setting and
    returns a mapping without [parseModel], just as it does for the value
    [xml] that the set does not list. *)
Theorem getConfigData_drops_enumerated_value :
  let fs value := MemFs [("/home/user/demo.config", sample_config value)]
                    ["/home/user"] in
  let read value :=
    getConfigData (P := mem_platform) "/home/user/demo.config" "dev"
      [parse_model_descriptor] (start (P := mem_platform) (fs value)) in
  source (value_pattern ["parseModel"] (alts ["saasFile"; "raw"]))
  = "^--(parseModel)=(saasFile|raw)$"
  /\ read "raw"
     = (Normal (Some []),
        World (P := mem_platform) (fs "raw") [unknown_setting "dev" "parseModel"] [])
  /\ read "xml"
     = (Normal (Some []),
        World (P := mem_platform) (fs "xml") [unknown_setting "dev" "parseModel"] []).
Proof. cbn zeta. repeat split; reflexivity. Qed.

(** C6. A profile whose name is a number and whose settings are an array
    is reported invalid and written back as it was; and a template that is
    valid JSON without being an object is written back as it was. Neither
    document written satisfies the Configuration Document invariant. *)
Theorem initializeConfig_writes_nonconforming_document :
  let written template :=
    mem_read (w_fs (snd (initializeConfig (P := mem_platform)
                           "/home/user/demo.config" template (VObj sample_app)
                           (start (P := mem_platform) sample_fs))))
      "/home/user/demo.config" in
  let odd :=
    VObj [("profiles",
           VArr [VObj [("name", VNum "5"); ("settings", VArr [VNum "1"])]])] in
  written odd_profile_template = Normal odd_profile_template
  /\ JSON_parse odd_profile_template = Normal odd
  /\ conforming_document odd = false
  /\ written "5" = Normal "5"
  /\ JSON_parse "5" = Normal (VNum "5")
  /\ conforming_document (VNum "5") = false.
Proof. cbn zeta. repeat split; reflexivity. Qed.

(** C4. A mandatory descriptor whose payload is a string: step 7 reads
    [payload.source] of a string, the executor throws, and the promise is
    never settled; no error is reported and the value 2 is not produced.
    This holds whenever validation reaches such a descriptor, and on the
    sample below whether or not the argument was given. *)
Theorem wrapAndRun_mandatory_string_payload_throws :
  (forall (P : Platform) (C : @Collaborators P) finalSetupData args
          (w : world P) cmdArgs before d after p,
      fst (getArguments (full_dictionary finalSetupData) [] args)
      = Normal (Some cmdArgs) ->
      useHelp finalSetupData && truthy_opt (get cmdArgs "help") = false ->
      useConfig finalSetupData && truthy_opt (get cmdArgs "init_config") = false ->
      full_dictionary finalSetupData = (before ++ d :: after)%list ->
      Forall (satisfied
                (fst (load_and_merge finalSetupData (config_file C w)
                        (full_dictionary finalSetupData) cmdArgs
                        (after_parsing C finalSetupData args w)))) before ->
      mandatory d = true ->
      payload d = PString p ->
      fst (wrapAndRun C finalSetupData args w)
      = NeverSettled
          (Some (TypeError "Cannot read properties of undefined (reading 'match')")))
  /\
  let setup :=
    {| showDebugMessages := false; useOutputDir := false;
       useSessionControl := false; useConfig := false; useHelp := false;
       argsDictionary :=
         [Descriptor "Dry Run" (PString "--isDryRun") "A simple flag argument" true];
       intrinsicDefaults := []; configTemplate := "";
       outputDirBlueprint := None |} in
  let w := start (P := mem_platform) sample_fs in
  let thrown :=
    NeverSettled
      (Some (TypeError "Cannot read properties of undefined (reading 'match')")) in
  wrapAndRun sample_collaborators setup [] w = (thrown, w)
  /\ wrapAndRun sample_collaborators setup ["--isDryRun"] w = (thrown, w).
Proof.
  split.
  - intros P C finalSetupData args w cmdArgs before d after p
           Hparse Hh Hi Hdict Hbefore Hd Hp.
    rewrite (wrapAndRun_validates C finalSetupData args w cmdArgs Hparse Hh Hi).
    cbn zeta.
    set (loaded := load_and_merge finalSetupData (config_file C w)
                     (full_dictionary finalSetupData) cmdArgs
                     (after_parsing C finalSetupData args w)) in *.
    rewrite Hdict.
    rewrite (missing_mandatory_at before d after _ Hbefore Hd).
    now rewrite (mandatory_name_string d p Hp).
  - cbn zeta. split; reflexivity.
Qed.

(** C5. With [useHelp] set and the help flag among the parsed arguments,
    the help text is printed and the executor returns without resolving:
    the promise never yields 1 (nor anything else), whatever the setup.
    With [useConfig] set and [--ic], the promise resolves to 1, unless
    [--h] is there as well. *)
Theorem wrapAndRun_help_never_resolves :
  (forall (P : Platform) (C : @Collaborators P) finalSetupData args
          (w : world P) cmdArgs,
      fst (getArguments (full_dictionary finalSetupData) [] args)
      = Normal (Some cmdArgs) ->
      useHelp finalSetupData = true ->
      truthy_opt (get cmdArgs "help") = true ->
      fst (wrapAndRun C finalSetupData args w) = NeverSettled None)
  /\
  let setup :=
    {| showDebugMessages := false; useOutputDir := false;
       useSessionControl := false; useConfig := true; useHelp := true;
       argsDictionary := []; intrinsicDefaults := []; configTemplate := "";
       outputDirBlueprint := None |} in
  let w := start (P := mem_platform) sample_fs in
  wrapAndRun sample_collaborators setup ["--help"] w
  = (NeverSettled None,
     World (P := mem_platform) sample_fs []
       [getDefaultBanner sample_app ++ nl ++ "(help text)"])
  /\ fst (wrapAndRun sample_collaborators setup ["--ic"] w) = Resolved (VNum "1")
  /\ fst (wrapAndRun sample_collaborators setup ["--ic"; "--h"] w) = NeverSettled None.
Proof.
  split.
  - intros P C finalSetupData args w cmdArgs. apply wrapAndRun_help.
  - cbn zeta. repeat split; reflexivity.
Qed.

(** ** argTools.js: what [getArguments] reads *)

Lemma exec_from_here (r : regex) (fuel pos : nat) (s : string) (m : match_result) :
  rmatch r 0 pos s no_caps (final_cont pos) = Some m ->
  exec_from r fuel pos s = Some m.
Proof.
  intros H. unfold final_cont in H. destruct fuel; cbn [exec_from]; now rewrite H.
Qed.

(** The alternatives are tried in order: an alias is chosen when the rest
    of the pattern matches after it and after no other alias that starts
    the text. *)
Lemma rmatch_alts_pick {R : Type} (l : list string) (a s' : string) :
  In a l ->
  forall gi pos cs (k : @cont R) res,
    k (pos + String.length a) s' cs = Some res ->
    (forall x s'', In x l -> a ++ s' = x ++ s'' -> x <> a ->
                   k (pos + String.length x) s'' cs = None) ->
    rmatch (alts l) gi pos (a ++ s') cs k = Some res.
Proof.
  induction l as [|x l IH]; intros Hin gi pos cs k res Hk Hothers; [destruct Hin|].
  assert (Hx : x <> a -> rmatch (lit x) gi pos (a ++ s') cs k = None).
  { intros Hne. destruct (rmatch (lit x) gi pos (a ++ s') cs k) as [res'|] eqn:E;
      [|reflexivity].
    apply rmatch_lit_inv in E. destruct E as (s'' & Hs & Hk').
    rewrite (Hothers x s'' (or_introl eq_refl) Hs Hne) in Hk'. discriminate. }
  destruct l as [|y l'].
  - destruct Hin as [->|[]]. cbn [alts]. now rewrite rmatch_lit_app.
  - change (alts (x :: y :: l')) with (Alt (lit x) (alts (y :: l'))).
    cbn [rmatch]. destruct (String.eqb_spec x a) as [->|Hne].
    + now rewrite rmatch_lit_app, Hk.
    + rewrite (Hx Hne), ngroups_lit, Nat.add_0_r.
      apply IH; [destruct Hin; [congruence | assumption] | exact Hk |].
      intros x' s'' Hin'. apply Hothers. now right.
Qed.

Lemma app_same_length (a x s t : string) :
  String.length a = String.length x -> a ++ s = x ++ t -> a = x.
Proof.
  revert x. induction a as [|c a IH]; intros [|d x] Hlen H; try discriminate;
    [reflexivity|].
  cbn in H. injection H as -> H. cbn in Hlen. f_equal. apply (IH x); [lia | exact H].
Qed.

(** Two names without the character [c], each followed by [c], start the
    same text only if they are the same name. *)
Lemma name_before_char (c : ascii) (a x s t : string) :
  includes c a = false -> includes c x = false ->
  a ++ String c s = x ++ String c t -> a = x.
Proof.
  revert x. induction a as [|d a IH]; intros [|e x] Ha Hx H.
  - reflexivity.
  - cbn in H. injection H as <- _. cbn [includes] in Hx.
    rewrite Ascii.eqb_refl in Hx. discriminate.
  - cbn in H. injection H as -> _. cbn [includes] in Ha.
    rewrite Ascii.eqb_refl in Ha. discriminate.
  - cbn in H. injection H as -> H. cbn [includes] in Ha, Hx.
    apply orb_false_iff in Ha, Hx. f_equal. apply (IH x); tauto.
Qed.

Lemma rmatch_dot_cons {R : Type} (a : ascii) gi pos s cs (k : @cont R) :
  rmatch Dot gi pos (String a s) cs k
  = if is_line_terminator a then None else k (S pos) s cs.
Proof. cbn. now destruct (is_line_terminator a). Qed.

(** A greedy [.*] at the end of the pattern takes the rest of a line. *)
Lemma repeat_dot {R : Type} (P : R -> Prop) (w : string) :
  all_chars (fun a => negb (is_line_terminator a)) w = true ->
  forall fuel gi n pos cs (k : @cont R),
    String.length w < fuel ->
    (forall cs', exists x, k (pos + String.length w) "" cs' = Some x /\ P x) ->
    exists x,
      repeat_matcher true (rmatch Dot gi) (clear_caps gi n) fuel pos w cs k = Some x
      /\ P x.
Proof.
  induction w as [|a w IH]; intros Hw fuel gi n pos cs k Hf Hk.
  - destruct fuel as [|fuel]; [cbn in Hf; lia|].
    rewrite repeat_matcher_greedy_step. cbn [rmatch one_char].
    specialize (Hk cs). cbn [String.length] in Hk. now rewrite Nat.add_0_r in Hk.
  - destruct fuel as [|fuel]; [cbn in Hf; lia|].
    cbn [all_chars] in Hw. apply andb_true_iff in Hw. destruct Hw as [Ha Hw].
    apply negb_true_iff in Ha.
    rewrite repeat_matcher_greedy_step, rmatch_dot_cons, Ha. cbn [String.length].
    rewrite (proj2 (Nat.ltb_lt _ _) (Nat.lt_succ_diag_r _)).
    destruct (IH Hw fuel gi n (S pos) (clear_caps gi n cs) k) as (x & Hx & HP).
    + cbn [String.length] in Hf. lia.
    + intros cs'. cbn [String.length] in Hk.
      replace (S pos + String.length w) with (pos + S (String.length w)) by lia.
      apply Hk.
    + exists x. now rewrite Hx.
Qed.

Lemma firstn_str_all (a : string) : firstn_str (String.length a) a = a.
Proof. induction a as [|c a IH]; [reflexivity|]. cbn. now rewrite IH. Qed.

Lemma rmatch_chr_cons {R : Type} (c a : ascii) gi pos s cs (k : @cont R) :
  rmatch (Chr c) gi pos (String a s) cs k
  = if Ascii.eqb c a then k (S pos) s cs else None.
Proof. reflexivity. Qed.

(** [=(.+)$] on [=value]. *)
Lemma rmatch_value_tail (value : string) :
  value <> "" ->
  all_chars (fun a => negb (is_line_terminator a)) value = true ->
  forall start pos cs,
  exists m,
    rmatch (Seq (Chr "=") (Seq (Group (Plus Dot)) Eol)) 1 pos
      (String "=" value) cs (final_cont start) = Some m
    /\ m_caps m 1 = Some value.
Proof.
  intros Hne Hv start pos cs. destruct value as [|c value']; [congruence|].
  cbn [all_chars] in Hv. apply andb_true_iff in Hv. destruct Hv as [Hc Hv].
  apply negb_true_iff in Hc.
  cbn [rmatch]. unfold one_char at 1. rewrite Ascii.eqb_refl.
  unfold one_char at 1. rewrite Hc. cbn [negb ngroups Nat.add].
  apply (repeat_dot (fun m => m_caps m 1 = Some (String c value')) value' Hv).
  - lia.
  - intros cs'. eexists. split; [reflexivity|].
    cbn [m_caps]. unfold set_cap. cbn [Nat.eqb].
    replace (S (S pos) + String.length value' - S pos)
      with (String.length (String c value')) by (cbn [String.length]; lia).
    f_equal. apply firstn_str_all.
Qed.

(** A token [--alias=value] matches [/^--(a1|...|an)=(.+)$/], and the
    second group captures the value. *)
Lemma exec_value_pattern (aliases : list string) (a value : string) :
  In a aliases ->
  (forall x, In x aliases -> includes "=" x = false) ->
  value <> "" ->
  all_chars (fun c => negb (is_line_terminator c)) value = true ->
  exists m,
    exec (value_pattern aliases (Plus Dot)) ("--" ++ a ++ "=" ++ value) = Some m
    /\ m_group m 2 = Some value.
Proof.
  intros Hin Heq Hne Hv.
  destruct (rmatch_value_tail value Hne Hv 0 (2 + String.length a)
              (set_cap 0 (Some a) no_caps)) as (m & Hm & Hcap).
  exists m. split; [|exact Hcap].
  unfold exec. apply exec_from_here.
  unfold value_pattern, named_pattern, dashes.
  cbn [rmatch Nat.eqb ngroups Nat.add].
  rewrite (rmatch_lit_app "--"). rewrite ngroups_lit. cbn [Nat.add String.length].
  apply rmatch_alts_pick; [exact Hin | |].
  - replace (2 + String.length a - 2) with (String.length a) by lia.
    rewrite firstn_str_app. rewrite ngroups_alts. exact Hm.
  - intros x s'' Hx Hs Hne'. rewrite ngroups_alts.
    destruct s'' as [|c t]; [reflexivity|].
    cbn [rmatch]. unfold one_char at 1.
    destruct (Ascii.eqb_spec "=" c) as [<-|_]; [|reflexivity].
    elim Hne'. symmetry.
    apply (name_before_char "=" a x value t); [now apply Heq | now apply Heq | exact Hs].
Qed.

(** A token [--alias] matches [/^--(a1|...|an)$/]; the first group
    captures the alias and there is no second group. *)
Lemma exec_flag_pattern (aliases : list string) (a : string) :
  In a aliases ->
  exec (flag_pattern aliases) ("--" ++ a)
  = Some (MatchResult 0 (2 + String.length a) (set_cap 0 (Some a) no_caps)).
Proof.
  intros Hin. unfold exec. apply exec_from_here.
  unfold flag_pattern, named_pattern, dashes.
  cbn [rmatch Nat.eqb ngroups Nat.add].
  rewrite (rmatch_lit_app "--"). rewrite ngroups_lit. cbn [Nat.add String.length].
  pose proof (rmatch_alts_pick aliases a "" Hin 1 2 no_caps
                (fun pos' s' cs' =>
                   match s' with
                   | EmptyString =>
                       final_cont 0 pos' s'
                         (set_cap 0 (Some (firstn_str (pos' - 2) a)) cs')
                   | String _ _ => None
                   end)
                (MatchResult 0 (2 + String.length a) (set_cap 0 (Some a) no_caps)))
    as H.
  rewrite str_app_nil_r in H. apply H.
  - unfold final_cont.
    replace (2 + String.length a - 2) with (String.length a) by lia.
    now rewrite firstn_str_all.
  - intros x s'' Hx Hs Hne. destruct s'' as [|c t]; [|reflexivity].
    elim Hne. rewrite str_app_nil_r in Hs. now symmetry.
Qed.

Lemma parse_arguments_named before d after prefix aliases rest arg m more argValues :
  plain_prefix prefix ->
  well_named aliases ->
  payload d = PRegExp (named_pattern prefix aliases rest) ->
  existsb (fun d' => matches d' arg) before = false ->
  arg <> "" ->
  exec (named_pattern prefix aliases rest) arg = Some m ->
  parse_arguments (before ++ d :: after) (arg :: more) argValues
  = parse_arguments (before ++ d :: after) more
      (put argValues (hd "" aliases) (argument_value m)).
Proof.
  intros Hpre Hw Hd Hno Hne Hm. cbn [parse_arguments].
  destruct (String.eqb_spec arg "") as [|_]; [congruence|].
  rewrite (match_argument_skip before (d :: after) arg _ Hno).
  now rewrite (match_argument_named d after prefix aliases rest arg m _ Hpre Hw Hd Hm).
Qed.

(** X1. [--alias=value], for a descriptor [/^--(a1|...|an)=(.+)$/] whose
    aliases are plain names without [=], and a value that is not empty
    and has no line terminator, in a dictionary written in ASCII and on a
    command line of ASCII tokens: the token is accepted for any alias,
    and the value is assigned, as a string, to the property named by the
    first alias (an assignment that creates nothing when that name is
    [__proto__]). *)
Theorem getArguments_reads_value :
  forall before d after aliases a value more argValues,
    well_named aliases ->
    (forall x, In x aliases -> includes "=" x = false) ->
    payload d = PRegExp (value_pattern aliases (Plus Dot)) ->
    forallb ascii_payload (before ++ d :: after) = true ->
    In a aliases ->
    value <> "" ->
    forallb ascii_text (("--" ++ a ++ "=" ++ value) :: more) = true ->
    all_chars (fun c => negb (is_line_terminator c)) value = true ->
    existsb (fun d' => matches d' ("--" ++ a ++ "=" ++ value)) before = false ->
    (forall defaults,
       getArguments (before ++ d :: after) defaults (("--" ++ a ++ "=" ++ value) :: more)
       = parse_arguments (before ++ d :: after) more
           (put (assign [] defaults) (hd "" aliases) (VStr value)))
    /\ parse_arguments (before ++ d :: after) (("--" ++ a ++ "=" ++ value) :: more)
         argValues
       = parse_arguments (before ++ d :: after) more
           (put argValues (hd "" aliases) (VStr value))
    /\ getArguments [d] [] ["--" ++ a ++ "=" ++ value]
       = (Normal (Some (put [] (hd "" aliases) (VStr value))), []).
Proof.
  intros before d after aliases a value more argValues
         Hw Heq Hd _ Hin Hne _ Hv Hno.
  destruct (exec_value_pattern aliases a value Hin Heq Hne Hv) as (m & Hm & Hcap).
  assert (Hval : argument_value m = VStr value).
  { unfold argument_value. rewrite Hcap.
    now rewrite (proj2 (String.eqb_neq value "") Hne). }
  assert (Hstep : forall before' after' more' av,
            existsb (fun d' => matches d' ("--" ++ a ++ "=" ++ value)) before' = false ->
            parse_arguments (before' ++ d :: after')
              (("--" ++ a ++ "=" ++ value) :: more') av
            = parse_arguments (before' ++ d :: after') more'
                (put av (hd "" aliases) (VStr value))).
  { intros before' after' more' av Hno'. rewrite <- Hval.
    apply (parse_arguments_named before' d after' dashes aliases
             (Seq (Chr "=") (Seq (Group (Plus Dot)) Eol)));
      [reflexivity | exact Hw | exact Hd | exact Hno' | discriminate | exact Hm]. }
  split; [|split].
  - intros defaults. unfold getArguments. now apply Hstep.
  - now apply Hstep.
  - unfold getArguments. now rewrite (Hstep [] [] [] _ eq_refl).
Qed.

Lemma getArguments_reads_value_witness :
  getArguments [output_dir_descriptor] [] ["--od=/tmp/out"]
  = (Normal (Some [("output_dir", VStr "/tmp/out")]), []).
Proof.
  refine (proj2 (proj2 (getArguments_reads_value
                          [] output_dir_descriptor [] ["output_dir"; "od"] "od"
                          "/tmp/out" [] [] _ _ eq_refl eq_refl _ _ eq_refl eq_refl
                          eq_refl))).
  - split; [discriminate | reflexivity].
  - intros x [<-|[<-|[]]]; reflexivity.
  - right; left; reflexivity.
  - discriminate.
Defined.

(** X2. [--alias], for a flag [/^--(a1|...|an)$/] whose aliases are
    plain names, in a dictionary written in ASCII and on a command line
    of ASCII tokens: the token is accepted for any alias, and [true] is
    assigned to the property named by the first alias (an assignment that
    creates nothing when that name is [__proto__]). *)
Theorem getArguments_reads_flag :
  forall before d after aliases a more argValues,
    well_named aliases ->
    payload d = PRegExp (flag_pattern aliases) ->
    forallb ascii_payload (before ++ d :: after) = true ->
    In a aliases ->
    forallb ascii_text (("--" ++ a) :: more) = true ->
    existsb (fun d' => matches d' ("--" ++ a)) before = false ->
    (forall defaults,
       getArguments (before ++ d :: after) defaults (("--" ++ a) :: more)
       = parse_arguments (before ++ d :: after) more
           (put (assign [] defaults) (hd "" aliases) (VBool true)))
    /\ parse_arguments (before ++ d :: after) (("--" ++ a) :: more) argValues
       = parse_arguments (before ++ d :: after) more
           (put argValues (hd "" aliases) (VBool true))
    /\ getArguments [d] [] ["--" ++ a]
       = (Normal (Some (put [] (hd "" aliases) (VBool true))), []).
Proof.
  intros before d after aliases a more argValues Hw Hd _ Hin _ Hno.
  pose proof (exec_flag_pattern aliases a Hin) as Hm.
  assert (Hstep : forall before' after' more' av,
            existsb (fun d' => matches d' ("--" ++ a)) before' = false ->
            parse_arguments (before' ++ d :: after') (("--" ++ a) :: more') av
            = parse_arguments (before' ++ d :: after') more'
                (put av (hd "" aliases) (VBool true))).
  { intros before' after' more' av Hno'.
    now rewrite (parse_arguments_named before' d after' dashes aliases Eol _ _ more' av
                   eq_refl Hw Hd Hno' ltac:(discriminate) Hm). }
  split; [|split].
  - intros defaults. unfold getArguments. now apply Hstep.
  - now apply Hstep.
  - unfold getArguments. now rewrite (Hstep [] [] [] _ eq_refl).
Qed.

Lemma getArguments_reads_flag_witness :
  getArguments [help_descriptor] [] ["--h"]
  = (Normal (Some [("help", VBool true)]), []).
Proof.
  refine (proj2 (proj2 (getArguments_reads_flag
                          [] help_descriptor [] ["help"; "h"] "h" [] []
                          _ eq_refl eq_refl _ eq_refl eq_refl))).
  - split; [discriminate | reflexivity].
  - right; left; reflexivity.
Defined.

(** *** A string payload *)

Lemma skip_non_word_length (w : string) :
  String.length (skip_non_word w) <= String.length w.
Proof.
  induction w as [|a w IH]; [reflexivity|]. cbn [skip_non_word].
  destruct (is_word_char a); cbn [String.length]; lia.
Qed.

Lemma skipn_str_skip_non_word (w : string) :
  skipn_str (String.length w - String.length (skip_non_word w)) w = skip_non_word w.
Proof.
  induction w as [|a w IH]; [reflexivity|]. cbn [skip_non_word].
  destruct (is_word_char a).
  - now rewrite Nat.sub_diag.
  - pose proof (skip_non_word_length w).
    cbn [String.length].
    replace (S (String.length w) - String.length (skip_non_word w))
      with (S (String.length w - String.length (skip_non_word w))) by lia.
    exact IH.
Qed.

Lemma rmatch_non_word_cons {R : Type} (a : ascii) gi pos s cs (k : @cont R) :
  rmatch NonWord gi pos (String a s) cs k
  = if is_word_char a then None else k (S pos) s cs.
Proof. cbn. now destruct (is_word_char a). Qed.

(** A greedy [\W*] takes the characters up to the first letter, digit or
    underscore. *)
Lemma repeat_non_word (w : string) :
  forall fuel gi n start pos cs,
    String.length w < fuel ->
    exists cs',
      repeat_matcher true (rmatch NonWord gi) (clear_caps gi n) fuel pos w cs
        (final_cont start)
      = Some (MatchResult start
                (pos + (String.length w - String.length (skip_non_word w))) cs').
Proof.
  induction w as [|a w IH]; intros fuel gi n start pos cs Hf.
  - destruct fuel as [|fuel]; [cbn in Hf; lia|].
    rewrite repeat_matcher_greedy_step. cbn. rewrite Nat.add_0_r. now exists cs.
  - destruct fuel as [|fuel]; [cbn in Hf; lia|].
    rewrite repeat_matcher_greedy_step, rmatch_non_word_cons.
    cbn [skip_non_word].
    destruct (is_word_char a).
    + rewrite Nat.sub_diag, Nat.add_0_r. now exists cs.
    + cbn [String.length].
      rewrite (proj2 (Nat.ltb_lt _ _) (Nat.lt_succ_diag_r _)).
      destruct (IH fuel gi n start (S pos) (clear_caps gi n cs)) as (cs' & E).
      * cbn [String.length] in Hf. lia.
      * rewrite E. exists cs'. do 2 f_equal.
        pose proof (skip_non_word_length w). lia.
Qed.

Lemma replace_leading_non_word (arg : string) :
  replace_first (Seq Bol (Star true NonWord)) "" arg = skip_non_word arg.
Proof.
  unfold replace_first, exec.
  destruct (repeat_non_word arg (S (String.length arg)) 0 0 0 0 no_caps) as (cs' & E);
    [lia|].
  rewrite (exec_from_here _ _ _ _ (MatchResult 0
             (0 + (String.length arg - String.length (skip_non_word arg))) cs')).
  - cbn [m_index m_end firstn_str String.append Nat.add].
    apply skipn_str_skip_non_word.
  - cbn [rmatch Nat.eqb ngroups]. exact E.
Qed.

(** X3. A token equal to a string payload, in a dictionary written in
    ASCII and on a command line of ASCII tokens: [true] is assigned to
    the property named by the payload without the characters other than
    letters, digits and [_] it begins with (an assignment that creates
    nothing when that name is [__proto__]). *)
Theorem getArguments_reads_literal :
  forall before d after p more argValues,
    payload d = PString p ->
    p <> "" ->
    forallb ascii_payload (before ++ d :: after) = true ->
    forallb ascii_text (p :: more) = true ->
    existsb (fun d' => matches d' p) before = false ->
    (forall defaults,
       getArguments (before ++ d :: after) defaults (p :: more)
       = parse_arguments (before ++ d :: after) more
           (put (assign [] defaults) (skip_non_word p) (VBool true)))
    /\ parse_arguments (before ++ d :: after) (p :: more) argValues
       = parse_arguments (before ++ d :: after) more
           (put argValues (skip_non_word p) (VBool true))
    /\ getArguments [d] [] [p]
       = (Normal (Some (put [] (skip_non_word p) (VBool true))), []).
Proof.
  intros before d after p more argValues Hd Hne _ _ Hno.
  assert (Hstep : forall before' after' more' av,
            existsb (fun d' => matches d' p) before' = false ->
            parse_arguments (before' ++ d :: after') (p :: more') av
            = parse_arguments (before' ++ d :: after') more'
                (put av (skip_non_word p) (VBool true))).
  { intros before' after' more' av Hno'. cbn [parse_arguments].
    rewrite (proj2 (String.eqb_neq p "") Hne).
    rewrite (match_argument_skip before' (d :: after') p _ Hno').
    cbn [match_argument]. rewrite Hd, String.eqb_refl.
    now rewrite replace_leading_non_word. }
  split; [|split].
  - intros defaults. unfold getArguments. now apply Hstep.
  - now apply Hstep.
  - unfold getArguments. now rewrite (Hstep [] [] [] _ eq_refl).
Qed.

Lemma getArguments_reads_literal_witness :
  getArguments
    [Descriptor "Dry Run" (PString "--isDryRun") "A simple flag argument" false]
    [] ["--isDryRun"]
  = (Normal (Some [("isDryRun", VBool true)]), []).
Proof.
  refine (proj2 (proj2 (getArguments_reads_literal
                          [] (Descriptor "Dry Run" (PString "--isDryRun")
                                "A simple flag argument" false)
                          [] "--isDryRun" [] [] eq_refl _ eq_refl eq_refl
                          eq_refl))).
  discriminate.
Defined.

(** *** What the parser stores *)

Lemma argument_value_cases (m : match_result) :
  argument_value m = VBool true
  \/ exists s, s <> "" /\ argument_value m = VStr s.
Proof.
  unfold argument_value. destruct (m_group m 2) as [s|]; [|now left].
  destruct (String.eqb_spec s "") as [->|Hne]; [now left|].
  right. now exists s.
Qed.

Lemma put_cases (o : obj) (k : string) (v : value) :
  put o k v = o \/ put o k v = set o k v.
Proof.
  unfold put. destruct ((k =? "__proto__") && negb (has_own o k)); [now left | now right].
Qed.

Lemma match_argument_stores dictionary arg argValues argValues' :
  match_argument dictionary arg argValues = Normal (Some argValues') ->
  exists key v,
    argValues' = put argValues key v
    /\ (v = VBool true \/ exists s, s <> "" /\ v = VStr s).
Proof.
  induction dictionary as [|d rest IH]; [discriminate|].
  cbn [match_argument]. destruct (payload d) as [p | r | v].
  - destruct (arg =? p); [|exact IH].
    intros [= <-]. do 2 eexists. split; [reflexivity | now left].
  - destruct (exec r arg) as [m|]; [|exact IH].
    destruct (first_group_text (source r)) as [argNames|e]; [|discriminate].
    intros [= <-]. do 2 eexists. split; [reflexivity | apply argument_value_cases].
  - exact IH.
Qed.

Lemma parse_arguments_stores dictionary args :
  forall argValues settings evs,
    parse_arguments dictionary args argValues = (Normal (Some settings), evs) ->
    evs = []
    /\ forall k,
         get settings k = get argValues k
         \/ get settings k = Some (VBool true)
         \/ exists s, s <> "" /\ get settings k = Some (VStr s).
Proof.
  induction args as [|arg rest IH]; intros argValues settings evs H.
  - cbn in H. injection H as <- <-. split; [reflexivity | now left].
  - cbn [parse_arguments] in H. destruct (arg =? ""); [now apply IH|].
    destruct (match_argument dictionary arg argValues) as [[av'|]|e] eqn:E;
      try discriminate.
    destruct (match_argument_stores _ _ _ _ E) as (key & v & -> & Hv).
    destruct (IH _ _ _ H) as [Hevs Hget]. split; [exact Hevs|].
    intros k. destruct (Hget k) as [Hk|Hk]; [|now right].
    destruct (put_cases argValues key v) as [Hput|Hput]; rewrite Hput in Hk;
      [now left|].
    destruct (String.eqb_spec key k) as [->|Hne].
    + rewrite get_set_same in Hk. right.
      destruct Hv as [->|(s & Hs & ->)]; [now left | right; now exists s].
    + left. now rewrite Hk, get_set_other.
Qed.

(** X4. What the parser adds to the defaults is [true] or a string that
    is not empty. *)
Theorem getArguments_stores_true_or_text :
  forall dictionary defaults args settings evs,
    getArguments dictionary defaults args = (Normal (Some settings), evs) ->
    evs = []
    /\ forall k,
         get settings k = get defaults k
         \/ get settings k = Some (VBool true)
         \/ exists s, s <> "" /\ get settings k = Some (VStr s).
Proof.
  intros dictionary defaults args settings evs H. unfold getArguments in H.
  destruct (parse_arguments_stores _ _ _ _ _ H) as [Hevs Hget].
  split; [exact Hevs|]. intros k. specialize (Hget k).
  rewrite get_assign in Hget. cbn [get] in Hget.
  destruct (get defaults k); exact Hget.
Qed.

Lemma getArguments_stores_true_or_text_witness :
  getArguments sample_dictionary [("depth", VNum "1")] ["--v"; "--od=/tmp"]
  = (Normal (Some [("depth", VNum "1"); ("version", VBool true);
                   ("output_dir", VStr "/tmp")]), [])
  /\ forall k,
       get [("depth", VNum "1"); ("version", VBool true); ("output_dir", VStr "/tmp")] k
       = get [("depth", VNum "1")] k
       \/ get [("depth", VNum "1"); ("version", VBool true);
               ("output_dir", VStr "/tmp")] k = Some (VBool true)
       \/ exists s, s <> ""
            /\ get [("depth", VNum "1"); ("version", VBool true);
                    ("output_dir", VStr "/tmp")] k = Some (VStr s).
Proof.
  split; [reflexivity|].
  exact (proj2 (getArguments_stores_true_or_text sample_dictionary
                  [("depth", VNum "1")] ["--v"; "--od=/tmp"]
                  [("depth", VNum "1"); ("version", VBool true);
                   ("output_dir", VStr "/tmp")] [] eq_refl)).
Defined.

(** *** A command line in two parts *)

Lemma parse_arguments_app dictionary args1 :
  forall args2 argValues,
    parse_arguments dictionary (args1 ++ args2) argValues
    = match parse_arguments dictionary args1 argValues with
      | (Normal (Some argValues'), _) => parse_arguments dictionary args2 argValues'
      | failed => failed
      end.
Proof.
  induction args1 as [|arg rest IH]; intros args2 argValues; [reflexivity|].
  cbn [app parse_arguments]. destruct (arg =? ""); [apply IH|].
  destruct (match_argument dictionary arg argValues) as [[av'|]|e];
    [apply IH | reflexivity | reflexivity].
Qed.

Lemma set_keys (o : obj) (k : string) (v : value) :
  keys (set o k v) = if existsb (String.eqb k) (keys o) then keys o else (keys o ++ [k])%list.
Proof.
  induction o as [|[k' v'] o IH]; [reflexivity|]. cbn [set keys map fst existsb].
  rewrite (String.eqb_sym k k').
  destruct (k' =? k) eqn:E; [reflexivity|]. cbn [orb map fst].
  fold (keys (set o k v)). fold (keys o). rewrite IH.
  now destruct (existsb (String.eqb k) (keys o)).
Qed.

Lemma existsb_eqb_in (k : string) (l : list string) :
  existsb (String.eqb k) l = true <-> In k l.
Proof.
  rewrite existsb_exists. split.
  - intros (x & Hin & E). apply String.eqb_eq in E. now subst.
  - intros Hin. exists k. split; [exact Hin | apply String.eqb_refl].
Qed.

Lemma set_nodup (o : obj) (k : string) (v : value) :
  NoDup (keys o) -> NoDup (keys (set o k v)).
Proof.
  intros H. rewrite set_keys. destruct (existsb (String.eqb k) (keys o)) eqn:E;
    [exact H|].
  apply NoDup_app; [exact H | repeat constructor; intros [] |].
  intros x Hx [<-|[]]. apply existsb_eqb_in in Hx. congruence.
Qed.

Lemma fold_set_nodup (l : obj) :
  forall target, NoDup (keys target) ->
    NoDup (keys (fold_left (fun t kv => set t (fst kv) (snd kv)) l target)).
Proof.
  induction l as [|[k v] l IH]; intros target H; [exact H|].
  cbn [fold_left fst snd]. apply IH. now apply set_nodup.
Qed.

Lemma set_fresh (o : obj) (k : string) (v : value) :
  ~ In k (keys o) -> set o k v = (o ++ [(k, v)])%list.
Proof.
  induction o as [|[k' v'] o IH]; intros Hk; [reflexivity|]. cbn [set app].
  destruct (String.eqb_spec k' k) as [->|Hne].
  - elim Hk. now left.
  - rewrite IH; [reflexivity|]. intros Hin. apply Hk. now right.
Qed.

Lemma own_entries_from_nodup (o : obj) :
  forall seen,
    NoDup (keys o) -> (forall k, In k seen -> ~ In k (keys o)) ->
    own_entries_from seen o = o.
Proof.
  induction o as [|[k v] o IH]; intros seen Hnd Hseen; [reflexivity|].
  cbn [own_entries_from]. cbn [keys map fst] in Hnd. inversion Hnd as [|? ? Hk Hnd']; subst.
  destruct (existsb (String.eqb k) seen) eqn:E.
  - apply existsb_eqb_in in E. elim (Hseen k E). now left.
  - f_equal. apply IH; [exact Hnd'|]. intros k' [<-|Hin]; [exact Hk|].
    intros Hin'. apply (Hseen k' Hin). now right.
Qed.

Lemma fold_set_fresh (l : obj) :
  forall target,
    NoDup (keys l) -> (forall k, In k (keys target) -> ~ In k (keys l)) ->
    fold_left (fun t kv => set t (fst kv) (snd kv)) l target = (target ++ l)%list.
Proof.
  induction l as [|[k v] l IH]; intros target Hnd Hdisj.
  - now rewrite app_nil_r.
  - cbn [fold_left fst snd]. cbn [keys map fst] in Hnd.
    inversion Hnd as [|? ? Hk Hnd']; subst.
    rewrite set_fresh by (intros Hin; apply (Hdisj k Hin); now left).
    rewrite IH; [now rewrite <- app_assoc | exact Hnd' |].
    intros k' Hin Hl. unfold keys in Hin. rewrite map_app in Hin.
    apply in_app_iff in Hin. destruct Hin as [Hin|[<-|[]]].
    + apply (Hdisj k' Hin). now right.
    + exact (Hk Hl).
Qed.

(** Copying an object that was built by assignments gives it back. *)
Lemma assign_nodup (o : obj) : NoDup (keys o) -> assign [] o = o.
Proof.
  intros H. unfold assign, own_entries.
  rewrite own_entries_from_nodup by (auto; intros k []).
  now rewrite fold_set_fresh by (auto; intros k []).
Qed.

Lemma assign_keys_nodup (o : obj) : NoDup (keys (assign [] o)).
Proof. unfold assign. apply fold_set_nodup. constructor. Qed.

Lemma match_argument_nodup dictionary arg argValues argValues' :
  match_argument dictionary arg argValues = Normal (Some argValues') ->
  NoDup (keys argValues) -> NoDup (keys argValues').
Proof.
  induction dictionary as [|d rest IH]; [discriminate|].
  cbn [match_argument]. destruct (payload d) as [p | r | v].
  - destruct (arg =? p); [|exact IH]. intros [= <-] Hnd.
    destruct (put_cases argValues
                (replace_first (Seq Bol (Star true NonWord)) "" arg) (VBool true))
      as [->| ->]; [exact Hnd | now apply set_nodup].
  - destruct (exec r arg) as [m|]; [|exact IH].
    destruct (first_group_text (source r)) as [argNames|e]; [|discriminate].
    intros [= <-] Hnd.
    match goal with
    | |- NoDup (keys (put ?o ?k ?v)) =>
        destruct (put_cases o k v) as [->| ->]; [exact Hnd | now apply set_nodup]
    end.
  - exact IH.
Qed.

Lemma parse_arguments_nodup dictionary args :
  forall argValues settings evs,
    parse_arguments dictionary args argValues = (Normal (Some settings), evs) ->
    NoDup (keys argValues) -> NoDup (keys settings).
Proof.
  induction args as [|arg rest IH]; intros argValues settings evs H Hnd.
  - cbn in H. now injection H as <- <-.
  - cbn [parse_arguments] in H. destruct (arg =? ""); [now apply (IH _ _ _ H)|].
    destruct (match_argument dictionary arg argValues) as [[av'|]|e] eqn:E;
      try discriminate.
    apply (IH _ _ _ H). now apply (match_argument_nodup _ _ _ _ E).
Qed.

(** X5. Parsing is a fold over the tokens, from left to right. *)
Theorem getArguments_in_two_parts :
  forall dictionary defaults args1 args2,
    getArguments dictionary defaults (args1 ++ args2)
    = match getArguments dictionary defaults args1 with
      | (Normal (Some settings), _) => getArguments dictionary settings args2
      | failed => failed
      end.
Proof.
  intros dictionary defaults args1 args2. unfold getArguments.
  rewrite parse_arguments_app.
  destruct (parse_arguments dictionary args1 (assign [] defaults))
    as [[[settings|]|e] evs] eqn:E; try reflexivity.
  rewrite assign_nodup; [reflexivity|].
  apply (parse_arguments_nodup _ _ _ _ _ E), assign_keys_nodup.
Qed.

(** ** utils.js: [deepMergeData] *)

Lemma get_put_other (result : obj) (key k : string) (v : value) :
  key <> k -> get (put result key v) k = get result k.
Proof.
  intros Hne. unfold put.
  destruct ((key =? "__proto__") && negb (has_own result key)); [reflexivity|].
  now apply get_set_other.
Qed.

Lemma get_put_same (result : obj) (key : string) (v : value) :
  key <> "__proto__" -> get (put result key v) key = Some v.
Proof.
  intros Hne. unfold put.
  rewrite (proj2 (String.eqb_neq key "__proto__") Hne). cbn [andb].
  apply get_set_same.
Qed.

Lemma get_put_proto (result : obj) (key : string) (v : value) :
  get result "__proto__" = None -> get (put result key v) "__proto__" = None.
Proof.
  intros Hnone. unfold put, has_own.
  destruct (String.eqb_spec key "__proto__") as [->|Hne]; cbn [andb].
  - rewrite Hnone. exact Hnone.
  - now rewrite get_set_other.
Qed.

Lemma merge_entries_get rec setA (entries : obj) :
  forall seen result r,
    merge_entries rec setA seen entries result = Normal r ->
    forall k, k <> "__proto__" ->
      if existsb (String.eqb k) seen then get r k = get result k
      else
        match get entries k with
        | None => get r k = get result k
        | Some v =>
            match v, object_at setA k with
            | VObj _, Some a =>
                exists merged, rec v a = Normal merged /\ get r k = Some (VObj merged)
            | _, _ => get r k = Some v
            end
        end.
Proof.
  induction entries as [|[key v] rest IH]; intros seen result r H k Hk.
  - cbn in H. injection H as <-. now destruct (existsb (String.eqb k) seen).
  - cbn [merge_entries] in H. cbn [get].
    destruct (existsb (String.eqb key) seen) eqn:Hseen.
    + specialize (IH seen result r H k Hk).
      destruct (existsb (String.eqb k) seen) eqn:Hkseen; [exact IH|].
      destruct (String.eqb_spec key k) as [->|_]; [congruence | exact IH].
    + assert (Hstep : forall x,
                merge_entries rec setA (key :: seen) rest (put result key x) = Normal r ->
                (if existsb (String.eqb k) seen then get r k = get result k
                 else if key =? k then get r k = Some x
                      else match get rest k with
                           | None => get r k = get result k
                           | Some v' =>
                               match v', object_at setA k with
                               | VObj _, Some a =>
                                   exists merged,
                                     rec v' a = Normal merged /\ get r k = Some (VObj merged)
                               | _, _ => get r k = Some v'
                               end
                           end)).
      { intros x Hx. specialize (IH (key :: seen) (put result key x) r Hx k Hk).
        cbn [existsb] in IH.
        destruct (existsb (String.eqb k) seen) eqn:Hkseen.
        - rewrite orb_true_r in IH. rewrite IH. apply get_put_other.
          intros ->. congruence.
        - rewrite orb_false_r in IH.
          destruct (String.eqb_spec key k) as [->|Hne].
          + rewrite String.eqb_refl in IH. rewrite IH. now apply get_put_same.
          + rewrite (proj2 (String.eqb_neq k key) (not_eq_sym Hne)) in IH.
            destruct (get rest k) as [v'|]; [exact IH|].
            rewrite IH. now apply get_put_other. }
      destruct v as [| b | n | s | items | o];
        try (specialize (Hstep _ H);
             destruct (existsb (String.eqb k) seen); [exact Hstep|];
             destruct (String.eqb_spec key k) as [->|_]; exact Hstep).
      destruct (object_at setA key) as [a|] eqn:Ha.
      * destruct (rec (VObj o) a) as [merged|e] eqn:Hrec; [|discriminate].
        specialize (Hstep _ H).
        destruct (existsb (String.eqb k) seen); [exact Hstep|].
        destruct (String.eqb_spec key k) as [->|_]; [|exact Hstep].
        rewrite Ha. now exists merged.
      * specialize (Hstep _ H).
        destruct (existsb (String.eqb k) seen); [exact Hstep|].
        destruct (String.eqb_spec key k) as [->|_]; [|exact Hstep].
        now rewrite Ha.
Qed.

Lemma merge_entries_proto rec setA (entries : obj) :
  forall seen result r,
    merge_entries rec setA seen entries result = Normal r ->
    get result "__proto__" = None -> get r "__proto__" = None.
Proof.
  induction entries as [|[key v] rest IH]; intros seen result r H Hnone.
  - cbn in H. now injection H as <-.
  - cbn [merge_entries] in H.
    destruct (existsb (String.eqb key) seen); [now apply (IH _ _ _ H)|].
    destruct v as [| b | n | s | items | o];
      try (apply (IH _ _ _ H); now apply get_put_proto).
    destruct (object_at setA key) as [a|].
    + destruct (rec (VObj o) a) as [merged|e]; [|discriminate].
      apply (IH _ _ _ H). now apply get_put_proto.
    + apply (IH _ _ _ H). now apply get_put_proto.
Qed.

(** X6. Reading the result of [deepMergeData]. A key [setB] does not
    have keeps what [setA] has for it; a key both have an object for holds
    the deep merge of the two objects; for any other key of [setB] the
    value of [setB] is taken, so an array or a primitive replaces what
    [setA] has. The key [__proto__] is set aside: the result has no own
    property of that name unless [setA] has one. *)
Theorem deepMergeData_lookup (setA setB result : obj) :
  deepMergeData setA setB = Normal result ->
  (forall key, key <> "__proto__" ->
     match get setB key with
     | None => get result key = get setA key
     | Some (VObj b) =>
         match get setA key with
         | Some (VObj a) =>
             exists merged,
               deepMergeData a b = Normal merged
               /\ get result key = Some (VObj merged)
         | _ => get result key = Some (VObj b)
         end
     | Some v => get result key = Some v
     end)
  /\ (get setA "__proto__" = None -> get result "__proto__" = None).
Proof.
  unfold deepMergeData. cbn [deep_merge].
  destruct (has_own setB "hasOwnProperty"); [discriminate|]. intros H.
  split.
  - intros key Hkey.
    pose proof (merge_entries_get _ _ _ _ _ _ H key Hkey) as G.
    cbn [existsb spread object_at] in G. rewrite get_assign in G. cbn [get] in G.
    destruct (get setB key) as [v|].
    + destruct v as [| b | n | s | items | o]; try exact G.
      destruct (get setA key) as [[| b | n | s | items | a]|]; try exact G.
      rewrite (proj2 (String.eqb_neq key "__proto__") Hkey) in G. exact G.
    + destruct (get setA key); exact G.
  - intros Hnone. apply (merge_entries_proto _ _ _ _ _ _ H).
    cbn [spread]. rewrite get_assign. cbn [get]. now rewrite Hnone.
Qed.

Lemma deepMergeData_lookup_witness :
  exists result,
    deepMergeData
      [("intrinsicDefaults", VObj [("depth", VNum "1")]); ("useHelp", VBool false)]
      [("intrinsicDefaults", VObj [("mode", VStr "raw")]); ("useHelp", VBool true)]
    = Normal result
    /\ get result "useHelp" = Some (VBool true)
    /\ get result "intrinsicDefaults"
       = Some (VObj [("depth", VNum "1"); ("mode", VStr "raw")]).
Proof.
  eexists. split; [reflexivity|].
  pose proof (proj1 (deepMergeData_lookup
                [("intrinsicDefaults", VObj [("depth", VNum "1")]); ("useHelp", VBool false)]
                [("intrinsicDefaults", VObj [("mode", VStr "raw")]); ("useHelp", VBool true)]
                _ eq_refl)) as H.
  split.
  - apply (H "useHelp"). discriminate.
  - destruct (H "intrinsicDefaults") as (merged & Hm & Hg); [discriminate|].
    rewrite Hg. injection Hm as <-. reflexivity.
Defined.

Lemma merge_entries_returns (rec : value -> merge_target -> completion obj)
    setA (entries : obj) :
  (forall key v a, In (key, v) entries -> exists merged, rec v a = Normal merged) ->
  forall seen result, exists r, merge_entries rec setA seen entries result = Normal r.
Proof.
  induction entries as [|[key v] rest IH]; intros Hrec seen result.
  - now exists result.
  - cbn [merge_entries].
    assert (Hrest : forall key v a, In (key, v) rest ->
                      exists merged, rec v a = Normal merged)
      by (intros key' v' a Hin; apply (Hrec key'); now right).
    destruct (existsb (String.eqb key) seen); [now apply IH|].
    destruct v as [| b | n | s | items | o]; try now apply IH.
    destruct (object_at setA key) as [a|]; [|now apply IH].
    destruct (Hrec key (VObj o) a (or_introl eq_refl)) as (merged & ->).
    now apply IH.
Qed.

Lemma deep_merge_returns (setB : value) :
  method_free setB = true ->
  forall setA, exists r, deep_merge setB setA = Normal r.
Proof.
  induction setB as [| b | n | s | items _ | entries IH] using value_nested_ind;
    intros Hfree setA; try (eexists; reflexivity).
  cbn [deep_merge method_free] in *.
  apply andb_true_iff in Hfree. destruct Hfree as [Hown Hall].
  apply negb_true_iff in Hown. rewrite Hown.
  apply merge_entries_returns.
  clear Hown. induction IH as [|[key' v'] rest Hv _ IHrest]; intros key v a Hin.
  - destruct Hin.
  - apply andb_true_iff in Hall. destruct Hall as [Hfv Hrest].
    destruct Hin as [[= -> ->]|Hin].
    + now apply Hv.
    + now apply (IHrest Hrest key).
Qed.

Lemma merge_entries_throws rec setA (entries : obj) (key : string) a b e :
  object_at setA key = Some a ->
  rec (VObj b) a = Throw e ->
  forall seen result,
    existsb (String.eqb key) seen = false ->
    get entries key = Some (VObj b) ->
    exists e', merge_entries rec setA seen entries result = Throw e'.
Proof.
  intros Ha Hrec.
  induction entries as [|[key' v'] rest IH]; intros seen result Hseen Hget.
  - discriminate.
  - cbn [merge_entries]. cbn [get] in Hget.
    destruct (String.eqb_spec key' key) as [->|Hne].
    + injection Hget as ->. rewrite Hseen, Ha, Hrec. now exists e.
    + assert (Hseen' : existsb (String.eqb key) (key' :: seen) = false).
      { cbn [existsb]. rewrite Hseen, orb_false_r.
        now apply String.eqb_neq, not_eq_sym. }
      destruct (existsb (String.eqb key') seen); [now apply IH|].
      destruct v' as [| b' | n | s | items | o]; try now apply IH.
      destruct (object_at setA key') as [a'|]; [|now apply IH].
      destruct (rec (VObj o) a') as [merged|e']; [now apply IH | now exists e'].
Qed.

(** X7. [deepMergeData] returns when no object of [setB] has an own
    property [hasOwnProperty]. It throws a [TypeError] when [setB] has one,
    and when an object of [setB] that is merged with an object of [setA]
    has one. *)
Theorem deepMergeData_returns_unless_shadowed (setA setB : obj) :
  (method_free (VObj setB) = true -> exists result, deepMergeData setA setB = Normal result)
  /\ (has_own setB "hasOwnProperty" = true ->
      deepMergeData setA setB
      = Throw (TypeError "setB.hasOwnProperty is not a function"))
  /\ (forall key a b,
        get setA key = Some (VObj a) -> get setB key = Some (VObj b) ->
        has_own b "hasOwnProperty" = true ->
        exists e, deepMergeData setA setB = Throw e).
Proof.
  split; [|split].
  - intros Hfree. now apply deep_merge_returns.
  - intros Hown. unfold deepMergeData. cbn [deep_merge]. now rewrite Hown.
  - intros key a b Ha Hb Hown. unfold deepMergeData. cbn [deep_merge].
    destruct (has_own setB "hasOwnProperty"); [eexists; reflexivity|].
    apply (merge_entries_throws deep_merge (PlainObject setA) setB key
             (PlainObject a) b (TypeError "setB.hasOwnProperty is not a function")).
    + cbn [object_at]. now rewrite Ha.
    + cbn [deep_merge]. now rewrite Hown.
    + reflexivity.
    + exact Hb.
Qed.

Lemma deepMergeData_returns_unless_shadowed_witness :
  (exists result,
     deepMergeData [("useHelp", VBool false)]
       [("useHelp", VBool true); ("argsDictionary", VArr [])] = Normal result)
  /\ deepMergeData [] [("hasOwnProperty", VBool true)]
     = Throw (TypeError "setB.hasOwnProperty is not a function")
  /\ exists e,
       deepMergeData [("intrinsicDefaults", VObj [])]
         [("intrinsicDefaults", VObj [("hasOwnProperty", VNum "1")])] = Throw e.
Proof.
  split; [|split].
  - apply (proj1 (deepMergeData_returns_unless_shadowed _ _)). reflexivity.
  - apply (proj1 (proj2 (deepMergeData_returns_unless_shadowed _ _))). reflexivity.
  - apply (proj2 (proj2 (deepMergeData_returns_unless_shadowed _ _))
             "intrinsicDefaults" [] [("hasOwnProperty", VNum "1")]); reflexivity.
Defined.

(** ** utils.js: [generatePathSafeName] and [getAppInfo] *)

Lemma dash_not_alnum (a : ascii) : is_dash a = true -> is_alnum a = false.
Proof. unfold is_dash. intros H. apply Ascii.eqb_eq in H. now subst a. Qed.

Lemma dash_not_lower_alnum (a : ascii) : is_dash a = true -> is_lower_alnum a = false.
Proof. unfold is_dash. intros H. apply Ascii.eqb_eq in H. now subst a. Qed.

Lemma dash_not_upper (a : ascii) : is_dash a = true -> is_upper a = false.
Proof. unfold is_dash. intros H. apply Ascii.eqb_eq in H. now subst a. Qed.

Lemma lower_alnum_not_upper (a : ascii) : is_lower_alnum a = true -> is_upper a = false.
Proof.
  unfold is_lower_alnum, is_upper. intros H.
  apply orb_true_iff in H. apply andb_false_iff.
  destruct H as [H|H]; apply andb_true_iff in H; destruct H as [H1 H2];
    apply Nat.leb_le in H1, H2.
  - left. apply Nat.leb_gt. lia.
  - right. apply Nat.leb_gt. lia.
Qed.

Lemma lower_alnum_not_terminator (a : ascii) :
  low a = true -> is_line_terminator a = false.
Proof.
  unfold low. intros H. apply orb_true_iff in H. destruct H as [H|H].
  - unfold is_lower_alnum in H. unfold is_line_terminator.
    apply orb_true_iff in H. apply orb_false_iff.
    destruct H as [H|H]; apply andb_true_iff in H; destruct H as [H1 H2];
      apply Nat.leb_le in H1, H2; split; apply Nat.eqb_neq; lia.
  - unfold is_dash in H. apply Ascii.eqb_eq in H. now subst a.
Qed.

Lemma upper_lowered (a : ascii) :
  is_upper a = true -> is_lower_alnum (ascii_of_nat (nat_of_ascii a + 32)) = true.
Proof.
  unfold is_upper, is_lower_alnum. intros H.
  apply andb_true_iff in H. destruct H as [H1 H2]. apply Nat.leb_le in H1, H2.
  rewrite nat_ascii_embedding by lia.
  apply orb_true_iff. right. apply andb_true_iff. split; apply Nat.leb_le; lia.
Qed.

Lemma lower_char_low (a : ascii) : tame a = true -> low (lower_char a) = true.
Proof.
  unfold tame, low, lower_char, is_alnum. intros H.
  destruct (is_upper a) eqn:Hu.
  - now rewrite (upper_lowered a Hu).
  - now rewrite orb_false_r in H.
Qed.

Lemma upper_not_dash (a : ascii) : is_upper a = true -> is_dash a = false.
Proof.
  intros Hu. destruct (is_dash a) eqn:Hd; [|reflexivity].
  now rewrite (dash_not_upper a Hd) in Hu.
Qed.

Lemma lower_char_dash (a : ascii) : is_dash (lower_char a) = is_dash a.
Proof.
  unfold lower_char. destruct (is_upper a) eqn:Hu; [|reflexivity].
  rewrite (upper_not_dash a Hu).
  destruct (is_dash _) eqn:Hd; [|reflexivity].
  pose proof (dash_not_lower_alnum _ Hd) as H.
  rewrite (upper_lowered a Hu) in H. discriminate.
Qed.

Lemma lower_char_alnum (a : ascii) : is_alnum (lower_char a) = is_alnum a.
Proof.
  unfold lower_char, is_alnum. destruct (is_upper a) eqn:Hu; [|now rewrite Hu].
  now rewrite (upper_lowered a Hu), orb_true_r.
Qed.

Lemma low_tame (a : ascii) : low a = true -> tame a = true.
Proof.
  unfold low, tame, is_alnum. intros H. apply orb_true_iff in H.
  destruct H as [-> | ->]; [reflexivity | apply orb_true_r].
Qed.

Lemma low_not_dash (a : ascii) :
  low a = true -> is_dash a = false -> is_lower_alnum a = true.
Proof. unfold low. intros H Hd. now rewrite Hd, orb_false_r in H. Qed.

(** *** The four steps of the sanitization *)

Lemma dash_others_tame (s : string) : all_chars tame (dash_others s) = true.
Proof.
  induction s as [|a s IH]; [reflexivity|]. cbn [dash_others all_chars].
  rewrite IH, andb_true_r. unfold tame.
  destruct (is_alnum a) eqn:Ha; [now rewrite Ha | apply orb_true_r].
Qed.

Lemma dash_others_count (s : string) :
  count_chars is_alnum (dash_others s) = count_chars is_alnum s.
Proof.
  induction s as [|a s IH]; [reflexivity|]. cbn [dash_others count_chars].
  rewrite IH. destruct (is_alnum a) eqn:Ha; [now rewrite Ha | reflexivity].
Qed.

Lemma squeeze_dashes_cons (a : ascii) (s : string) :
  squeeze_dashes (String a s)
  = if is_dash a && first_is_dash s then squeeze_dashes s
    else String a (squeeze_dashes s).
Proof. destruct s as [|b s']; cbn; [now rewrite andb_false_r | reflexivity]. Qed.

Lemma has_double_dash_cons (a : ascii) (s : string) :
  has_double_dash (String a s)
  = (is_dash a && first_is_dash s) || has_double_dash s.
Proof. destruct s as [|b s']; cbn; [now rewrite andb_false_r | reflexivity]. Qed.

Lemma last_is_dash_cons (a : ascii) (s : string) :
  last_is_dash (String a s)
  = match s with EmptyString => is_dash a | _ => last_is_dash s end.
Proof. now destruct s. Qed.

Lemma squeeze_dashes_first (s : string) :
  first_is_dash (squeeze_dashes s) = first_is_dash s.
Proof.
  induction s as [|a s IH]; [reflexivity|]. rewrite squeeze_dashes_cons.
  destruct (is_dash a && first_is_dash s) eqn:E; [|reflexivity].
  apply andb_true_iff in E. destruct E as [Ha Hs].
  rewrite IH, Hs. cbn. now rewrite Ha.
Qed.

Lemma squeeze_dashes_all (p : ascii -> bool) (s : string) :
  all_chars p s = true -> all_chars p (squeeze_dashes s) = true.
Proof.
  induction s as [|a s IH]; [reflexivity|]. cbn [all_chars]. intros H.
  apply andb_true_iff in H. destruct H as [Ha Hs]. rewrite squeeze_dashes_cons.
  destruct (is_dash a && first_is_dash s); [now apply IH|].
  cbn [all_chars]. now rewrite Ha, IH.
Qed.

Lemma squeeze_dashes_count (s : string) :
  count_chars is_alnum (squeeze_dashes s) = count_chars is_alnum s.
Proof.
  induction s as [|a s IH]; [reflexivity|]. rewrite squeeze_dashes_cons.
  cbn [count_chars]. destruct (is_dash a && first_is_dash s) eqn:E.
  - apply andb_true_iff in E. destruct E as [Ha _].
    now rewrite (dash_not_alnum a Ha), IH.
  - cbn [count_chars]. now rewrite IH.
Qed.

Lemma squeeze_dashes_single (s : string) :
  has_double_dash (squeeze_dashes s) = false.
Proof.
  induction s as [|a s IH]; [reflexivity|]. rewrite squeeze_dashes_cons.
  destruct (is_dash a && first_is_dash s) eqn:E; [exact IH|].
  now rewrite has_double_dash_cons, squeeze_dashes_first, E, IH.
Qed.

Lemma drop_last_dash_cons (a : ascii) (s : string) :
  drop_last_dash (String a s)
  = match s with
    | EmptyString => if is_dash a then "" else String a ""
    | _ => String a (drop_last_dash s)
    end.
Proof. now destruct s. Qed.

Lemma drop_last_dash_all (p : ascii -> bool) (s : string) :
  all_chars p s = true -> all_chars p (drop_last_dash s) = true.
Proof.
  induction s as [|a s IH]; [reflexivity|]. cbn [all_chars]. intros H.
  apply andb_true_iff in H. destruct H as [Ha Hs]. rewrite drop_last_dash_cons.
  destruct s as [|b s'].
  - destruct (is_dash a); [reflexivity | cbn; now rewrite Ha].
  - cbn [all_chars]. now rewrite Ha, IH.
Qed.

Lemma drop_last_dash_count (s : string) :
  count_chars is_alnum (drop_last_dash s) = count_chars is_alnum s.
Proof.
  induction s as [|a s IH]; [reflexivity|]. rewrite drop_last_dash_cons.
  destruct s as [|b s'].
  - destruct (is_dash a) eqn:Ha; [|reflexivity].
    cbn. now rewrite (dash_not_alnum a Ha).
  - cbn [count_chars] in *. now rewrite IH.
Qed.

Lemma drop_last_dash_first (s : string) :
  first_is_dash s = false -> first_is_dash (drop_last_dash s) = false.
Proof.
  destruct s as [|a s]; [reflexivity|]. cbn [first_is_dash]. intros Ha.
  rewrite drop_last_dash_cons. destruct s; [now rewrite Ha | exact Ha].
Qed.

Lemma drop_last_dash_single (s : string) :
  has_double_dash s = false ->
  has_double_dash (drop_last_dash s) = false
  /\ last_is_dash (drop_last_dash s) = false.
Proof.
  induction s as [|a s IH]; [now split|]. rewrite has_double_dash_cons. intros H.
  apply orb_false_iff in H. destruct H as [Hab Hs]. specialize (IH Hs).
  rewrite drop_last_dash_cons. destruct s as [|b s'].
  - destruct (is_dash a) eqn:Ha; [now split | split; [reflexivity | exact Ha]].
  - rewrite has_double_dash_cons, last_is_dash_cons.
    destruct IH as [IH1 IH2]. rewrite IH1, orb_false_r.
    cbn [first_is_dash] in Hab.
    rewrite drop_last_dash_cons in *.
    destruct s' as [|c s''].
    + destruct (is_dash b) eqn:Hb.
      * rewrite andb_true_r in Hab. split; [now rewrite andb_false_r | exact Hab].
      * cbn [first_is_dash last_is_dash]. rewrite Hb. split; [apply andb_false_r | reflexivity].
    + cbn [first_is_dash]. split; [exact Hab | exact IH2].
Qed.

Lemma trim_dashes_all (p : ascii -> bool) (s : string) :
  all_chars p s = true -> all_chars p (trim_dashes s) = true.
Proof.
  intros H. unfold trim_dashes. apply drop_last_dash_all.
  destruct s as [|a s]; [reflexivity|].
  destruct (Ascii.eqb a "-"); [|exact H].
  cbn [all_chars] in H. apply andb_true_iff in H. tauto.
Qed.

Lemma trim_dashes_count (s : string) :
  count_chars is_alnum (trim_dashes s) = count_chars is_alnum s.
Proof.
  unfold trim_dashes. rewrite drop_last_dash_count.
  destruct s as [|a s]; [reflexivity|].
  destruct (Ascii.eqb a "-") eqn:Ha; [|reflexivity].
  cbn [count_chars]. now rewrite (dash_not_alnum a Ha).
Qed.

Lemma trim_dashes_ends (s : string) :
  has_double_dash s = false ->
  has_double_dash (trim_dashes s) = false
  /\ first_is_dash (trim_dashes s) = false
  /\ last_is_dash (trim_dashes s) = false.
Proof.
  intros H. unfold trim_dashes. destruct s as [|a s]; [now repeat split|].
  rewrite has_double_dash_cons in H. apply orb_false_iff in H.
  destruct H as [Hab Hs]. fold (is_dash a). destruct (is_dash a) eqn:Ha.
  - cbn [andb] in Hab. destruct (drop_last_dash_single s Hs) as [H1 H2].
    repeat split; [exact H1 | now apply drop_last_dash_first | exact H2].
  - assert (Hd : has_double_dash (String a s) = false)
      by now rewrite has_double_dash_cons, Ha, Hs.
    destruct (drop_last_dash_single _ Hd) as [H1 H2].
    repeat split; [exact H1 | now apply drop_last_dash_first | exact H2].
Qed.

Lemma toLowerCase_cons (a : ascii) (s : string) :
  toLowerCase (String a s) = String (lower_char a) (toLowerCase s).
Proof. reflexivity. Qed.

Lemma toLowerCase_low (s : string) :
  all_chars tame s = true -> all_chars low (toLowerCase s) = true.
Proof.
  induction s as [|a s IH]; [reflexivity|]. cbn [all_chars]. intros H.
  apply andb_true_iff in H. destruct H as [Ha Hs].
  rewrite toLowerCase_cons. cbn [all_chars].
  now rewrite (lower_char_low a Ha), IH.
Qed.

Lemma toLowerCase_count (s : string) :
  count_chars is_alnum (toLowerCase s) = count_chars is_alnum s.
Proof.
  induction s as [|a s IH]; [reflexivity|].
  rewrite toLowerCase_cons. cbn [count_chars]. now rewrite lower_char_alnum, IH.
Qed.

Lemma toLowerCase_first (s : string) :
  first_is_dash (toLowerCase s) = first_is_dash s.
Proof. destruct s as [|a s]; [reflexivity|]. apply lower_char_dash. Qed.

Lemma toLowerCase_last (s : string) :
  last_is_dash (toLowerCase s) = last_is_dash s.
Proof.
  induction s as [|a s IH]; [reflexivity|].
  rewrite toLowerCase_cons, !last_is_dash_cons.
  destruct s as [|b s']; [apply lower_char_dash | exact IH].
Qed.

Lemma toLowerCase_double (s : string) :
  has_double_dash (toLowerCase s) = has_double_dash s.
Proof.
  induction s as [|a s IH]; [reflexivity|].
  rewrite toLowerCase_cons, !has_double_dash_cons.
  now rewrite lower_char_dash, toLowerCase_first, IH.
Qed.

(** What the sanitized name is made of. *)
Lemma sanitize_shape (name : string) :
  all_chars low (sanitize name) = true
  /\ has_double_dash (sanitize name) = false
  /\ first_is_dash (sanitize name) = false
  /\ last_is_dash (sanitize name) = false
  /\ count_chars is_alnum (sanitize name) = count_chars is_alnum name.
Proof.
  unfold sanitize.
  destruct (trim_dashes_ends (squeeze_dashes (dash_others name))
              (squeeze_dashes_single _)) as (H1 & H2 & H3).
  repeat split.
  - apply toLowerCase_low, trim_dashes_all, squeeze_dashes_all, dash_others_tame.
  - now rewrite toLowerCase_double.
  - now rewrite toLowerCase_first.
  - now rewrite toLowerCase_last.
  - now rewrite toLowerCase_count, trim_dashes_count, squeeze_dashes_count,
      dash_others_count.
Qed.

(** *** The validity test on such a text *)

Lemma ends_alnum_cons (a : ascii) (s : string) :
  ends_alnum (String a s)
  = match s with
    | EmptyString => is_lower_alnum a
    | _ => negb (is_line_terminator a) && ends_alnum s
    end.
Proof. now destruct s. Qed.

Lemma ends_alnum_low (s : string) :
  all_chars low s = true -> last_is_dash s = false -> s <> "" ->
  ends_alnum s = true.
Proof.
  induction s as [|a s IH]; [congruence|]. cbn [all_chars]. intros H Hl _.
  apply andb_true_iff in H. destruct H as [Ha Hs].
  rewrite ends_alnum_cons. rewrite last_is_dash_cons in Hl.
  destruct s as [|b s'].
  - now apply low_not_dash.
  - rewrite (lower_alnum_not_terminator a Ha). cbn [negb andb].
    apply IH; [exact Hs | exact Hl | discriminate].
Qed.

Lemma count_alnum_low (s : string) :
  all_chars low s = true -> last_is_dash s = false -> s <> "" ->
  1 <= count_chars is_alnum s.
Proof.
  induction s as [|a s IH]; [congruence|]. cbn [all_chars]. intros H Hl _.
  apply andb_true_iff in H. destruct H as [Ha Hs].
  rewrite last_is_dash_cons in Hl. cbn [count_chars].
  destruct s as [|b s'].
  - unfold is_alnum. rewrite (low_not_dash a Ha Hl). cbn. lia.
  - assert (1 <= count_chars is_alnum (String b s'))
      by (apply IH; [exact Hs | exact Hl | discriminate]).
    lia.
Qed.

Lemma count_chars_length (p : ascii -> bool) (s : string) :
  count_chars p s <= String.length s.
Proof.
  induction s as [|a s IH]; [reflexivity|]. cbn [count_chars String.length].
  destruct (p a); lia.
Qed.

Lemma valid_name_shape (s : string) :
  all_chars low s = true ->
  first_is_dash s = false -> last_is_dash s = false ->
  valid_name s = (2 <=? count_chars is_alnum s)%nat.
Proof.
  intros H Hf Hl. destruct s as [|a s]; [reflexivity|].
  cbn [all_chars] in H. apply andb_true_iff in H. destruct H as [Ha Hs].
  cbn [first_is_dash] in Hf. rewrite last_is_dash_cons in Hl.
  cbn [valid_name count_chars]. unfold is_alnum at 1.
  rewrite (low_not_dash a Ha Hf). cbn [orb andb].
  destruct s as [|b s']; [reflexivity|].
  rewrite (ends_alnum_low _ Hs Hl) by discriminate.
  symmetry. apply Nat.leb_le.
  assert (1 <= count_chars is_alnum (String b s'))
    by (apply count_alnum_low; [exact Hs | exact Hl | discriminate]).
  lia.
Qed.

(** X8. The name is the sanitized text when the given name has two
    letters or digits at least, and the generated one otherwise. *)
Theorem generatePathSafeName_needs_two_alphanumerics (name uniqueId : string) :
  generatePathSafeName (Some (VStr name)) uniqueId
  = Normal (if (2 <=? count_chars is_alnum name)%nat then sanitize name
            else "app-" ++ uniqueId).
Proof.
  cbn [generatePathSafeName]. unfold path_safe_name.
  destruct (sanitize_shape name) as (H1 & _ & H3 & H4 & H5).
  now rewrite (valid_name_shape _ H1 H3 H4), H5.
Qed.

(** *** Names that are safe already *)

Lemma dash_others_low (s : string) : all_chars low s = true -> dash_others s = s.
Proof.
  induction s as [|a s IH]; [reflexivity|]. cbn [all_chars]. intros H.
  apply andb_true_iff in H. destruct H as [Ha Hs]. cbn [dash_others].
  rewrite (IH Hs). destruct (is_alnum a) eqn:E; [reflexivity|].
  apply low_tame in Ha. unfold tame in Ha. rewrite E in Ha. cbn [orb] in Ha.
  apply Ascii.eqb_eq in Ha. now subst a.
Qed.

Lemma squeeze_dashes_fixed (s : string) :
  has_double_dash s = false -> squeeze_dashes s = s.
Proof.
  induction s as [|a s IH]; [reflexivity|]. rewrite has_double_dash_cons.
  intros H. apply orb_false_iff in H. destruct H as [Hab Hs].
  now rewrite squeeze_dashes_cons, Hab, IH.
Qed.

Lemma drop_last_dash_fixed (s : string) :
  last_is_dash s = false -> drop_last_dash s = s.
Proof.
  induction s as [|a s IH]; [reflexivity|]. rewrite last_is_dash_cons.
  intros H. rewrite drop_last_dash_cons. destruct s as [|b s'].
  - now rewrite H.
  - now rewrite IH.
Qed.

Lemma trim_dashes_fixed (s : string) :
  first_is_dash s = false -> last_is_dash s = false -> trim_dashes s = s.
Proof.
  intros Hf Hl. unfold trim_dashes. destruct s as [|a s]; [reflexivity|].
  cbn [first_is_dash] in Hf. unfold is_dash in Hf. rewrite Hf.
  now apply drop_last_dash_fixed.
Qed.

Lemma toLowerCase_fixed (s : string) : all_chars low s = true -> toLowerCase s = s.
Proof.
  induction s as [|a s IH]; [reflexivity|]. cbn [all_chars]. intros H.
  apply andb_true_iff in H. destruct H as [Ha Hs]. cbn [toLowerCase].
  rewrite (IH Hs). unfold low in Ha. apply orb_true_iff in Ha.
  destruct Ha as [Ha|Ha];
    [now rewrite (lower_alnum_not_upper a Ha) | now rewrite (dash_not_upper a Ha)].
Qed.

Lemma ends_alnum_last (s : string) : ends_alnum s = true -> last_is_dash s = false.
Proof.
  induction s as [|a s IH]; [reflexivity|].
  rewrite ends_alnum_cons, last_is_dash_cons. destruct s as [|b s'].
  - intros Ha. destruct (is_dash a) eqn:Hd; [|reflexivity].
    now rewrite (dash_not_lower_alnum a Hd) in Ha.
  - intros H. apply andb_true_iff in H. now apply IH.
Qed.

Lemma path_safe_fixed (s uniqueId : string) :
  path_safe s = true -> path_safe_name s uniqueId = s.
Proof.
  unfold path_safe. intros H.
  apply andb_true_iff in H. destruct H as [H Hv].
  apply andb_true_iff in H. destruct H as [Hlow Hd].
  apply negb_true_iff in Hd.
  assert (Hf : first_is_dash s = false).
  { destruct s as [|a s']; [reflexivity|]. cbn [valid_name first_is_dash] in *.
    apply andb_true_iff in Hv. destruct Hv as [Ha _].
    destruct (is_dash a) eqn:E; [|reflexivity].
    now rewrite (dash_not_lower_alnum a E) in Ha. }
  assert (Hl : last_is_dash s = false).
  { destruct s as [|a s']; [reflexivity|]. cbn [valid_name] in Hv.
    apply andb_true_iff in Hv. destruct Hv as [_ He].
    rewrite last_is_dash_cons. destruct s' as [|b s'']; [discriminate|].
    now apply ends_alnum_last. }
  assert (Hs : sanitize s = s).
  { unfold sanitize.
    now rewrite (dash_others_low s Hlow), (squeeze_dashes_fixed s Hd),
      (trim_dashes_fixed s Hf Hl), (toLowerCase_fixed s Hlow). }
  unfold path_safe_name. now rewrite Hs, Hv.
Qed.

Lemma lower_alnum_low (s : string) :
  all_chars is_lower_alnum s = true -> all_chars low s = true.
Proof.
  induction s as [|a s IH]; [reflexivity|]. cbn [all_chars]. intros H.
  apply andb_true_iff in H. destruct H as [Ha Hs].
  unfold low at 1. now rewrite Ha, IH.
Qed.

Lemma lower_alnum_no_dash (s : string) :
  all_chars is_lower_alnum s = true ->
  first_is_dash s = false /\ last_is_dash s = false /\ has_double_dash s = false.
Proof.
  induction s as [|a s IH]; [now repeat split|]. cbn [all_chars]. intros H.
  apply andb_true_iff in H. destruct H as [Ha Hs].
  destruct (IH Hs) as (H1 & H2 & H3).
  assert (Hd : is_dash a = false).
  { destruct (is_dash a) eqn:E; [|reflexivity].
    now rewrite (dash_not_lower_alnum a E) in Ha. }
  rewrite last_is_dash_cons, has_double_dash_cons. cbn [first_is_dash].
  rewrite Hd, H3. repeat split. now destruct s.
Qed.

(** The generated name is safe when the identifier is made of lower-case
    letters and digits. *)
Lemma generated_name_safe (uniqueId : string) :
  all_chars is_lower_alnum uniqueId = true -> uniqueId <> "" ->
  path_safe ("app-" ++ uniqueId) = true.
Proof.
  intros Hid Hne. destruct (lower_alnum_no_dash _ Hid) as (Hf & Hl & Hd).
  unfold path_safe. apply andb_true_iff. split; [apply andb_true_iff; split|].
  - cbn [String.append all_chars]. now rewrite (lower_alnum_low _ Hid).
  - cbn [String.append]. rewrite !has_double_dash_cons. cbn [first_is_dash].
    now rewrite Hd, Hf.
  - cbn [String.append valid_name]. rewrite !ends_alnum_cons.
    destruct uniqueId as [|c u]; [congruence|].
    now rewrite (ends_alnum_low _ (lower_alnum_low _ Hid) Hl).
Qed.

Lemma path_safe_name_safe (name uniqueId : string) :
  all_chars is_lower_alnum uniqueId = true -> uniqueId <> "" ->
  path_safe (path_safe_name name uniqueId) = true.
Proof.
  intros Hid Hne.
  unfold path_safe_name. destruct (valid_name (sanitize name)) eqn:Hv.
  - destruct (sanitize_shape name) as (H1 & H2 & _).
    unfold path_safe. now rewrite H1, H2, Hv.
  - now apply generated_name_safe.
Qed.

(** X9. Whatever the name given, the name returned is safe in a path. *)
Theorem generatePathSafeName_is_path_safe (name uniqueId : string) :
  all_chars is_lower_alnum uniqueId = true -> uniqueId <> "" ->
  exists safe,
    generatePathSafeName (Some (VStr name)) uniqueId = Normal safe
    /\ path_safe safe = true.
Proof.
  intros Hid Hne. eexists. split; [reflexivity|].
  now apply path_safe_name_safe.
Qed.

Lemma generatePathSafeName_is_path_safe_witness :
  exists safe,
    generatePathSafeName (Some (VStr "@scope/My_App 2")) "k3j2x1" = Normal safe
    /\ path_safe safe = true.
Proof.
  apply (generatePathSafeName_is_path_safe "@scope/My_App 2" "k3j2x1");
    [reflexivity | discriminate].
Defined.

(** X10. A safe name is returned as it is, so sanitizing twice changes
    nothing. *)
Theorem generatePathSafeName_idempotent (name uniqueId uniqueId' : string) :
  (path_safe name = true ->
   generatePathSafeName (Some (VStr name)) uniqueId = Normal name)
  /\ (all_chars is_lower_alnum uniqueId = true -> uniqueId <> "" ->
      exists safe,
        generatePathSafeName (Some (VStr name)) uniqueId = Normal safe
        /\ generatePathSafeName (Some (VStr safe)) uniqueId' = Normal safe).
Proof.
  split.
  - intros Hp. cbn [generatePathSafeName]. now rewrite (path_safe_fixed name uniqueId Hp).
  - intros Hid Hne. eexists. split; [reflexivity|].
    cbn [generatePathSafeName].
    now rewrite (path_safe_fixed _ uniqueId' (path_safe_name_safe name uniqueId Hid Hne)).
Qed.

Lemma generatePathSafeName_idempotent_witness :
  generatePathSafeName (Some (VStr "my-app")) "k3j2x1" = Normal "my-app"
  /\ exists safe,
       generatePathSafeName (Some (VStr "My App")) "k3j2x1" = Normal safe
       /\ generatePathSafeName (Some (VStr safe)) "zzzzzz" = Normal safe.
Proof.
  split.
  - apply (proj1 (generatePathSafeName_idempotent "my-app" "k3j2x1" "")). reflexivity.
  - apply (proj2 (generatePathSafeName_idempotent "My App" "k3j2x1" "zzzzzz"));
      [reflexivity | discriminate].
Defined.

Lemma copy_truthy_object (keys : list string) (o : obj) :
  forall appInfo,
    exists appInfo',
      Utils.copy_truthy keys (VObj o) appInfo = (appInfo', None)
      /\ forall k, ~ In k keys -> get appInfo' k = get appInfo k.
Proof.
  induction keys as [|key rest IH]; intros appInfo.
  - exists appInfo. now split.
  - cbn [Utils.copy_truthy member].
    assert (Hkeep : forall info,
              (forall k, ~ In k (key :: rest) -> get info k = get appInfo k) ->
              exists appInfo',
                Utils.copy_truthy rest (VObj o) info = (appInfo', None)
                /\ forall k, ~ In k (key :: rest) -> get appInfo' k = get appInfo k).
    { intros info Hinfo. destruct (IH info) as (appInfo' & E & Hget).
      exists appInfo'. split; [exact E|]. intros k Hk.
      rewrite Hget by (intros Hin; apply Hk; now right). now apply Hinfo. }
    destruct (get o key) as [v|]; [|now apply Hkeep].
    destruct (truthy v); [|now apply Hkeep].
    apply Hkeep. intros k Hk. apply get_set_other. intros ->. apply Hk. now left.
Qed.

Lemma copy_truthy_name (o : obj) (appInfo : obj) :
  exists appInfo',
    Utils.copy_truthy ["name"; "author"; "version"; "description"] (VObj o) appInfo
    = (appInfo', None)
    /\ get appInfo' "name"
       = match get o "name" with
         | Some v => if truthy v then Some v else get appInfo "name"
         | None => get appInfo "name"
         end.
Proof.
  cbn [Utils.copy_truthy member].
  assert (Hrest : forall info,
            exists appInfo',
              Utils.copy_truthy ["author"; "version"; "description"] (VObj o) info
              = (appInfo', None)
              /\ get appInfo' "name" = get info "name").
  { intros info.
    destruct (copy_truthy_object ["author"; "version"; "description"] o info)
      as (appInfo' & E & Hget).
    exists appInfo'. split; [exact E|]. apply Hget.
    intros [H|[H|[H|[]]]]; discriminate. }
  destruct (get o "name") as [v|]; [|apply Hrest].
  destruct (truthy v); [|apply Hrest].
  destruct (Hrest (set appInfo "name" v)) as (appInfo' & E & Hget).
  exists appInfo'. split; [exact E|]. now rewrite Hget, get_set_same.
Qed.

Lemma copy_truthy_primitive (keys : list string) (packageData : value) (appInfo : obj) :
  (forall o, packageData <> VObj o) -> packageData <> VNull ->
  Utils.copy_truthy keys packageData appInfo = (appInfo, None).
Proof.
  intros Hobj Hnull. induction keys as [|key rest IH]; [reflexivity|].
  cbn [Utils.copy_truthy].
  destruct packageData as [| b | n | s | items | o]; cbn [member];
    solve [congruence | exact IH | now elim (Hobj o)].
Qed.

Lemma dash_others_app (a b : string) :
  dash_others (a ++ b) = dash_others a ++ dash_others b.
Proof. induction a as [|x a IH]; [reflexivity|]. cbn. now rewrite IH. Qed.

Lemma toLowerCase_app (a b : string) :
  toLowerCase (a ++ b) = toLowerCase a ++ toLowerCase b.
Proof. induction a as [|x a IH]; [reflexivity|]. cbn. now rewrite IH. Qed.

(** The default name [App <id>] gives the path name [app-<id>]. *)
Lemma path_safe_default_name (nameId : string) :
  all_chars is_lower_alnum nameId = true -> nameId <> "" ->
  forall pathId, path_safe_name ("App " ++ nameId) pathId = "app-" ++ nameId.
Proof.
  intros Hid Hne pathId.
  destruct (lower_alnum_no_dash _ Hid) as (Hf & Hl & Hd).
  pose proof (lower_alnum_low _ Hid) as Hlow.
  assert (Hs : sanitize ("App " ++ nameId) = "app-" ++ nameId).
  { unfold sanitize. rewrite dash_others_app, (dash_others_low _ Hlow).
    change (dash_others "App ") with "App-".
    rewrite (squeeze_dashes_fixed ("App-" ++ nameId)).
    2:{ cbn [String.append]. rewrite !has_double_dash_cons. cbn [first_is_dash].
        now rewrite Hd, Hf. }
    rewrite (trim_dashes_fixed ("App-" ++ nameId)).
    2:{ reflexivity. }
    2:{ cbn [String.append]. rewrite !last_is_dash_cons.
        destruct nameId; [congruence | exact Hl]. }
    rewrite toLowerCase_app. now rewrite (toLowerCase_fixed _ Hlow). }
  unfold path_safe_name. rewrite Hs.
  pose proof (generated_name_safe nameId Hid Hne) as Hp.
  unfold path_safe in Hp. apply andb_true_iff in Hp. destruct Hp as [_ Hv].
  now rewrite Hv.
Qed.

Section AppInfoFacts.
Context {P : Platform}.

(** The object [getAppInfo] has built when it asks for the path name. *)
Lemma getAppInfo_name (packageJsonPath nameId pathId : string) (fs : fs_state P) :
  exists appInfo reports,
    get appInfo "name"
    = Some (match package_name fs packageJsonPath with
            | Some v => v
            | None => VStr ("App " ++ nameId)
            end)
    /\ Utils.getAppInfo packageJsonPath nameId pathId fs
       = match generatePathSafeName (get appInfo "name") pathId with
         | Throw e => (Throw e, reports)
         | Normal appPathName =>
             (Normal (set appInfo "appPathName" (VStr appPathName)), reports)
         end.
Proof.
  unfold Utils.getAppInfo, package_name.
  destruct (existsSync P fs packageJsonPath);
    [|exists [("name", VStr ("App " ++ nameId))]; eexists; split; reflexivity].
  destruct (readFileSync P fs packageJsonPath) as [text|e];
    [|exists [("name", VStr ("App " ++ nameId))]; eexists; split; reflexivity].
  destruct (JSON_parse text) as [packageData|e];
    [|exists [("name", VStr ("App " ++ nameId))]; eexists; split; reflexivity].
  destruct packageData as [| b | n | s | items | o];
    try (rewrite copy_truthy_primitive by (intros; discriminate);
         exists [("name", VStr ("App " ++ nameId))]; eexists; split; reflexivity).
  - exists [("name", VStr ("App " ++ nameId))]; eexists; split; reflexivity.
  - destruct (copy_truthy_name o [("name", VStr ("App " ++ nameId))])
      as (appInfo & E & Hname).
    rewrite E. do 2 eexists. split; [|reflexivity].
    rewrite Hname. cbn [get String.eqb Ascii.eqb Bool.eqb].
    destruct (get o "name") as [v|]; [|reflexivity].
    now destruct (truthy v).
Qed.

(** X11. [getAppInfo] throws exactly when the package file names the
    application with a value that is not a string. *)
Theorem getAppInfo_throws_iff_name_not_a_string
    (packageJsonPath nameId pathId : string) (fs : fs_state P) :
  (exists e, fst (Utils.getAppInfo packageJsonPath nameId pathId fs) = Throw e)
  <-> (exists v, package_name fs packageJsonPath = Some v /\ forall n, v <> VStr n).
Proof.
  destruct (getAppInfo_name packageJsonPath nameId pathId fs)
    as (appInfo & reports & Hname & ->).
  rewrite Hname. split.
  - intros (e & He). destruct (package_name fs packageJsonPath) as [v|];
      [|discriminate].
    exists v. split; [reflexivity|]. intros n ->. discriminate.
  - intros (v & -> & Hv).
    destruct v as [| b | n | s | items | o];
      solve [eexists; reflexivity | now elim (Hv s)].
Qed.

(** X12. When [getAppInfo] returns, the object has a name, a string that
    is not empty, and the path name made of that name. *)
Theorem getAppInfo_names_the_application
    (packageJsonPath nameId pathId : string) (fs : fs_state P) (appInfo : obj) :
  fst (Utils.getAppInfo packageJsonPath nameId pathId fs) = Normal appInfo ->
  exists name,
    get appInfo "name" = Some (VStr name)
    /\ name <> ""
    /\ (name = "App " ++ nameId \/ package_name fs packageJsonPath = Some (VStr name))
    /\ get appInfo "appPathName" = Some (VStr (path_safe_name name pathId))
    /\ (all_chars is_lower_alnum pathId = true -> pathId <> "" ->
        path_safe (path_safe_name name pathId) = true).
Proof.
  destruct (getAppInfo_name packageJsonPath nameId pathId fs)
    as (info & reports & Hname & ->).
  rewrite Hname.
  assert (Hp : match package_name fs packageJsonPath with
               | Some v => truthy v = true
               | None => True
               end).
  { unfold package_name. destruct (existsSync P fs packageJsonPath); [|exact I].
    destruct (readFileSync P fs packageJsonPath) as [text|e]; [|exact I].
    destruct (JSON_parse text) as [[| b | n | s | items | o]|e]; try exact I.
    destruct (get o "name") as [v|]; [|exact I].
    destruct (truthy v) eqn:Ht; [exact Ht | exact I]. }
  destruct (package_name fs packageJsonPath) as [v|].
  - destruct v as [| b | n | s | items | o]; try discriminate.
    cbn [generatePathSafeName fst]. intros [= <-]. exists s.
    rewrite get_set_other by discriminate. rewrite get_set_same.
    split; [exact Hname|]. split; [intros ->; discriminate|].
    split; [now right|]. split; [reflexivity|]. apply path_safe_name_safe.
  - cbn [generatePathSafeName fst]. intros [= <-]. exists ("App " ++ nameId).
    rewrite get_set_other by discriminate. rewrite get_set_same.
    split; [exact Hname|]. split; [discriminate|].
    split; [now left|]. split; [reflexivity|]. apply path_safe_name_safe.
Qed.

(** X13. Without a package file that can be read as JSON, the application
    is given a generated name, and one warning is sent. *)
Theorem getAppInfo_without_package_file
    (packageJsonPath nameId pathId : string) (fs : fs_state P) :
  existsSync P fs packageJsonPath = false
  \/ (exists e, readFileSync P fs packageJsonPath = Throw e)
  \/ (exists text e, readFileSync P fs packageJsonPath = Normal text
                     /\ JSON_parse text = Throw e) ->
  all_chars is_lower_alnum nameId = true -> nameId <> "" ->
  exists message data,
    Utils.getAppInfo packageJsonPath nameId pathId fs
    = (Normal [("name", VStr ("App " ++ nameId));
               ("appPathName", VStr ("app-" ++ nameId))],
       [Utils.Report warn message data]).
Proof.
  intros Hcase Hid Hne. unfold Utils.getAppInfo.
  assert (Hdone : forall reports : list Utils.report,
            match generatePathSafeName
                    (get [("name", VStr ("App " ++ nameId))] "name") pathId with
            | Throw e => (Throw (A := obj) e, reports)
            | Normal appPathName =>
                (Normal (set [("name", VStr ("App " ++ nameId))] "appPathName"
                           (VStr appPathName)), reports)
            end
            = (Normal [("name", VStr ("App " ++ nameId));
                       ("appPathName", VStr ("app-" ++ nameId))], reports)).
  { intros reports. cbn [get String.eqb Ascii.eqb Bool.eqb generatePathSafeName].
    now rewrite (path_safe_default_name nameId Hid Hne). }
  destruct Hcase as [Hex | [(e & Hread) | (text & e & Hread & Hparse)]].
  - rewrite Hex. do 2 eexists. apply Hdone.
  - destruct (existsSync P fs packageJsonPath); [rewrite Hread|];
      do 2 eexists; apply Hdone.
  - destruct (existsSync P fs packageJsonPath); [rewrite Hread, Hparse|];
      do 2 eexists; apply Hdone.
Qed.

End AppInfoFacts.

Lemma getAppInfo_throws_iff_name_not_a_string_witness :
  (exists e,
     fst (Utils.getAppInfo (P := mem_platform) "/work/package.json" "k3j2x1" "zzzzzz"
            (package_fs (VObj [("name", VNum "5")]))) = Throw e)
  /\ ~ (exists e,
          fst (Utils.getAppInfo (P := mem_platform) "/work/package.json" "k3j2x1"
                 "zzzzzz" (package_fs (VObj [("name", VStr "demo")]))) = Throw e).
Proof.
  split.
  - apply (proj2 (getAppInfo_throws_iff_name_not_a_string (P := mem_platform)
                    "/work/package.json" "k3j2x1" "zzzzzz"
                    (package_fs (VObj [("name", VNum "5")])))).
    exists (VNum "5"). split; [reflexivity | discriminate].
  - intros H.
    apply (proj1 (getAppInfo_throws_iff_name_not_a_string (P := mem_platform)
                    "/work/package.json" "k3j2x1" "zzzzzz"
                    (package_fs (VObj [("name", VStr "demo")])))) in H.
    destruct H as (v & Hv & Hn). injection Hv as <-. now elim (Hn "demo").
Defined.

(** A name that [JSON.parse] rounds to zero is no name: the generated one
    is kept, and nothing is thrown. *)
Example getAppInfo_name_rounds_to_zero :
  fst (Utils.getAppInfo (P := mem_platform) "/work/package.json" "k3j2x1" "zzzzzz"
         (package_fs (VObj [("name", VNum "1e-400")])))
  = Normal [("name", VStr "App k3j2x1"); ("appPathName", VStr "app-k3j2x1")].
Proof. vm_compute. reflexivity. Qed.

Lemma getAppInfo_names_the_application_witness :
  fst (Utils.getAppInfo (P := mem_platform) "/work/package.json" "k3j2x1" "zzzzzz"
         (package_fs (VObj [("name", VStr "My App"); ("version", VStr "1.0.0")])))
  = Normal [("name", VStr "My App"); ("version", VStr "1.0.0");
            ("appPathName", VStr "my-app")]
  /\ path_safe (path_safe_name "My App" "zzzzzz") = true.
Proof.
  split; [reflexivity|].
  destruct (getAppInfo_names_the_application (P := mem_platform)
              "/work/package.json" "k3j2x1" "zzzzzz"
              (package_fs (VObj [("name", VStr "My App"); ("version", VStr "1.0.0")]))
              [("name", VStr "My App"); ("version", VStr "1.0.0");
               ("appPathName", VStr "my-app")] eq_refl)
    as (name & Hname & _ & _ & _ & Hsafe).
  injection Hname as <-. apply Hsafe; [reflexivity | discriminate].
Defined.

Lemma getAppInfo_without_package_file_witness :
  exists message data,
    Utils.getAppInfo (P := mem_platform) "/work/package.json" "k3j2x1" "zzzzzz"
      (MemFs [] ["/work"])
    = (Normal [("name", VStr "App k3j2x1"); ("appPathName", VStr "app-k3j2x1")],
       [Utils.Report warn message data]).
Proof.
  apply (getAppInfo_without_package_file (P := mem_platform)
           "/work/package.json" "k3j2x1" "zzzzzz" (MemFs [] ["/work"]));
    [left; reflexivity | reflexivity | discriminate].
Defined.

(** ** configTools.js: what [getConfigData] imports *)

Section ConfigReads.
Context {P : Platform}.
Local Abbreviation only_reports := (only_reports (P := P)).

Lemma only_reports_ret {A : Type} (a : A) : only_reports (ret a).
Proof. intros w. exists (Normal a), []. rewrite app_nil_r. now destruct w. Qed.

Lemma only_reports_lift {A : Type} (c : completion A) : only_reports (lift c).
Proof. intros w. exists c, []. rewrite app_nil_r. now destruct w. Qed.

Lemma only_reports_monitor (ev : event) : only_reports (monitor ev).
Proof. intros w. now exists (Normal tt), [ev]. Qed.

Lemma only_reports_read (p : string) : only_reports (fs_read p).
Proof.
  intros w. exists (readFileSync P (w_fs w) p), []. rewrite app_nil_r.
  now destruct w.
Qed.

Lemma only_reports_bind {A B : Type} (m : M P A) (k : A -> M P B) :
  only_reports m -> (forall a, only_reports (k a)) -> only_reports (bind m k).
Proof.
  intros Hm Hk w. unfold bind. destruct (Hm w) as (r & evs & ->).
  destruct r as [a|e].
  - destruct (Hk a (World (w_fs w) (w_log w ++ evs) (w_stdout w)))
      as (r' & evs' & ->).
    exists r', (evs ++ evs')%list. cbn [w_fs w_log w_stdout].
    now rewrite app_assoc.
  - now exists (Throw e), evs.
Qed.

Lemma only_reports_catch {A : Type} (body : M P A) (handler : error -> M P A) :
  only_reports body -> (forall e, only_reports (handler e)) ->
  only_reports (try_catch body handler).
Proof.
  intros Hb Hh w. unfold try_catch. destruct (Hb w) as (r & evs & ->).
  destruct r as [a|e].
  - now exists (Normal a), evs.
  - destruct (Hh e (World (w_fs w) (w_log w ++ evs) (w_stdout w)))
      as (r' & evs' & ->).
    exists r', (evs ++ evs')%list. cbn [w_fs w_log w_stdout].
    now rewrite app_assoc.
Qed.

Lemma import_settings_only_reports entries profileName dictionary :
  forall result, only_reports (import_settings entries profileName dictionary result).
Proof.
  induction entries as [|[key v] rest IH]; intros result; cbn [import_settings].
  - apply only_reports_ret.
  - destruct (find (answers_to key) dictionary) as [d|].
    + destruct (is_blank_string v).
      * apply only_reports_bind; [apply only_reports_monitor | intros; apply IH].
      * destruct (payload d) as [p | r | x]; try apply IH.
        destruct (includes "|" (source r)); [|apply IH].
        apply only_reports_bind; [apply only_reports_lift|].
        intros [t|]; [|apply only_reports_lift].
        destruct (array_includes (split "|" t) v); [apply IH|].
        apply only_reports_bind; [apply only_reports_monitor | intros; apply IH].
    + apply only_reports_bind; [apply only_reports_monitor | intros; apply IH].
Qed.

(** X14. [getConfigData] returns normally whatever happens, changes
    neither the file system nor the output, and says why when it returns
    [null]. *)
Theorem getConfigData_only_reports :
  forall filePath profileName dictionary (w : world P),
  exists settings evs,
    getConfigData filePath profileName dictionary w
    = (Normal settings, World (w_fs w) (w_log w ++ evs)%list (w_stdout w))
    /\ (settings = None -> evs <> []).
Proof.
  intros filePath profileName dictionary w.
  unfold getConfigData, try_catch, bind, lift, fs_read, ret, monitor.
  assert (Hcaught : forall e evs,
            exists settings evs',
              (Normal (A := option obj) None,
               World (w_fs (World (w_fs w) (w_log w ++ evs) (w_stdout w)))
                 (w_log (World (w_fs w) (w_log w ++ evs) (w_stdout w))
                  ++ [read_failure e])
                 (w_stdout (World (w_fs w) (w_log w ++ evs) (w_stdout w))))
              = (Normal settings, World (w_fs w) (w_log w ++ evs')%list (w_stdout w))
              /\ (settings = None -> evs' <> [])).
  { intros e evs. exists None, (evs ++ [read_failure e])%list.
    cbn [w_fs w_log w_stdout]. rewrite app_assoc. split; [reflexivity|].
    intros _ H. now apply app_eq_nil in H. }
  assert (Hcaught0 : forall e,
            exists settings evs',
              (Normal (A := option obj) None,
               World (w_fs w) (w_log w ++ [read_failure e]) (w_stdout w))
              = (Normal settings, World (w_fs w) (w_log w ++ evs')%list (w_stdout w))
              /\ (settings = None -> evs' <> [])).
  { intros e. exists None, [read_failure e]. split; [reflexivity | discriminate]. }
  assert (Hsaid : forall ev,
            exists settings evs',
              (Normal (A := option obj) None,
               World (w_fs w) (w_log w ++ [ev]) (w_stdout w))
              = (Normal settings, World (w_fs w) (w_log w ++ evs')%list (w_stdout w))
              /\ (settings = None -> evs' <> [])).
  { intros ev. exists None, [ev]. split; [reflexivity | discriminate]. }
  destruct (readFileSync P (w_fs w) filePath) as [text|e]; [|apply Hcaught0].
  destruct (JSON_parse text) as [configData|e]; [|apply Hcaught0].
  destruct (member configData "profiles") as [[profiles|]|e];
    [| apply Hsaid | apply Hcaught0].
  destruct profiles as [| b | n | s | items | o]; try apply Hsaid.
  destruct (find_profile items profileName) as [[p|]|e];
    [| apply Hsaid | apply Hcaught0].
  destruct (member p "settings") as [s|e]; [|apply Hcaught0].
  match goal with
  | |- context [import_settings ?en ?pn ?d ?r w] =>
      destruct (import_settings_only_reports en pn d r w) as (r' & evs & ->)
  end.
  destruct r' as [result|e]; [|apply Hcaught].
  exists (Some result), evs. split; [reflexivity | discriminate].
Qed.

(** X15. A configuration file that cannot be read or parsed gives [null]
    and one event: a warning when the file is missing, an error carrying
    the exception otherwise. *)
Theorem getConfigData_unreadable_file :
  forall filePath profileName dictionary (w : world P) e,
    readFileSync P (w_fs w) filePath = Throw e
    \/ (exists text, readFileSync P (w_fs w) filePath = Normal text
                     /\ JSON_parse text = Throw e) ->
    getConfigData filePath profileName dictionary w
    = (Normal None, World (w_fs w) (w_log w ++ [read_failure e])%list (w_stdout w))
    /\ (error_code e = Some "ENOENT" ->
        read_failure e
        = say warn ("Error reading configuration file. Details: " ++ error_message e))
    /\ (error_code e <> Some "ENOENT" ->
        read_failure e
        = Event error_ ("Error reading configuration file. Details: " ++ error_message e)
            (Some e)).
Proof.
  intros filePath profileName dictionary w e Hcase. split; [|split].
  - unfold getConfigData, try_catch, bind, lift, fs_read, ret, monitor.
    destruct Hcase as [-> | (text & -> & ->)]; reflexivity.
  - intros Hc. unfold read_failure, is_file_missing. now rewrite Hc.
  - intros Hc. unfold read_failure, is_file_missing.
    destruct (error_code e) as [c|]; [|reflexivity].
    destruct (String.eqb_spec c "ENOENT") as [->|_]; [congruence | reflexivity].
Qed.

End ConfigReads.

Lemma getConfigData_unreadable_file_witness :
  getConfigData (P := mem_platform) "/home/user/demo.config" "default" []
    (start (P := mem_platform) sample_fs)
  = (Normal None,
     World (P := mem_platform) sample_fs
       [say warn "Error reading configuration file. Details: ENOENT: no such file or directory, open '/home/user/demo.config'"]
       []).
Proof.
  exact (proj1 (getConfigData_unreadable_file (P := mem_platform)
                  "/home/user/demo.config" "default" []
                  (start (P := mem_platform) sample_fs)
                  (SystemError "ENOENT"
                     "ENOENT: no such file or directory, open '/home/user/demo.config'")
                  (or_introl eq_refl))).
Defined.

(** *** What is imported *)

Section ConfigImports.
Context {P : Platform}.

Lemma import_settings_imports entries profileName dictionary :
  forall result (w : world P) r w',
    import_settings entries profileName dictionary result w = (Normal r, w') ->
    forall k v,
      get r k = Some v ->
      get result k = Some v
      \/ (In (k, v) entries
          /\ (exists d, find (answers_to k) dictionary = Some d)
          /\ is_blank_string v = false).
Proof.
  induction entries as [|[key v0] rest IH]; intros result w r w' H k v Hget.
  - cbn in H. injection H as <- _. now left.
  - cbn [import_settings] in H.
    assert (Hskip : forall w1,
              import_settings rest profileName dictionary result w1 = (Normal r, w') ->
              get result k = Some v
              \/ (In (k, v) ((key, v0) :: rest)
                  /\ (exists d, find (answers_to k) dictionary = Some d)
                  /\ is_blank_string v = false)).
    { intros w1 H1. destruct (IH _ _ _ _ H1 k v Hget) as [Hr|(Hin & Hd & Hb)];
        [now left | right; split; [now right | now split]]. }
    assert (Htake : forall d,
              find (answers_to key) dictionary = Some d ->
              is_blank_string v0 = false ->
              import_settings rest profileName dictionary (put result key v0) w
              = (Normal r, w') ->
              get result k = Some v
              \/ (In (k, v) ((key, v0) :: rest)
                  /\ (exists d, find (answers_to k) dictionary = Some d)
                  /\ is_blank_string v = false)).
    { intros d Hd Hb H1.
      destruct (IH _ _ _ _ H1 k v Hget) as [Hr|(Hin & Hd' & Hb')];
        [|right; split; [now right | now split]].
      destruct (put_cases result key v0) as [Hput|Hput]; rewrite Hput in Hr;
        [now left|].
      destruct (String.eqb_spec key k) as [->|Hne].
      - rewrite get_set_same in Hr. injection Hr as ->.
        right. split; [now left|]. split; [now exists d | exact Hb].
      - left. now rewrite get_set_other in Hr. }
    destruct (find (answers_to key) dictionary) as [d|] eqn:Hd.
    + destruct (is_blank_string v0) eqn:Hb; [now apply (Hskip _ H)|].
      destruct (payload d) as [p | rx | x]; try now apply (Htake d).
      destruct (includes "|" (source rx)); [|now apply (Htake d)].
      unfold bind at 1, lift at 1 in H.
      destruct (first_group_text (source rx)) as [[t|]|e]; try discriminate.
      destruct (array_includes (split "|" t) v0); [now apply (Htake d)|].
      now apply (Hskip _ H).
    + now apply (Hskip _ H).
Qed.

(** X16. Only what the dictionary knows is imported: a setting returned
    is a setting of the profile, a descriptor answers for its key, and
    its value is not a blank string. *)
Theorem getConfigData_imports_known_settings :
  forall filePath profileName dictionary (w : world P) settings,
    fst (getConfigData filePath profileName dictionary w) = Normal (Some settings) ->
    exists text configData entries,
      readFileSync P (w_fs w) filePath = Normal text
      /\ JSON_parse text = Normal configData
      /\ profile_entries configData profileName = Some entries
      /\ forall k v,
           get settings k = Some v ->
           In (k, v) entries
           /\ (exists d, In d dictionary /\ answers_to k d = true)
           /\ is_blank_string v = false.
Proof.
  intros filePath profileName dictionary w settings.
  unfold getConfigData, try_catch, bind, lift, fs_read, ret, monitor, profile_entries.
  destruct (readFileSync P (w_fs w) filePath) as [text|e] eqn:Hread; [|discriminate].
  destruct (JSON_parse text) as [configData|e] eqn:Hparse; [|discriminate].
  destruct (member configData "profiles") as [[profiles|]|e] eqn:Hprofiles;
    try discriminate.
  destruct profiles as [| b | n | s | items | o]; try discriminate.
  destruct (find_profile items profileName) as [[p|]|e] eqn:Hfind; try discriminate.
  destruct (member p "settings") as [s|e] eqn:Hsettings; [|discriminate].
  match goal with
  | |- context [import_settings ?en ?pn ?d ?r w] =>
      destruct (import_settings en pn d r w) as [[result|e] w'] eqn:E
  end; [|discriminate].
  cbn [fst]. intros [= <-].
  assert (Hin : forall entries,
            import_settings entries profileName dictionary [] w = (Normal result, w') ->
            forall k v,
              get result k = Some v ->
              In (k, v) entries
              /\ (exists d, In d dictionary /\ answers_to k d = true)
              /\ is_blank_string v = false).
  { intros entries E' k v Hget.
    destruct (import_settings_imports _ _ _ _ _ _ _ E' k v Hget)
      as [Hr|(Hin & (d & Hd) & Hb)]; [discriminate|].
    apply find_some in Hd. split; [exact Hin|]. split; [now exists d | exact Hb]. }
  destruct s as [v'|].
  - exists text, configData, (Object_entries (if truthy v' then v' else VObj [])).
    split; [reflexivity|]. split; [exact Hparse|].
    split; [now rewrite Hprofiles, Hfind, Hsettings|]. now apply Hin.
  - exists text, configData, []. split; [reflexivity|]. split; [exact Hparse|].
    split; [now rewrite Hprofiles, Hfind, Hsettings|]. now apply Hin.
Qed.

End ConfigImports.

(** *** Flags in a profile *)

Lemma split_aux_app (c : ascii) (a : string) :
  includes c a = false ->
  forall cur rest, split_aux c (a ++ rest) cur = split_aux c rest (cur ++ a).
Proof.
  induction a as [|x a IH]; intros Hn cur rest.
  - simpl. now rewrite str_app_nil_r.
  - cbn [includes] in Hn. apply orb_false_iff in Hn. destruct Hn as [Hx Hn].
    cbn [String.append split_aux]. rewrite Hx. rewrite (IH Hn).
    now rewrite str_app_assoc.
Qed.

(** Splitting the text of a name group gives the names back. *)
Lemma split_join (l : list string) :
  l <> [] -> forallb is_plain_name l = true -> split "|" (join "|" l) = l.
Proof.
  intros Hne Hp. unfold split.
  assert (H : forall cur, split_aux "|" (join "|" l) cur
                          = (cur ++ hd "" l) :: tl l).
  { induction l as [|a l IH]; [congruence|]. intros cur.
    cbn [forallb] in Hp. apply andb_true_iff in Hp. destruct Hp as [Ha Hp].
    apply is_plain_name_chars in Ha. destruct Ha as [_ Ha].
    assert (Hn : includes "|" a = false) by now apply includes_plain.
    destruct l as [|b l'].
    - cbn [join hd tl]. rewrite <- (str_app_nil_r a) at 1.
      now rewrite (split_aux_app "|" a Hn).
    - change (join "|" (a :: b :: l')) with (a ++ "|" ++ join "|" (b :: l')).
      rewrite (split_aux_app "|" a Hn). cbn [String.append split_aux Ascii.eqb Bool.eqb].
      rewrite (IH ltac:(discriminate) Hp ""). reflexivity. }
  rewrite H. destruct l; [congruence | reflexivity].
Qed.

Lemma source_flag_pattern (aliases : list string) :
  forallb is_plain_name aliases = true ->
  source (flag_pattern aliases) = "^--(" ++ join "|" aliases ++ ")$".
Proof.
  intros Hp. unfold flag_pattern. now rewrite (source_named_pattern dashes aliases Eol Hp).
Qed.

Lemma includes_bar_flag_pattern (aliases : list string) :
  forallb is_plain_name aliases = true ->
  includes "|" (source (flag_pattern aliases)) = (2 <=? length aliases)%nat.
Proof.
  intros Hp. rewrite (source_flag_pattern aliases Hp).
  cbn [String.append includes Ascii.eqb Bool.eqb orb]. rewrite includes_app.
  cbn [includes Ascii.eqb Bool.eqb orb]. rewrite orb_false_r.
  destruct aliases as [|a [|b l]].
  - reflexivity.
  - cbn [forallb] in Hp. apply andb_true_iff in Hp. destruct Hp as [Ha _].
    apply is_plain_name_chars in Ha. destruct Ha as [_ Ha].
    cbn [join length Nat.leb]. now apply includes_plain.
  - change (join "|" (a :: b :: l)) with (a ++ "|" ++ join "|" (b :: l)).
    rewrite includes_app. cbn [String.append includes Ascii.eqb Bool.eqb orb].
    now rewrite orb_true_r.
Qed.

Lemma answers_to_flag (d : descriptor) (aliases : list string) (key : string) :
  payload d = PRegExp (flag_pattern aliases) -> In key aliases ->
  answers_to key d = true.
Proof.
  intros Hd Hin. unfold answers_to. rewrite Hd, (exec_flag_pattern aliases key Hin).
  unfold m_group. cbn. apply String.eqb_refl.
Qed.

Lemma find_first_answer (key : string) (before : list descriptor) (d : descriptor)
    (after : list descriptor) :
  (forall d', In d' before -> answers_to key d' = false) ->
  answers_to key d = true ->
  find (answers_to key) (before ++ d :: after) = Some d.
Proof.
  intros Hb Hd. induction before as [|d' before IH]; cbn [app find].
  - now rewrite Hd.
  - rewrite (Hb d' (or_introl eq_refl)). apply IH. intros x Hx. apply Hb. now right.
Qed.

Section ConfigFlags.
Context {P : Platform}.


(** X18. A setting whose key is answered by a string payload [--key],
    or by a flag that has the single name [key]: its value is assigned to
    the property of that key as it is, unless it is a blank string, and
    no event is sent (the assignment creates nothing for the key
    [__proto__]). The dictionary is written in ASCII, so are the keys of
    the settings, and the values are such as [to_string] prints as
    JavaScript does. *)
Theorem getConfigData_imports_plain_setting :
  forall before d after key v rest profileName result (w : world P),
    payload d = PString ("--" ++ key)
    \/ (is_plain_name key = true /\ payload d = PRegExp (flag_pattern [key])) ->
    forallb ascii_payload (before ++ d :: after) = true ->
    forallb (fun kv => ascii_text (fst kv) && prints_plainly (snd kv))
      ((key, v) :: rest) = true ->
    (forall d', In d' before -> answers_to key d' = false) ->
    is_blank_string v = false ->
    let dictionary := (before ++ d :: after)%list in
    import_settings ((key, v) :: rest) profileName dictionary result w
    = import_settings rest profileName dictionary (put result key v) w.
Proof.
  intros before d after key v rest profileName result w Hd _ _ Hbefore Hblank
         dictionary.
  cbn [import_settings]. unfold dictionary.
  assert (Ha : answers_to key d = true).
  { destruct Hd as [Hd|[_ Hd]].
    - unfold answers_to. rewrite Hd. apply String.eqb_refl.
    - apply (answers_to_flag d [key] key Hd). now left. }
  rewrite (find_first_answer key before d after Hbefore Ha), Hblank.
  destruct Hd as [-> | [Hk ->]]; [reflexivity|].
  rewrite (includes_bar_flag_pattern [key]); [reflexivity|].
  cbn [forallb]. now rewrite Hk.
Qed.

End ConfigFlags.

Lemma getConfigData_imports_known_settings_witness :
  fst (getConfigData (P := mem_platform) "/home/user/demo.config" "dev"
         [verbose_descriptor]
         (start (P := mem_platform)
            (dev_profile_fs [("verbose", VBool true); ("colour", VStr "red")])))
  = Normal (Some [("verbose", VBool true)])
  /\ exists d, In d [verbose_descriptor] /\ answers_to "verbose" d = true.
Proof.
  split; [reflexivity|].
  destruct (getConfigData_imports_known_settings (P := mem_platform)
              "/home/user/demo.config" "dev" [verbose_descriptor]
              (start (P := mem_platform)
                 (dev_profile_fs [("verbose", VBool true); ("colour", VStr "red")]))
              [("verbose", VBool true)] eq_refl)
    as (text & configData & entries & _ & _ & _ & H).
  exact (proj1 (proj2 (H "verbose" (VBool true) eq_refl))).
Defined.


Lemma getConfigData_imports_plain_setting_witness :
  import_settings (P := mem_platform)
    [("isDryRun", VNum "1")] "dev"
    [Descriptor "Dry Run" (PString "--isDryRun") "A simple flag argument" false] []
    (start (P := mem_platform) sample_fs)
  = (Normal [("isDryRun", VNum "1")], start (P := mem_platform) sample_fs).
Proof.
  refine (eq_trans
            (getConfigData_imports_plain_setting (P := mem_platform)
               [] (Descriptor "Dry Run" (PString "--isDryRun")
                     "A simple flag argument" false)
               [] "isDryRun" (VNum "1") [] "dev" []
               (start (P := mem_platform) sample_fs) (or_introl eq_refl) eq_refl
               eq_refl _ eq_refl) _).
  - intros d' [].
  - reflexivity.
Defined.

(** ** utils.js: [populateTemplate], placeholder by placeholder *)

Section Shift.
Context {R R' : Type}.
Variable g : R -> R'.
Variable d : nat.
Local Abbreviation shifted := (shifted g d).

Lemma one_char_shift ok pos s cs (k : @cont R) (k' : @cont R') :
  shifted k k' ->
  one_char ok (pos + d) s cs k' = option_map g (one_char ok pos s cs k).
Proof.
  intros Hk. unfold one_char. destruct s as [|a s']; [reflexivity|].
  destruct (ok a); [apply (Hk (S pos)) | reflexivity].
Qed.

Lemma repeat_matcher_shift greedy (body : @matcher R) (body' : @matcher R') reset :
  (forall pos s cs k k', shifted k k' ->
     body' (pos + d) s cs k' = option_map g (body pos s cs k)) ->
  forall fuel pos s cs k k', shifted k k' ->
    repeat_matcher greedy body' reset fuel (pos + d) s cs k'
    = option_map g (repeat_matcher greedy body reset fuel pos s cs k).
Proof.
  intros Hbody. induction fuel as [|fuel IH]; intros pos s cs k k' Hk.
  - apply Hk.
  - cbn [repeat_matcher].
    rewrite (Hbody pos s (reset cs)
               (fun pos' s' cs' =>
                  if (String.length s' <? String.length s)%nat
                  then repeat_matcher greedy body reset fuel pos' s' cs' k
                  else None)).
    2:{ intros p s' cs'. destruct (String.length s' <? String.length s)%nat;
          [now apply IH | reflexivity]. }
    rewrite (Hk pos s cs).
    destruct greedy.
    + now destruct (body pos s (reset cs) _).
    + destruct (k pos s cs); [reflexivity|]. cbn [option_map].
      now destruct (body pos s (reset cs) _).
Qed.

Lemma rmatch_shift (r : regex) :
  bol_free r = true ->
  forall gi pos s cs k k', shifted k k' ->
    rmatch r gi (pos + d) s cs k' = option_map g (rmatch r gi pos s cs k).
Proof.
  induction r as [| c | | c | | | | r1 IH1 r2 IH2 | r1 IH1 r2 IH2
                 | gr r IH | r IH | r IH];
    intros Hb gi pos s cs k k' Hk; cbn [rmatch bol_free] in *;
    try (now apply one_char_shift).
  - apply Hk.
  - discriminate.
  - destruct s; [apply Hk | reflexivity].
  - apply andb_true_iff in Hb. destruct Hb as [Hb1 Hb2].
    apply (IH1 Hb1). intros p s' cs'. now apply (IH2 Hb2).
  - apply andb_true_iff in Hb. destruct Hb as [Hb1 Hb2].
    rewrite (IH1 Hb1 gi pos s cs k k' Hk), (IH2 Hb2 _ pos s cs k k' Hk).
    now destruct (rmatch r1 gi pos s cs k).
  - apply repeat_matcher_shift; [|exact Hk].
    intros pos0 s0 cs0 k0 k0' Hk0. now apply (IH Hb).
  - apply (IH Hb). intros p s' cs'.
    apply repeat_matcher_shift; [|exact Hk].
    intros pos0 s0 cs0 k0 k0' Hk0. now apply (IH Hb).
  - apply (IH Hb). intros p s' cs'.
    replace (p + d - (pos + d)) with (p - pos) by lia. apply Hk.
Qed.

End Shift.

Lemma exec_from_shift (r : regex) (d : nat) :
  bol_free r = true ->
  forall fuel pos s,
    exec_from r fuel (pos + d) s = option_map (shift d) (exec_from r fuel pos s).
Proof.
  intros Hb. induction fuel as [|fuel IH]; intros pos s; cbn [exec_from].
  - rewrite (rmatch_shift (shift d) d r Hb 0 pos s no_caps
               (fun pos' _ cs' => Some (MatchResult pos pos' cs'))
               (fun pos' _ cs' => Some (MatchResult (pos + d) pos' cs')))
      by (intros p s' cs'; reflexivity).
    now destruct (rmatch r 0 pos s no_caps _).
  - rewrite (rmatch_shift (shift d) d r Hb 0 pos s no_caps
               (fun pos' _ cs' => Some (MatchResult pos pos' cs'))
               (fun pos' _ cs' => Some (MatchResult (pos + d) pos' cs')))
      by (intros p s' cs'; reflexivity).
    destruct (rmatch r 0 pos s no_caps _); [reflexivity|].
    destruct s as [|a s']; [reflexivity|]. apply (IH (S pos)).
Qed.

(** Where a match lies in the input. *)
Lemma exec_from_bounds (r : regex) (fuel pos : nat) (s : string) (m : match_result) :
  exec_from r fuel pos s = Some m ->
  exists pre w post,
    s = pre ++ w ++ post
    /\ m_index m = pos + String.length pre
    /\ m_end m = pos + String.length pre + String.length w.
Proof.
  intros H. apply exec_from_inv in H. destruct H as (pre & suf & -> & H).
  apply rmatch_sound in H. destruct H as (w & post & cs & -> & Hk & _).
  unfold final_cont in Hk. injection Hk as <-.
  exists pre, w, post. now repeat split.
Qed.

Lemma skipn_str_length (n : nat) (s : string) :
  String.length (skipn_str n s) = String.length s - n.
Proof.
  revert s. induction n as [|n IH]; intros [|a s]; cbn; try reflexivity; apply IH.
Qed.

Section ReplaceAll.
Variable r : regex.
Variable f : match_result -> completion string * list event.
Hypothesis r_bol_free : bol_free r = true.
Hypothesis f_shift : forall d m, f (shift d m) = f m.

Lemma replace_all_from_shift (d : nat) :
  forall fuel pos s,
    replace_all_from r f fuel (pos + d) s = replace_all_from r f fuel pos s.
Proof.
  induction fuel as [|fuel IH]; intros pos s; [reflexivity|].
  cbn [replace_all_from]. rewrite (exec_from_shift r d r_bol_free).
  destruct (exec_from r (String.length s) pos s) as [m|] eqn:E; [|reflexivity].
  cbn [option_map]. rewrite f_shift. unfold shift. cbn [m_index m_end].
  destruct (exec_from_bounds _ _ _ _ _ E) as (pre & w & post & _ & Hi & He).
  replace (m_index m + d - (pos + d)) with (m_index m - pos) by lia.
  replace (m_end m + d - (pos + d)) with (m_end m - pos) by lia.
  replace (m_end m + d =? m_index m + d)%nat with (m_end m =? m_index m)%nat.
  2:{ destruct (Nat.eqb_spec (m_end m) (m_index m)) as [->|Hne].
      - now rewrite Nat.eqb_refl.
      - symmetry. apply Nat.eqb_neq. lia. }
  destruct (f m) as [[rep|e] evs]; [|reflexivity].
  destruct (m_end m =? m_index m)%nat.
  - rewrite <- (IH (S (m_end m))). reflexivity.
  - now rewrite <- (IH (m_end m)).
Qed.

Lemma replace_all_from_fuel :
  forall fuel1 fuel2 pos s,
    String.length s < fuel1 -> String.length s < fuel2 ->
    replace_all_from r f fuel1 pos s = replace_all_from r f fuel2 pos s.
Proof.
  induction fuel1 as [|fuel1 IH]; intros fuel2 pos s H1 H2; [lia|].
  destruct fuel2 as [|fuel2]; [lia|].
  cbn [replace_all_from].
  destruct (exec_from r (String.length s) pos s) as [m|] eqn:E; [|reflexivity].
  destruct (exec_from_bounds _ _ _ _ _ E) as (pre & w & post & Hs & Hi & He).
  destruct (f m) as [[rep|e] evs]; [|reflexivity].
  assert (Hlen : String.length s
                 = String.length pre + String.length w + String.length post).
  { rewrite Hs, !str_length_app. lia. }
  destruct (Nat.eqb_spec (m_end m) (m_index m)) as [Heq|Hne].
  - destruct (skipn_str (m_end m - pos) s) as [|c rest] eqn:Hrest; [reflexivity|].
    cbn [skipn_str].
    assert (String.length rest < String.length s).
    { pose proof (skipn_str_length (m_end m - pos) s) as Hl.
      rewrite Hrest in Hl. cbn [String.length] in Hl. lia. }
    rewrite (IH fuel2 (S (m_end m)) rest) by lia. reflexivity.
  - assert (String.length (skipn_str (m_end m - pos) s) < String.length s).
    { rewrite skipn_str_length. lia. }
    rewrite (IH fuel2 (m_end m) (skipn_str (m_end m - pos) s)) by lia.
    reflexivity.
Qed.

(** After a match that is not empty, the rest of the text is treated as
    a text of its own. *)
Lemma replace_all_step (pre w post : string) (m : match_result) :
  w <> "" ->
  exec_from r (String.length (pre ++ w ++ post)) 0 (pre ++ w ++ post) = Some m ->
  m_index m = String.length pre ->
  m_end m = String.length pre + String.length w ->
  replace_all r f (pre ++ w ++ post)
  = match f m with
    | (Throw e, evs) => (Throw e, evs)
    | (Normal rep, evs) =>
        match replace_all r f post with
        | (Normal tail, evs') => (Normal (pre ++ rep ++ tail), (evs ++ evs')%list)
        | (Throw e, evs') => (Throw e, (evs ++ evs')%list)
        end
    end.
Proof.
  intros Hw E Hi He.
  remember (replace_all r f post) as tailres eqn:Ht.
  unfold replace_all in *. cbn [replace_all_from]. rewrite E.
  rewrite Hi, He, !Nat.sub_0_r.
  destruct (f m) as [[rep|e] evs]; [|reflexivity].
  assert (Hne : (String.length pre + String.length w =? String.length pre)%nat = false).
  { apply Nat.eqb_neq. destruct w; [congruence | cbn [String.length]; lia]. }
  rewrite Hne, firstn_str_app.
  replace (skipn_str (String.length pre + String.length w) (pre ++ w ++ post))
    with post.
  2:{ rewrite <- str_app_assoc, <- str_length_app. symmetry. apply skipn_str_app. }
  replace (replace_all_from r f (String.length (pre ++ w ++ post))
             (String.length pre + String.length w) post)
    with tailres.
  2:{ pose proof (replace_all_from_shift (String.length pre + String.length w)
                    (String.length (pre ++ w ++ post)) 0 post) as Hshift.
      cbn [Nat.add] in Hshift. rewrite Hshift, Ht.
      apply replace_all_from_fuel; [lia|].
      rewrite !str_length_app. destruct w; [congruence | cbn [String.length]; lia]. }
  destruct tailres as [[tail|e] evs']; [|now destruct post].
  now destruct post.
Qed.

End ReplaceAll.

Lemma has_open_cons (a : ascii) (s : string) :
  has_open (String a s) = (Ascii.eqb a "{" && first_is "{" s) || has_open s.
Proof. destruct s as [|b s']; cbn; [now rewrite andb_false_r | reflexivity]. Qed.

Lemma first_is_app (c : ascii) (a rest : string) :
  first_is c rest = true -> first_is c (a ++ rest) = first_is c (a ++ String c "").
Proof.
  intros H. destruct a as [|x a]; [|reflexivity]. cbn [String.append].
  rewrite H. cbn. now rewrite Ascii.eqb_refl.
Qed.

Lemma placeholder_needs_braces {R : Type} gi pos (s : string) cs (k : @cont R) :
  (first_is "{" s && first_is "{" (skipn_str 1 s)) = false ->
  rmatch PLACEHOLDER gi pos s cs k = None.
Proof.
  intros H. unfold PLACEHOLDER. cbn [rmatch lit ngroups Nat.add].
  unfold one_char at 1. destruct s as [|a s']; [reflexivity|].
  cbn [first_is skipn_str] in H. rewrite (Ascii.eqb_sym "{" a).
  destruct (Ascii.eqb a "{"); [|reflexivity]. cbn [andb] in H.
  unfold one_char at 1. destruct s' as [|b s'']; [reflexivity|].
  cbn [first_is] in H. now rewrite (Ascii.eqb_sym "{" b), H.
Qed.

Lemma exec_from_no_open (s : string) :
  has_open s = false -> forall fuel pos, exec_from PLACEHOLDER fuel pos s = None.
Proof.
  induction s as [|a s IH]; intros H fuel pos.
  - destruct fuel; reflexivity.
  - rewrite has_open_cons in H. apply orb_false_iff in H. destruct H as [Ha Hs].
    destruct fuel as [|fuel]; cbn [exec_from];
      rewrite placeholder_needs_braces by exact Ha; [reflexivity|].
    now apply IH.
Qed.

Lemma exec_from_skip_text (pre : string) :
  has_open (pre ++ "{") = false ->
  forall fuel pos rest,
    String.length pre <= fuel -> first_is "{" rest = true ->
    exec_from PLACEHOLDER fuel pos (pre ++ rest)
    = exec_from PLACEHOLDER (fuel - String.length pre) (pos + String.length pre) rest.
Proof.
  induction pre as [|a pre IH]; intros H fuel pos rest Hf Hrest.
  - cbn. now rewrite Nat.sub_0_r, Nat.add_0_r.
  - cbn [String.append] in H. rewrite has_open_cons in H.
    apply orb_false_iff in H. destruct H as [Ha Hs].
    destruct fuel as [|fuel]; [cbn in Hf; lia|].
    cbn [String.append exec_from].
    rewrite placeholder_needs_braces.
    2:{ cbn [first_is skipn_str]. now rewrite (first_is_app "{" pre rest Hrest). }
    rewrite (IH Hs) by (cbn in Hf; lia || exact Hrest).
    cbn [String.length Nat.sub]. now rewrite Nat.add_succ_r.
Qed.

(** A lazy [.*?] stops at the first place where the rest of the pattern
    matches. *)
Lemma repeat_lazy_dot {R : Type} (Q : R -> Prop) (key : string) :
  all_chars (fun a => negb (is_line_terminator a)) key = true ->
  forall fuel gi n pos tail cs (k : @cont R),
    String.length key < fuel ->
    (forall w rest p cs', key = w ++ rest -> rest <> "" ->
                          k p (rest ++ tail) cs' = None) ->
    (forall cs', exists x, k (pos + String.length key) tail cs' = Some x /\ Q x) ->
    exists x,
      repeat_matcher false (rmatch Dot gi) (clear_caps gi n) fuel pos
        (key ++ tail) cs k = Some x
      /\ Q x.
Proof.
  induction key as [|a key IH]; intros Hkey fuel gi n pos tail cs k Hf Hnot Hk.
  - destruct fuel as [|fuel]; [cbn in Hf; lia|].
    cbn [repeat_matcher String.append].
    destruct (Hk cs) as (x & Hx & HQ). cbn [String.length] in Hx.
    rewrite Nat.add_0_r in Hx. rewrite Hx. now exists x.
  - destruct fuel as [|fuel]; [cbn in Hf; lia|].
    cbn [all_chars] in Hkey. apply andb_true_iff in Hkey. destruct Hkey as [Ha Hkey].
    apply negb_true_iff in Ha.
    cbn [repeat_matcher].
    rewrite (Hnot "" (String a key) pos cs eq_refl) by discriminate.
    cbn [String.append]. rewrite rmatch_dot_cons, Ha. cbn [String.length].
    rewrite (proj2 (Nat.ltb_lt _ _) (Nat.lt_succ_diag_r _)).
    apply IH.
    + exact Hkey.
    + cbn [String.length] in Hf. lia.
    + intros w rest p cs' -> Hrest. apply (Hnot (String a w) rest p cs'); auto.
    + intros cs'. cbn [String.length] in Hk.
      replace (S pos + String.length key) with (pos + S (String.length key)) by lia.
      apply Hk.
Qed.

Lemma suffix_without (c : ascii) (key w rest : string) :
  includes c key = false -> key = w ++ rest -> rest <> "" ->
  exists a rest', rest = String a rest' /\ Ascii.eqb a c = false.
Proof.
  intros Hn -> Hrest. destruct rest as [|a rest']; [congruence|].
  exists a, rest'. split; [reflexivity|].
  rewrite includes_app in Hn. apply orb_false_iff in Hn. destruct Hn as [_ Hn].
  cbn [includes] in Hn. apply orb_false_iff in Hn. tauto.
Qed.

(** The first placeholder of a text: the match and what it captures. *)
Lemma exec_placeholder (pre key post : string) :
  has_open (pre ++ "{") = false ->
  includes "}" key = false ->
  all_chars (fun a => negb (is_line_terminator a)) key = true ->
  exists m,
    exec_from PLACEHOLDER
      (String.length (pre ++ ("{{" ++ key ++ "}}") ++ post)) 0
      (pre ++ ("{{" ++ key ++ "}}") ++ post) = Some m
    /\ m_index m = String.length pre
    /\ m_end m = String.length pre + String.length ("{{" ++ key ++ "}}")
    /\ m_group m 1 = Some key.
Proof.
  intros Hpre Hkey Hline.
  rewrite (exec_from_skip_text pre Hpre);
    [| rewrite str_length_app; lia | reflexivity].
  set (fuel := String.length (pre ++ ("{{" ++ key ++ "}}") ++ post) - String.length pre).
  cbn [Nat.add].
  assert (Hm : exists m,
             rmatch PLACEHOLDER 0 (String.length pre)
               (("{{" ++ key ++ "}}") ++ post) no_caps
               (final_cont (String.length pre)) = Some m
             /\ (m_index m = String.length pre
                 /\ m_end m = String.length pre + String.length ("{{" ++ key ++ "}}")
                 /\ m_group m 1 = Some key)).
  { unfold PLACEHOLDER. cbn [rmatch lit ngroups Nat.add String.append].
    unfold one_char at 1. rewrite Ascii.eqb_refl.
    unfold one_char at 1. rewrite Ascii.eqb_refl.
    rewrite str_app_assoc.
    apply (repeat_lazy_dot
             (fun m => m_index m = String.length pre
                       /\ m_end m = String.length pre + String.length ("{{" ++ key ++ "}}")
                       /\ m_group m 1 = Some key) key Hline).
    - rewrite str_length_app. lia.
    - intros w rest p cs' Hw Hrest.
      destruct (suffix_without "}" key w rest Hkey Hw Hrest) as (a & rest' & -> & Ha).
      cbn [String.append]. unfold one_char at 1. now rewrite (Ascii.eqb_sym "}" a), Ha.
    - intros cs'. cbn [String.append]. unfold one_char at 1. rewrite Ascii.eqb_refl.
      unfold one_char at 1. rewrite Ascii.eqb_refl.
      eexists. split; [reflexivity|]. unfold final_cont. cbn [m_index m_end].
      split; [reflexivity|]. split.
      + cbn [String.append String.length]. rewrite str_length_app.
        cbn [String.length]. lia.
      + unfold m_group. cbn [m_caps Nat.sub]. unfold set_cap. cbn [Nat.eqb].
        replace (S (S (String.length pre)) + String.length key
                 - S (S (String.length pre))) with (String.length key) by lia.
        now rewrite firstn_str_app. }
  destruct Hm as (m & Hm & Hprops). exists m. split; [|exact Hprops].
  now apply exec_from_here.
Qed.

(** X19. A text without [{{] is returned as it is, whatever the data. *)
Theorem populateTemplate_without_placeholder (template : string) (data : value) :
  has_open template = false ->
  populateTemplate template data = (Normal template, []).
Proof.
  intros H. unfold populateTemplate, replace_all. cbn [replace_all_from].
  now rewrite (exec_from_no_open template H).
Qed.

Lemma populateTemplate_without_placeholder_witness :
  populateTemplate default_document VNull = (Normal default_document, []).
Proof.
  apply (populateTemplate_without_placeholder default_document VNull). reflexivity.
Defined.

(** X20. For a template of ASCII characters and a plain object as data,
    whose values print as they are written: the first placeholder
    [{{key}}] is replaced by the string form of the member [key] of the
    data, own or inherited from [Object.prototype], or kept with a
    warning when the data has no such member, and the rest of the text is
    populated in the same way. *)
Theorem populateTemplate_first_placeholder (pre key post : string) (o : obj) :
  ascii_text (pre ++ ("{{" ++ key ++ "}}") ++ post) = true ->
  forallb (fun kv => prints_plainly (snd kv)) o = true ->
  has_open (pre ++ "{") = false ->
  includes "}" key = false ->
  all_chars (fun a => negb (is_line_terminator a)) key = true ->
  populateTemplate (pre ++ ("{{" ++ key ++ "}}") ++ post) (VObj o)
  = match placeholder_value (VObj o) key with
    | (Throw e, evs) => (Throw e, evs)
    | (Normal text, evs) =>
        match populateTemplate post (VObj o) with
        | (Normal tail, evs') => (Normal (pre ++ text ++ tail), (evs ++ evs')%list)
        | (Throw e, evs') => (Throw e, (evs ++ evs')%list)
        end
    end
  /\ placeholder_value (VObj o) key
     = match get o key with
       | Some v => (Normal (to_string v), [])
       | None =>
           if inherited_name key then (Normal (inherited_text key), [])
           else (Normal ("{{" ++ key ++ "}}"),
                 [say warn ("Missing data for placeholder: " ++ key)])
       end.
Proof.
  intros _ _ Hpre Hkey Hline. split;
    [| unfold placeholder_value, lookup_in;
       destruct (get o key); [reflexivity|];
       now destruct (inherited_name key)].
  set (data := VObj o).
  destruct (exec_placeholder pre key post Hpre Hkey Hline) as (m & E & Hi & He & Hg).
  unfold populateTemplate.
  match goal with
  | |- replace_all _ ?f _ = _ =>
      rewrite (replace_all_step PLACEHOLDER f eq_refl (fun d m' => eq_refl)
                 pre ("{{" ++ key ++ "}}") post m ltac:(discriminate) E Hi He)
  end.
  rewrite Hg. cbn [string_or_undefined]. unfold placeholder_value.
  destruct (lookup_in data key) as [[v|]|e]; reflexivity.
Qed.

Lemma populateTemplate_first_placeholder_witness :
  populateTemplate "name: {{name}}, by {{author}}" (VObj sample_app)
  = (Normal "name: demo, by {{author}}",
     [say warn "Missing data for placeholder: author"]).
Proof.
  refine (eq_trans
            (proj1 (populateTemplate_first_placeholder "name: " "name"
                      ", by {{author}}" sample_app
                      eq_refl eq_refl eq_refl eq_refl eq_refl)) _).
  reflexivity.
Defined.

(** ** utils.js: [ensureSetup] *)

Lemma insert_sorted_forall {A : Type} (Q : A -> Prop) (leb : A -> A -> bool)
    (x : A) (l : list A) :
  Q x -> Forall Q l -> Forall Q (insert_sorted leb x l).
Proof.
  intros Hx Hl. induction Hl as [|y l Hy Hl IH]; cbn [insert_sorted].
  - now constructor.
  - destruct (leb y x); constructor; auto.
Qed.

Lemma sort_by_forall {A : Type} (Q : A -> Prop) (leb : A -> A -> bool) (l : list A) :
  Forall Q l -> Forall Q (sort_by leb l).
Proof.
  unfold sort_by. intros Hl.
  assert (H : forall acc, Forall Q acc ->
                Forall Q (fold_left (fun acc x => insert_sorted leb x acc) l acc)).
  { induction Hl as [|x l Hx Hl IH]; intros acc Hacc; [exact Hacc|].
    cbn [fold_left]. apply IH. now apply insert_sorted_forall. }
  apply H. constructor.
Qed.

Section EnsureSetupFacts.
Context {P : Platform}.

Lemma ensure_items_nothing_to_do (homeDir : string) (items : list blueprint_item)
    (createdPaths : list string) (w : world P) :
  Forall (nothing_to_do homeDir (w_fs w)) items ->
  ensure_items homeDir items createdPaths w = (None, createdPaths, w).
Proof.
  induction 1 as [|item items Hitem _ IH]; [reflexivity|].
  cbn [ensure_items]. destruct Hitem as [[Ht Hex] | [Hfolder Hfile]].
  - now rewrite Ht, Hex.
  - rewrite (proj2 (String.eqb_neq _ _) Hfolder), (proj2 (String.eqb_neq _ _) Hfile).
    exact IH.
Qed.

(** X21. When every folder of the blueprint exists, [ensureSetup] creates
    nothing, returns no path and sends no event: the call can be repeated.
    Entries that are neither folders nor files are passed over. *)
Theorem ensureSetup_nothing_to_do :
  forall (homeDir : string) (content : list blueprint_item) (w : world P),
    Forall (nothing_to_do homeDir (w_fs w)) content ->
    ensureSetup homeDir (Some content) w = (Normal [], w).
Proof.
  intros homeDir content w H. unfold ensureSetup.
  rewrite (ensure_items_nothing_to_do homeDir _ [] w); [reflexivity|].
  now apply sort_by_forall.
Qed.

End EnsureSetupFacts.

Lemma ensureSetup_nothing_to_do_witness :
  ensureSetup (P := mem_platform) "/home/user"
    (Some [Item "folder" "logs" None VNull; Item "link" "latest" None VNull])
    (start (P := mem_platform) (MemFs [] ["/home/user/logs"; "/home/user"]))
  = (Normal [], start (P := mem_platform) (MemFs [] ["/home/user/logs"; "/home/user"])).
Proof.
  apply (ensureSetup_nothing_to_do (P := mem_platform)).
  constructor; [|constructor; [|constructor]].
  - left. split; reflexivity.
  - right. split; discriminate.
Defined.

(** ** index.js: [wrapAndRun] *)

Lemma full_dictionary_well_formed (finalSetupData : SetupData) :
  forallb well_formed (argsDictionary finalSetupData) = true ->
  forallb well_formed (full_dictionary finalSetupData) = true.
Proof.
  intros H. unfold full_dictionary. rewrite !forallb_app, H.
  destruct (useHelp finalSetupData), (useConfig finalSetupData),
    (useOutputDir finalSetupData); reflexivity.
Qed.

Lemma missing_mandatory_none (dictionary : list descriptor) (mergedData : obj) :
  forallb (fun d => negb (mandatory d)) dictionary = true ->
  missing_mandatory dictionary mergedData = Normal None.
Proof.
  induction dictionary as [|d rest IH]; [reflexivity|]. cbn [forallb missing_mandatory].
  intros H. apply andb_true_iff in H. destruct H as [Hd Hrest].
  apply negb_true_iff in Hd. rewrite Hd. now apply IH.
Qed.

Section WrapAndRunMore.
Context {P : Platform}.
Variable C : @Collaborators P.

(** X22. [wrapAndRun] first calls [getAppInfo]; when that call throws,
    the promise is never settled. When it returns the application's
    description, with a string for its name, and the command line, of
    ASCII tokens, has a token that no descriptor matches (each pattern
    payload of the caller's dictionary having a bracket in its source
    text to read the key from), the run ends there: the unknown argument
    and the failure to read the arguments are reported, in this order,
    the promise resolves to 2, and nothing else is done. *)
Theorem wrapAndRun_unknown_argument :
  forall (callAppInfo : M P obj) (finalSetupData : SetupData)
         (args : list string) (w : world P),
    forallb well_formed (argsDictionary finalSetupData) = true ->
    forallb ascii_text args = true ->
    (exists arg, In arg args /\ arg <> ""
                 /\ existsb (fun d => matches d arg) (full_dictionary finalSetupData)
                    = false) ->
    match callAppInfo w with
    | (Throw e, w1) =>
        wrapAndRun_calling callAppInfo C finalSetupData args w
        = (NeverSettled (Some e), w1)
    | (Normal appInfo, w1) =>
        forall name,
          get appInfo "name" = Some (VStr name) ->
          exists arg,
            In arg args
            /\ wrapAndRun_calling callAppInfo C finalSetupData args w
               = (Resolved (VNum "2"),
                  snd (monitor_all
                         [say error_ ("Unknown argument: " ++ arg);
                          say error_
                            ("Failed reading program arguments. Run "
                             ++ quoted (name ++ " --h") ++ " for documentation.")]
                         w1))
    end.
Proof.
  intros callAppInfo finalSetupData args w Hwf _ Hex.
  unfold wrapAndRun_calling.
  destruct (callAppInfo w) as [[appInfo|e] w1]; [|reflexivity].
  intros name Hname.
  destruct (parse_arguments_unmatched (full_dictionary finalSetupData) args
              (full_dictionary_well_formed _ Hwf) Hex (assign [] []))
    as (arg & Hin & E).
  exists arg. split; [exact Hin|].
  unfold wrapAndRun. cbn [getAppInfo once_app_info_is].
  unfold getArguments. rewrite E, Hname. cbn [fst snd to_string].
  unfold monitor_all, monitor. cbn [snd w_fs w_log w_stdout].
  now rewrite <- app_assoc.
Qed.

(** X23. [wrapAndRun] first calls [getAppInfo]; when that call throws,
    the promise is never settled. When it returns, and help,
    configuration and output directory are switched off, no argument is
    mandatory, and the command line, of ASCII tokens, is parsed with the
    dictionary, written in ASCII, into [cmdArgs]: the promise resolves to
    what [mainFn] returns for the intrinsic defaults overridden by
    [cmdArgs], or to 2, after an error event, when [mainFn] throws. *)
Theorem wrapAndRun_runs_main :
  forall (callAppInfo : M P obj) (finalSetupData : SetupData)
         (args : list string) (w : world P) cmdArgs,
    useHelp finalSetupData = false ->
    useConfig finalSetupData = false ->
    useOutputDir finalSetupData = false ->
    forallb (fun d => negb (mandatory d)) (argsDictionary finalSetupData) = true ->
    forallb ascii_payload (argsDictionary finalSetupData) = true ->
    forallb ascii_text args = true ->
    getArguments (argsDictionary finalSetupData) [] args = (Normal (Some cmdArgs), []) ->
    match callAppInfo w with
    | (Throw e, w1) =>
        wrapAndRun_calling callAppInfo C finalSetupData args w
        = (NeverSettled (Some e), w1)
    | (Normal appInfo, w1) =>
        wrapAndRun_calling callAppInfo C finalSetupData args w
        = (let mergedData :=
             mergeData (intrinsicDefaults finalSetupData) [] [] cmdArgs in
           match mainFn C mergedData w1 with
           | (Normal v, w') => (Resolved v, w')
           | (Throw e, w') =>
               (Resolved (VNum "2"),
                snd (monitor (Event error_
                                ("Error in main function execution: "
                                 ++ error_message e)
                                (Some e)) w'))
           end)
    end.
Proof.
  intros callAppInfo finalSetupData args w cmdArgs Hh Hc Ho Hm _ _ Hparse.
  unfold wrapAndRun_calling.
  destruct (callAppInfo w) as [[appInfo|e] w1]; [|reflexivity].
  set (C1 := once_app_info_is C appInfo w1).
  assert (Hd : full_dictionary finalSetupData = argsDictionary finalSetupData).
  { unfold full_dictionary. rewrite Hh, Hc, Ho. now rewrite !app_nil_r. }
  rewrite (wrapAndRun_validates C1 finalSetupData args w cmdArgs);
    [| now rewrite Hd, Hparse | now rewrite Hh | now rewrite Hc].
  cbn zeta.
  assert (Hw : after_parsing C1 finalSetupData args w = w1).
  { unfold after_parsing, monitor_all. rewrite Hd, Hparse. cbn [snd].
    rewrite app_nil_r. unfold C1. cbn [getAppInfo once_app_info_is snd].
    now destruct w1. }
  assert (Hl : load_and_merge finalSetupData (config_file C1 w)
                 (full_dictionary finalSetupData) cmdArgs
                 (after_parsing C1 finalSetupData args w)
               = (mergeData (intrinsicDefaults finalSetupData) [] [] cmdArgs, w1)).
  { unfold load_and_merge. rewrite Hc, Hw. cbn [andb].
    now destruct (get cmdArgs "config_profile"). }
  rewrite Hl. cbn [fst snd]. rewrite Hd, (missing_mandatory_none _ _ Hm).
  unfold run_main. rewrite Ho. unfold C1. cbn [mainFn once_app_info_is].
  now destruct (mainFn C _ w1) as [[v|e] w'].
Qed.

End WrapAndRunMore.

Lemma wrapAndRun_unknown_argument_witness :
  (exists arg,
     In arg ["--v"; "--bogus"]
     /\ fst (wrapAndRun_calling (fun w => (Normal sample_app, w)) sample_collaborators
               {| showDebugMessages := false; useOutputDir := false;
                  useSessionControl := false; useConfig := false; useHelp := true;
                  argsDictionary := sample_dictionary; intrinsicDefaults := [];
                  configTemplate := ""; outputDirBlueprint := None |}
               ["--v"; "--bogus"] (start (P := mem_platform) sample_fs))
        = Resolved (VNum "2"))
  /\ fst (wrapAndRun_calling
            (fun w => (Throw (TypeError "name.trim is not a function"), w))
            sample_collaborators
            {| showDebugMessages := false; useOutputDir := false;
               useSessionControl := false; useConfig := false; useHelp := true;
               argsDictionary := sample_dictionary; intrinsicDefaults := [];
               configTemplate := ""; outputDirBlueprint := None |}
            ["--v"; "--bogus"] (start (P := mem_platform) sample_fs))
     = NeverSettled (Some (TypeError "name.trim is not a function")).
Proof.
  assert (Hex : exists arg,
             In arg ["--v"; "--bogus"] /\ arg <> ""
             /\ existsb (fun d => matches d arg)
                  (full_dictionary
                     {| showDebugMessages := false; useOutputDir := false;
                        useSessionControl := false; useConfig := false;
                        useHelp := true;
                        argsDictionary := sample_dictionary; intrinsicDefaults := [];
                        configTemplate := ""; outputDirBlueprint := None |})
                = false).
  { exists "--bogus". split; [right; left; reflexivity|].
    split; [discriminate | reflexivity]. }
  split.
  - destruct (wrapAndRun_unknown_argument sample_collaborators
                (fun w => (Normal sample_app, w))
                {| showDebugMessages := false; useOutputDir := false;
                   useSessionControl := false; useConfig := false; useHelp := true;
                   argsDictionary := sample_dictionary; intrinsicDefaults := [];
                   configTemplate := ""; outputDirBlueprint := None |}
                ["--v"; "--bogus"] (start (P := mem_platform) sample_fs)
                eq_refl eq_refl Hex "demo" eq_refl)
      as (arg & Hin & E).
    exists arg. split; [exact Hin|]. now rewrite E.
  - now rewrite (wrapAndRun_unknown_argument sample_collaborators
                   (fun w => (Throw (TypeError "name.trim is not a function"), w))
                   {| showDebugMessages := false; useOutputDir := false;
                      useSessionControl := false; useConfig := false; useHelp := true;
                      argsDictionary := sample_dictionary; intrinsicDefaults := [];
                      configTemplate := ""; outputDirBlueprint := None |}
                   ["--v"; "--bogus"] (start (P := mem_platform) sample_fs)
                   eq_refl eq_refl Hex).
Defined.

Lemma wrapAndRun_runs_main_witness :
  wrapAndRun_calling (fun w => (Normal sample_app, w)) sample_collaborators
    {| showDebugMessages := false; useOutputDir := false;
       useSessionControl := false; useConfig := false; useHelp := false;
       argsDictionary := [Descriptor "Version" (PRegExp (flag_pattern ["version"; "v"]))
                            "Prints app version" false];
       intrinsicDefaults := [("depth", VNum "1")];
       configTemplate := ""; outputDirBlueprint := None |}
    ["--v"] (start (P := mem_platform) sample_fs)
  = (Resolved (VNum "0"), World (P := mem_platform) sample_fs [] ["main ran"]).
Proof.
  refine (eq_trans
            (wrapAndRun_runs_main sample_collaborators
               (fun w => (Normal sample_app, w))
               {| showDebugMessages := false; useOutputDir := false;
                  useSessionControl := false; useConfig := false; useHelp := false;
                  argsDictionary :=
                    [Descriptor "Version" (PRegExp (flag_pattern ["version"; "v"]))
                       "Prints app version" false];
                  intrinsicDefaults := [("depth", VNum "1")];
                  configTemplate := ""; outputDirBlueprint := None |}
               ["--v"] (start (P := mem_platform) sample_fs)
               [("version", VBool true)]
               eq_refl eq_refl eq_refl eq_refl eq_refl eq_refl eq_refl) _).
  reflexivity.
Defined.

(** ** configTools.js: [initializeConfig], the template *)

Lemma set_same (o : obj) (k : string) (v : value) :
  get o k = Some v -> set o k v = o.
Proof.
  induction o as [|[k' v'] o IH]; [discriminate|]. cbn [get set].
  destruct (k' =? k); [now intros [= ->] | intros H; now rewrite IH].
Qed.

Lemma repair_profile_conforming (p : value) :
  conforming_profile p = true -> repair_profile p = (Normal p, []).
Proof.
  unfold conforming_profile, repair_profile.
  destruct p as [| b | n | s | items | o]; try discriminate. cbn [member].
  destruct (get o "name") as [[| b | n | s | items | o']|]; try discriminate.
  destruct (get o "settings") as [[| b | n | s' | items | o']|]; try discriminate.
  reflexivity.
Qed.

Lemma repair_profiles_conforming (l : list value) :
  forallb conforming_profile l = true -> repair_profiles l = (Normal l, []).
Proof.
  induction l as [|p l IH]; [reflexivity|]. cbn [forallb repair_profiles].
  intros H. apply andb_true_iff in H. destruct H as [Hp Hl].
  now rewrite (repair_profile_conforming p Hp), (IH Hl).
Qed.

Section ConformingTemplate.
Context {P : Platform}.
Hypothesis read_after_write :
  forall fs p c fs',
    writeFileSync P fs p c = Normal fs' -> readFileSync P fs' p = Normal c.

(** X24. A template that already is a configuration document is taken as
    it is, without a warning. When its numbers are plain numerals, its
    keys and strings ASCII text, no key an array index, and it holds no
    placeholder, the file [initializeConfig] creates holds the document
    as [JSON.stringify] writes it with an indentation of two spaces. *)
Theorem initializeConfig_keeps_conforming_template :
  forall (filePath template : string) (doc data : value) (fs : fs_state P),
    JSON_parse template = Normal doc ->
    conforming_document doc = true ->
    written_as_is doc = true ->
    has_open (JSON_stringify doc) = false ->
    let w1 := snd (initializeConfig filePath template data (start fs)) in
    In (say info ("Created file: " ++ config_path P filePath)) (w_log w1) ->
    validate_template template = (Normal doc, [])
    /\ readFileSync P (w_fs w1) (config_path P filePath)
       = Normal (JSON_stringify doc).
Proof.
  intros filePath template doc data fs Hparse Hdoc _ Hopen w1 Hcreated.
  assert (Hv : validate_template template = (Normal doc, [])).
  { unfold validate_template. rewrite Hparse.
    unfold conforming_document in Hdoc.
    destruct doc as [| b | n | s | items | o]; try discriminate.
    cbn [truthy member].
    destruct (get o "profiles") as [[| b | n | s | [|p ps] |]|] eqn:Hp;
      try discriminate.
    rewrite (repair_profiles_conforming (p :: ps) Hdoc).
    cbn [assign_member app]. now rewrite (set_same o "profiles" _ Hp). }
  split; [exact Hv|].
  destruct (initializeConfig_created filePath template data fs Hcreated)
    as (fs1 & content & Htext & Hwrite).
  fold w1 in Hwrite.
  assert (Hcontent : content = JSON_stringify doc).
  { unfold config_text in Htext. rewrite Hv in Htext. cbn [fst] in Htext.
    unfold populateTemplate, replace_all in Htext.
    cbn [replace_all_from] in Htext.
    rewrite (exec_from_no_open (JSON_stringify doc) Hopen) in Htext.
    now injection Htext. }
  subst content. exact (read_after_write _ _ _ _ Hwrite).
Qed.

End ConformingTemplate.

Lemma initializeConfig_keeps_conforming_template_witness :
  let w1 := snd (initializeConfig (P := mem_platform) "/home/user/demo.config"
                   (sample_config "raw") VNull
                   (start (P := mem_platform) sample_fs)) in
  readFileSync mem_platform (w_fs w1) "/home/user/demo.config"
  = Normal (sample_config "raw").
Proof.
  cbn zeta.
  refine (proj2 (initializeConfig_keeps_conforming_template (P := mem_platform)
                   mem_read_after_write "/home/user/demo.config"
                   (sample_config "raw")
                   (VObj [("profiles",
                           VArr [VObj [("name", VStr "dev");
                                       ("settings",
                                        VObj [("parseModel", VStr "raw")])]])])
                   VNull sample_fs eq_refl eq_refl eq_refl eq_refl _)).
  vm_compute. left. reflexivity.
Defined.

(** X25. A template that is an object without a usable [profiles] array is
    completed with the default profiles: one warning, a document that
    satisfies the invariant, and every other key of the template kept. *)
Theorem initializeConfig_injects_default_profiles :
  forall (template : string) (o : obj),
    JSON_parse template = Normal (VObj o) ->
    (forall p ps, get o "profiles" <> Some (VArr (p :: ps))) ->
    let doc := VObj (set o "profiles" defaultProfiles) in
    validate_template template
    = (Normal doc,
       [say warn ("Invalid or missing " ++ quoted "profiles"
                  ++ " array in template. Injecting default profiles structure.")])
    /\ conforming_document doc = true
    /\ forall k, k <> "profiles" -> get (set o "profiles" defaultProfiles) k = get o k.
Proof.
  intros template o Hparse Hno doc. split; [|split].
  - unfold validate_template. rewrite Hparse. cbn [truthy member].
    destruct (get o "profiles") as [[| b | n | s | [|p ps] |]|] eqn:Hp;
      try reflexivity.
    now elim (Hno p ps).
  - unfold doc, conforming_document. now rewrite get_set_same.
  - intros k Hk. now apply get_set_other, not_eq_sym.
Qed.

Lemma initializeConfig_injects_default_profiles_witness :
  validate_template sample_template
  = (Normal (VObj [("appInfo", VObj [("appName", VStr "{{name}}");
                                     ("appVersion", VStr "{{version}}")]);
                   ("profiles", defaultProfiles)]),
     [say warn ("Invalid or missing " ++ quoted "profiles"
                ++ " array in template. Injecting default profiles structure.")]).
Proof.
  refine (proj1 (initializeConfig_injects_default_profiles sample_template
                   [("appInfo", VObj [("appName", VStr "{{name}}");
                                      ("appVersion", VStr "{{version}}")])]
                   eq_refl _)).
  intros p ps. discriminate.
Defined.

Section DefaultConfiguration.
Context {P : Platform}.
Hypothesis read_after_write :
  forall fs p c fs',
    writeFileSync P fs p c = Normal fs' -> readFileSync P fs' p = Normal c.

(** X26. The file [initializeConfig] creates from a template that is not
    JSON (such as the empty template [wrapAndRun] has by default) holds the
    profile [default_profile] only: reading the profile [default] from it,
    as [wrapAndRun] does on every run, gives [null] and a debug event. *)
Theorem initializeConfig_default_file_has_no_default_profile :
  forall (filePath template : string) (data : value) (dictionary : list descriptor)
         (fs : fs_state P) (e : error),
    JSON_parse template = Throw e ->
    let w1 := snd (initializeConfig filePath template data (start fs)) in
    In (say info ("Created file: " ++ config_path P filePath)) (w_log w1) ->
    readFileSync P (w_fs w1) (config_path P filePath) = Normal default_document
    /\ getConfigData (config_path P filePath) "default" dictionary w1
       = (Normal None,
          snd (monitor
                 (say debug ("Profile " ++ quoted "default"
                             ++ " not found in configuration file: "
                             ++ config_path P filePath)) w1)).
Proof.
  intros filePath template data dictionary fs e Hparse w1 Hcreated.
  destruct (initializeConfig_created filePath template data fs Hcreated)
    as (fs1 & content & Htext & Hwrite).
  fold w1 in Hwrite.
  assert (Hcontent : content = default_document).
  { unfold config_text in Htext.
    rewrite (validate_template_invalid_json template e Hparse) in Htext.
    cbn [fst] in Htext.
    change (JSON_stringify defaultConfigStructure) with default_document in Htext.
    rewrite populateTemplate_default_document in Htext. now injection Htext. }
  subst content.
  assert (Hread : readFileSync P (w_fs w1) (config_path P filePath)
                  = Normal default_document)
    by exact (read_after_write _ _ _ _ Hwrite).
  split; [exact Hread|].
  unfold getConfigData, try_catch, bind, lift, fs_read, ret.
  rewrite Hread, default_document_parses. reflexivity.
Qed.

End DefaultConfiguration.

Lemma initializeConfig_default_file_has_no_default_profile_witness :
  let w1 := snd (initializeConfig (P := mem_platform) "/home/user/demo.config" ""
                   (VObj sample_app) (start (P := mem_platform) sample_fs)) in
  fst (getConfigData (P := mem_platform) "/home/user/demo.config" "default" [] w1)
  = Normal None.
Proof.
  cbn zeta.
  destruct (initializeConfig_default_file_has_no_default_profile (P := mem_platform)
              mem_read_after_write "/home/user/demo.config" "" (VObj sample_app) []
              sample_fs (SyntaxError "Unexpected token in JSON") eq_refl)
    as [_ E].
  - vm_compute. right. left. reflexivity.
  - change (config_path mem_platform "/home/user/demo.config")
      with "/home/user/demo.config" in E.
    now rewrite E.
Defined.

(** ** argTools.js: [getHelp] *)

Lemma rmatch_seq_eq {R : Type} (r1 r2 : regex) gi pos s cs (k : @cont R) :
  rmatch (Seq r1 r2) gi pos s cs k
  = rmatch r1 gi pos s cs
      (fun pos' s' cs' => rmatch r2 (gi + ngroups r1) pos' s' cs' k).
Proof. reflexivity. Qed.

Lemma rmatch_group_eq {R : Type} (r : regex) gi pos s cs (k : @cont R) :
  rmatch (Group r) gi pos s cs k
  = rmatch r (S gi) pos s cs
      (fun pos' s' cs' =>
         k pos' s' (set_cap gi (Some (firstn_str (pos' - pos) s)) cs')).
Proof. reflexivity. Qed.

(** A match of [/\(([^\)]+)\)/] has its group. *)
Lemma exec_arg_name_group (s : string) (m : match_result) :
  exec REGEX_ARG_NAME s = Some m -> exists t, m_group m 1 = Some t.
Proof.
  intros H. apply exec_inv in H. destruct H as (pre & suf & -> & H).
  unfold REGEX_ARG_NAME in H. rewrite rmatch_seq_eq in H.
  apply rmatch_sound in H. destruct H as (w & s1 & cs1 & _ & H & _).
  rewrite rmatch_seq_eq, rmatch_group_eq in H.
  apply rmatch_sound in H. destruct H as (w2 & s2 & cs2 & _ & H & _).
  apply rmatch_sound in H. destruct H as (w3 & s3 & cs3 & _ & H & Hcs).
  unfold final_cont in H. injection H as <-.
  unfold m_group. cbn [m_caps Nat.sub]. rewrite Hcs by (cbn; lia).
  unfold set_cap. cbn. eauto.
Qed.

Lemma match_all_nonempty (r : regex) (s : string) (m : match_result) :
  exec r s = Some m -> match_all r s <> [].
Proof.
  unfold exec, match_all. intros H. cbn [match_all_from]. rewrite H.
  destruct (m_end m =? m_index m)%nat; [|discriminate].
  destruct (skipn_str (m_end m - 0) s); discriminate.
Qed.

Lemma accepted_values_returns (group : string) :
  exists line, ArgTools.accepted_values group = Normal line.
Proof.
  unfold ArgTools.accepted_values.
  destruct (exec REGEX_ARG_NAME group) as [m|] eqn:E; [|now eexists].
  destruct (exec_arg_name_group group m E) as (t & ->). now eexists.
Qed.

(** A turn of the loop throws nothing, and sends an event only for a
    payload that is neither a string nor a pattern. *)
Lemma help_entry_returns (d : descriptor) :
  exists text,
    ArgTools.help_entry d
    = (Normal text, if is_other d then [invalid_payload d] else [])
    /\ (is_other d = true -> text = "").
Proof.
  unfold ArgTools.help_entry, is_other.
  destruct (payload d) as [p | r | v].
  - eexists. split; [reflexivity | discriminate].
  - destruct (exec REGEX_ARG_NAME (ArgTools.pattern_source r)) as [m|] eqn:E.
    + destruct (exec_arg_name_group _ m E) as (names & ->).
      pose proof (match_all_nonempty _ _ _ E) as Hne.
      destruct (match_all REGEX_ARG_NAME (ArgTools.pattern_source r))
        as [|first [|second more]]; [congruence | |].
      * eexists. split; [reflexivity | discriminate].
      * destruct (accepted_values_returns second) as (line & ->).
        eexists. split; [reflexivity | discriminate].
    + eexists. split; [reflexivity | discriminate].
  - eexists. split; [reflexivity | reflexivity].
Qed.

Lemma help_loop_skips_invalid (dictionary : list descriptor) :
  forall helpString,
    snd (ArgTools.help_loop dictionary helpString)
    = map invalid_payload (filter is_other dictionary)
    /\ ArgTools.help_loop (filter (fun d => negb (is_other d)) dictionary) helpString
       = (fst (ArgTools.help_loop dictionary helpString), []).
Proof.
  induction dictionary as [|d rest IH]; intros helpString; [now split|].
  cbn [ArgTools.help_loop filter].
  destruct (help_entry_returns d) as (text & E & Hother). rewrite E.
  destruct (is_other d) eqn:Hd; cbn [negb].
  - rewrite (Hother eq_refl), str_app_nil_r.
    destruct (IH helpString) as [IH1 IH2].
    destruct (ArgTools.help_loop rest helpString) as [h' evs'].
    cbn [fst snd map app] in *. now rewrite IH1.
  - cbn [ArgTools.help_loop]. rewrite E.
    destruct (IH (helpString ++ text)) as [IH1 IH2]. rewrite IH2.
    destruct (ArgTools.help_loop rest (helpString ++ text)) as [h' evs'].
    cbn [fst snd app] in *. now split.
Qed.

(** X27. [getHelp] sends one error for each descriptor whose payload is
    neither a string nor a pattern, and nothing else: its [catch] is never
    entered. Such a descriptor adds nothing to the text. *)
Theorem getHelp_reports_invalid_payloads :
  forall dictionary : list descriptor,
    snd (ArgTools.getHelp dictionary)
    = map invalid_payload (filter is_other dictionary)
    /\ fst (ArgTools.getHelp dictionary)
       = fst (ArgTools.getHelp (filter (fun d => negb (is_other d)) dictionary)).
Proof.
  intros dictionary. unfold ArgTools.getHelp.
  destruct (help_loop_skips_invalid dictionary "") as [H1 H2]. rewrite H2.
  destruct (ArgTools.help_loop dictionary "") as [h evs]. cbn [fst snd] in *.
  now split.
Qed.

(** *** Trimming *)

Lemma visible_not_space (a : ascii) : is_visible a = true -> is_space a = false.
Proof.
  unfold is_visible, is_space. intros H. apply andb_true_iff in H.
  destruct H as [H1 H2]. apply Nat.leb_le in H1.
  apply orb_false_iff. split.
  - apply Nat.eqb_neq. lia.
  - apply andb_false_iff. right. apply Nat.leb_gt. lia.
Qed.

Lemma rev_str_app (a b acc : string) :
  rev_str (a ++ b) acc = rev_str b (rev_str a acc).
Proof. revert acc. induction a as [|x a IH]; intros acc; [reflexivity | apply IH]. Qed.

Lemma rev_str_acc (s acc : string) : rev_str s acc = rev_str s "" ++ acc.
Proof.
  revert acc. induction s as [|x s IH]; intros acc; [reflexivity|].
  cbn [rev_str]. rewrite (IH (String x acc)), (IH (String x "")).
  now rewrite str_app_assoc.
Qed.

Lemma rev_str_involutive (s : string) : rev_str (rev_str s "") "" = s.
Proof.
  induction s as [|x s IH]; [reflexivity|]. cbn [rev_str].
  rewrite (rev_str_acc s (String x "")), rev_str_app, IH. reflexivity.
Qed.

Lemma strip_spaces_visible wide2 wide3 (s : string) :
  (forall a b, is_visible a = true -> wide2 a b = false) ->
  (forall a b c, is_visible a = true -> wide3 a b c = false) ->
  starts_visible s = true -> strip_spaces wide2 wide3 s = s.
Proof.
  intros H2 H3. destruct s as [|a s1]; [discriminate|].
  cbn [starts_visible strip_spaces]. intros H.
  rewrite (visible_not_space a H).
  destruct s1 as [|b s2]; [reflexivity|]. rewrite (H2 a b H).
  destruct s2 as [|c s3]; [reflexivity|]. now rewrite (H3 a b c H).
Qed.

Lemma visible_bound (a : ascii) : is_visible a = true -> nat_of_ascii a <= 126.
Proof.
  unfold is_visible. intros H. apply andb_true_iff in H. destruct H as [_ H].
  now apply Nat.leb_le.
Qed.

Ltac beyond_ascii z :=
  repeat match goal with
    | |- context [(z =? ?n)%nat] =>
        replace (z =? n)%nat with false by (symmetry; apply Nat.eqb_neq; lia)
    | |- context [(?n <=? z)%nat] =>
        replace (n <=? z)%nat with false by (symmetry; apply Nat.leb_gt; lia)
    end;
  rewrite ?andb_false_r; reflexivity.

Lemma trim_start_visible (s : string) : starts_visible s = true -> trim_start s = s.
Proof.
  apply strip_spaces_visible.
  - intros a b H. apply visible_bound in H. unfold is_wide_space2.
    beyond_ascii (nat_of_ascii a).
  - intros a b c H. apply visible_bound in H. unfold is_wide_space3. cbn zeta.
    beyond_ascii (nat_of_ascii a).
Qed.

Lemma trim_start_reversed_visible (s : string) :
  starts_visible s = true -> trim_start_reversed s = s.
Proof.
  apply strip_spaces_visible.
  - intros a b H. apply visible_bound in H. unfold is_wide_space2.
    beyond_ascii (nat_of_ascii a).
  - intros a b c H. apply visible_bound in H. unfold is_wide_space3. cbn zeta.
    beyond_ascii (nat_of_ascii a).
Qed.

Lemma starts_visible_rev (s : string) : starts_visible (rev_str s "") = ends_visible s.
Proof.
  induction s as [|x s IH]; [reflexivity|]. cbn [rev_str].
  rewrite rev_str_acc. destruct s as [|y s']; [reflexivity|].
  change (ends_visible (String x (String y s'))) with (ends_visible (String y s')).
  rewrite <- IH. destruct (rev_str (String y s') "") eqn:E; [|reflexivity].
  apply (f_equal (fun t => rev_str t "")) in E.
  rewrite rev_str_involutive in E. discriminate.
Qed.

(** A text that begins and ends with a visible character, followed by
    a blank line: trimming gives the text. *)
Lemma trim_block (s : string) :
  starts_visible s = true -> ends_visible s = true -> trim (s ++ nl ++ nl) = s.
Proof.
  intros Hs He. unfold trim.
  rewrite (trim_start_visible (s ++ nl ++ nl)) by (destruct s; [discriminate | exact Hs]).
  rewrite rev_str_app.
  change (rev_str (nl ++ nl) (rev_str s ""))
    with (String "010" (String "010" (rev_str s ""))).
  change (trim_start_reversed (String "010" (String "010" (rev_str s ""))))
    with (trim_start_reversed (rev_str s "")).
  rewrite trim_start_reversed_visible by (now rewrite starts_visible_rev).
  apply rev_str_involutive.
Qed.

Lemma ends_visible_app_r (a b : string) : ends_visible b = true -> ends_visible (a ++ b) = true.
Proof.
  intros H. induction a as [|x a IH]; [exact H|].
  cbn [String.append]. destruct (a ++ b); [discriminate IH | exact IH].
Qed.

Lemma entry_text_block (f a : string) (d : descriptor) :
  ArgTools.entry_text f a d = help_block f a d ++ nl ++ nl.
Proof.
  unfold ArgTools.entry_text, help_block.
  now rewrite !str_app_assoc.
Qed.

(** *** Scanning a source for its brackets *)

Lemma rmatch_arg_name_span (start pos : nat) (body tail : string) :
  body <> "" -> includes ")" body = false ->
  exists m,
    rmatch REGEX_ARG_NAME 0 pos (String "(" (body ++ String ")" tail)) no_caps
      (final_cont start) = Some m
    /\ (m_index m = start
        /\ m_end m = pos + String.length body + 2
        /\ m_caps m 0 = Some body).
Proof.
  intros Hne Hn. destruct body as [|b body']; [congruence|].
  pose proof Hn as Hn'.
  cbn [includes] in Hn. apply orb_false_iff in Hn. destruct Hn as [Hb Hn].
  unfold REGEX_ARG_NAME.
  cbn [rmatch one_char String.append ngroups Nat.add].
  rewrite Ascii.eqb_refl, Hb. cbn [negb].
  apply (repeat_notchr ")"
           (fun m => m_index m = start
                     /\ m_end m = pos + String.length (String b body') + 2
                     /\ m_caps m 0 = Some (String b body')) body' Hn _ 1 0).
  - rewrite str_length_app. lia.
  - intros cs'. cbn [one_char]. rewrite Ascii.eqb_refl.
    eexists. split; [reflexivity|].
    cbn [m_index m_end m_caps String.length]. split; [reflexivity|]. split; [lia|].
    unfold set_cap. cbn [Nat.eqb].
    replace (S (S pos) + String.length body' - S pos)
      with (String.length (String b body')) by (cbn [String.length]; lia).
    f_equal. exact (firstn_str_app (String b body') (String ")" tail)).
Qed.

(** The leftmost bracket of a text: where it is found and what it
    holds. *)
Lemma exec_from_bracket (pre body tail : string) :
  includes "(" pre = false -> body <> "" -> includes ")" body = false ->
  forall fuel pos,
    String.length pre <= fuel ->
    exists m,
      exec_from REGEX_ARG_NAME fuel pos (pre ++ "(" ++ body ++ ")" ++ tail) = Some m
      /\ m_index m = pos + String.length pre
      /\ m_end m = pos + String.length pre + String.length body + 2
      /\ m_group m 1 = Some body.
Proof.
  intros Hpre Hne Hn fuel pos Hf.
  rewrite (exec_from_skip pre Hpre) by exact Hf.
  destruct (rmatch_arg_name_span (pos + String.length pre) (pos + String.length pre)
              body tail Hne Hn) as (m & Hm & Hi & He & Hc).
  exists m. unfold m_group. cbn [Nat.sub].
  destruct (fuel - String.length pre);
    cbn [exec_from String.append]; unfold final_cont in Hm; rewrite Hm; auto.
Qed.

Lemma exec_from_no_bracket (s : string) :
  includes "(" s = false ->
  forall fuel pos, exec_from REGEX_ARG_NAME fuel pos s = None.
Proof.
  induction s as [|a s IH]; intros Hn fuel pos.
  - destruct fuel; reflexivity.
  - cbn [includes] in Hn. apply orb_false_iff in Hn. destruct Hn as [Ha Hn].
    destruct fuel as [|fuel]; cbn [exec_from]; unfold REGEX_ARG_NAME at 1;
      cbn [rmatch one_char]; rewrite Ascii.eqb_sym, Ha; [reflexivity|].
    apply (IH Hn).
Qed.

Lemma match_all_from_bracket (pre body tail : string) :
  includes "(" pre = false -> body <> "" -> includes ")" body = false ->
  forall fuel pos,
    match_all_from REGEX_ARG_NAME (S fuel) pos (pre ++ "(" ++ body ++ ")" ++ tail)
    = ("(" ++ body ++ ")")
      :: match_all_from REGEX_ARG_NAME fuel
           (pos + String.length pre + String.length body + 2) tail.
Proof.
  intros Hpre Hne Hn fuel pos. cbn [match_all_from].
  destruct (exec_from_bracket pre body tail Hpre Hne Hn
              (String.length (pre ++ "(" ++ body ++ ")" ++ tail)) pos)
    as (m & Hm & Hi & He & _).
  { rewrite str_length_app. lia. }
  rewrite Hm, Hi, He.
  replace (pos + String.length pre + String.length body + 2 =? pos + String.length pre)%nat
    with false by (symmetry; apply Nat.eqb_neq; lia).
  replace (pos + String.length pre + String.length body + 2 - (pos + String.length pre))
    with (String.length ("(" ++ body ++ ")")).
  2:{ cbn [String.append String.length]. rewrite str_length_app. cbn [String.length]. lia. }
  replace (pos + String.length pre - pos) with (String.length pre) by lia.
  replace (pos + String.length pre + String.length body + 2 - pos)
    with (String.length (pre ++ "(" ++ body ++ ")")).
  2:{ rewrite str_length_app. cbn [String.append String.length].
      rewrite str_length_app. cbn [String.length]. lia. }
  rewrite skipn_str_app.
  replace (pre ++ "(" ++ body ++ ")" ++ tail) with ((pre ++ "(" ++ body ++ ")") ++ tail).
  2:{ rewrite !str_app_assoc. reflexivity. }
  rewrite skipn_str_app.
  replace ("(" ++ body ++ ")" ++ tail) with (("(" ++ body ++ ")") ++ tail).
  2:{ rewrite !str_app_assoc. reflexivity. }
  rewrite firstn_str_app. reflexivity.
Qed.

Lemma match_all_from_no_bracket (s : string) :
  includes "(" s = false ->
  forall fuel pos, match_all_from REGEX_ARG_NAME fuel pos s = [].
Proof.
  intros Hn [|fuel] pos; [reflexivity|].
  cbn [match_all_from]. now rewrite (exec_from_no_bracket s Hn).
Qed.

Lemma source_without_bracket (v : regex) :
  includes ")" (source v) = false -> source v = source_at 0 v.
Proof.
  unfold source. cbn zeta.
  destruct (String.eqb_spec (source_at 0 v) ""); [discriminate | reflexivity].
Qed.

Lemma source_value_pattern (aliases : list string) (v : regex) :
  forallb is_plain_name aliases = true ->
  includes ")" (source v) = false ->
  source (value_pattern aliases v)
  = "^--(" ++ join "|" aliases ++ ")=(" ++ source v ++ ")$".
Proof.
  intros Hp Hv. unfold value_pattern.
  rewrite (source_named_pattern dashes aliases _ Hp).
  rewrite (source_without_bracket v Hv).
  change (source_at 1 dashes) with "^--".
  change (source_at 1 (Seq (Chr "=") (Seq (Group v) Eol)))
    with ("=" ++ ("(" ++ source_at 0 v ++ ")") ++ "$").
  now rewrite !str_app_assoc.
Qed.

Lemma replace_char_app (c : ascii) (rep a b : string) :
  replace_char c rep (a ++ b) = replace_char c rep a ++ replace_char c rep b.
Proof.
  induction a as [|x a IH]; [reflexivity|].
  cbn [String.append replace_char]. now rewrite IH, str_app_assoc.
Qed.

Lemma replace_char_without (c : ascii) (rep a : string) :
  includes c a = false -> replace_char c rep a = a.
Proof.
  induction a as [|x a IH]; intros Hn; [reflexivity|].
  cbn [includes] in Hn. apply orb_false_iff in Hn. destruct Hn as [Hx Hn].
  cbn [replace_char]. now rewrite Hx, (IH Hn).
Qed.

Lemma replace_bar_join (rep : string) (l : list string) :
  forallb is_plain_name l = true ->
  replace_char "|" rep (join "|" l) = join rep l.
Proof.
  induction l as [|a l IH]; intros Hp; [reflexivity|].
  cbn [forallb] in Hp. apply andb_true_iff in Hp. destruct Hp as [Ha Hp].
  apply is_plain_name_chars in Ha. destruct Ha as [_ Ha].
  assert (Hn : includes "|" a = false) by now apply includes_plain.
  destruct l as [|b l'].
  - cbn [join]. now apply replace_char_without.
  - change (join "|" (a :: b :: l')) with (a ++ "|" ++ join "|" (b :: l')).
    change (join rep (a :: b :: l')) with (a ++ rep ++ join rep (b :: l')).
    rewrite replace_char_app, (replace_char_without _ _ _ Hn).
    cbn [String.append replace_char]. rewrite Ascii.eqb_refl, (IH Hp). reflexivity.
Qed.

Lemma includes_bar_join (l : list string) :
  2 <= length l -> includes "|" (join "|" l) = true.
Proof.
  destruct l as [|a [|b l']]; cbn [length]; try lia. intros _.
  change (join "|" (a :: b :: l')) with (a ++ "|" ++ join "|" (b :: l')).
  rewrite includes_app. cbn [String.append includes]. rewrite Ascii.eqb_refl.
  cbn [orb]. apply orb_true_r.
Qed.

Lemma starts_visible_app (a b : string) : starts_visible a = true -> starts_visible (a ++ b) = true.
Proof. destruct a; [discriminate | auto]. Qed.

Lemma accepted_values_bracket (vsrc : string) :
  vsrc <> "" -> includes ")" vsrc = false ->
  ArgTools.accepted_values ("(" ++ vsrc ++ ")")
  = Normal (if includes "|" vsrc
            then "Accepted values: " ++ replace_char "|" ", " vsrc
            else "").
Proof.
  intros Hne Hn. unfold ArgTools.accepted_values, exec.
  destruct (exec_from_bracket "" vsrc "" eq_refl Hne Hn
              (String.length ("(" ++ vsrc ++ ")")) 0 (Nat.le_0_l _))
    as (m & Hm & _ & _ & Hg).
  change ("" ++ "(" ++ vsrc ++ ")" ++ "") with ("(" ++ vsrc ++ ")") in Hm.
  now rewrite Hm, Hg.
Qed.

Lemma help_entry_flag (d : descriptor) (aliases : list string) :
  payload d = PRegExp (flag_pattern aliases) ->
  well_named aliases ->
  ArgTools.help_entry d
  = (Normal (ArgTools.entry_text ("--" ++ join " or --" aliases) "" d), []).
Proof.
  intros Hd Hw. pose proof Hw as [Hne Hp].
  assert (Hsrc : ArgTools.pattern_source (flag_pattern aliases)
                 = "^--" ++ "(" ++ join "|" aliases ++ ")" ++ "$").
  { unfold ArgTools.pattern_source. now rewrite (source_flag_pattern aliases Hp). }
  assert (Hj : join "|" aliases <> "") by now apply join_nonempty.
  assert (Hn : includes ")" (join "|" aliases) = false)
    by (apply includes_join_plain; [reflexivity | discriminate | exact Hp]).
  unfold ArgTools.help_entry. rewrite Hd, Hsrc. unfold exec, match_all.
  destruct (exec_from_bracket "^--" (join "|" aliases) "$" eq_refl Hj Hn
              (String.length ("^--" ++ "(" ++ join "|" aliases ++ ")" ++ "$")) 0)
    as (m & Hm & _ & _ & Hg).
  { cbn [String.append String.length]. lia. }
  rewrite Hm, Hg, (split_join aliases Hne Hp).
  rewrite (match_all_from_bracket "^--" (join "|" aliases) "$" eq_refl Hj Hn).
  now rewrite (match_all_from_no_bracket "$" eq_refl).
Qed.

Lemma help_entry_value (d : descriptor) (aliases : list string) (v : regex) :
  payload d = PRegExp (value_pattern aliases v) ->
  well_named aliases ->
  source v <> "" -> includes ")" (source v) = false ->
  ArgTools.help_entry d
  = (Normal
       (ArgTools.entry_text ("--" ++ join " or --" aliases ++ "=...")
          (if includes "|" (source v)
           then "Accepted values: " ++ replace_char "|" ", " (source v)
           else "") d), []).
Proof.
  intros Hd Hw Hv Hvn. pose proof Hw as [Hne Hp].
  assert (Hsrc : ArgTools.pattern_source (value_pattern aliases v)
                 = "^--" ++ "(" ++ join "|" aliases ++ ")"
                   ++ "=" ++ "(" ++ source v ++ ")" ++ "$").
  { unfold ArgTools.pattern_source. now rewrite (source_value_pattern aliases v Hp). }
  assert (Hj : join "|" aliases <> "") by now apply join_nonempty.
  assert (Hn : includes ")" (join "|" aliases) = false)
    by (apply includes_join_plain; [reflexivity | discriminate | exact Hp]).
  unfold ArgTools.help_entry. rewrite Hd, Hsrc. unfold exec, match_all.
  set (tail := "=" ++ "(" ++ source v ++ ")" ++ "$").
  destruct (exec_from_bracket "^--" (join "|" aliases) tail eq_refl Hj Hn
              (String.length ("^--" ++ "(" ++ join "|" aliases ++ ")" ++ tail)) 0)
    as (m & Hm & _ & _ & Hg).
  { cbn [String.append String.length]. lia. }
  rewrite Hm, Hg, (split_join aliases Hne Hp).
  rewrite (match_all_from_bracket "^--" (join "|" aliases) tail eq_refl Hj Hn).
  destruct (String.length ("^--" ++ "(" ++ join "|" aliases ++ ")" ++ tail)) as [|n] eqn:El;
    [discriminate El|].
  unfold tail.
  rewrite (match_all_from_bracket "=" (source v) "$" eq_refl Hv Hvn).
  now rewrite (accepted_values_bracket (source v) Hv Hvn).
Qed.

Lemma help_block_ends_visible (f a : string) (d : descriptor) :
  ends_visible (ArgTools.payload_text (payload d)) = true ->
  ends_visible (help_block f a d) = true.
Proof. intros H. unfold help_block. now repeat apply ends_visible_app_r. Qed.

Lemma pattern_text_ends_visible (r : regex) :
  ends_visible (ArgTools.payload_text (PRegExp r)) = true.
Proof. cbn [ArgTools.payload_text]. now repeat apply ends_visible_app_r. Qed.

Lemma help_entry_documented (d : descriptor) (block : string) :
  documented d block ->
  ArgTools.help_entry d = (Normal (block ++ nl ++ nl), [])
  /\ starts_visible block = true /\ ends_visible block = true.
Proof.
  intros H. destruct H as [d p Hd Hs He | d aliases Hd Hw
                          | d aliases v Hd Hw Hv Hvn Hbar
                          | d aliases values Hd Hw Hvals Hlen].
  - split; [|split].
    + unfold ArgTools.help_entry. rewrite Hd. now rewrite entry_text_block.
    + unfold help_block. now apply starts_visible_app.
    + apply help_block_ends_visible. now rewrite Hd.
  - split; [|split].
    + rewrite (help_entry_flag d aliases Hd Hw). now rewrite entry_text_block.
    + reflexivity.
    + apply help_block_ends_visible. rewrite Hd. apply pattern_text_ends_visible.
  - split; [|split].
    + rewrite (help_entry_value d aliases v Hd Hw Hv Hvn), Hbar.
      now rewrite entry_text_block.
    + reflexivity.
    + apply help_block_ends_visible. rewrite Hd. apply pattern_text_ends_visible.
  - pose proof Hvals as [Hvne Hvp].
    assert (Hs : source (alts values) = join "|" values).
    { rewrite source_text; rewrite (source_alts values Hvp);
        [reflexivity | now apply join_nonempty]. }
    split; [|split].
    + rewrite (help_entry_value d aliases (alts values) Hd Hw).
      * rewrite Hs, (includes_bar_join values Hlen), (replace_bar_join ", " values Hvp).
        now rewrite entry_text_block.
      * rewrite Hs. now apply join_nonempty.
      * rewrite Hs. apply includes_join_plain; [reflexivity | discriminate | exact Hvp].
    + reflexivity.
    + apply help_block_ends_visible. rewrite Hd. apply pattern_text_ends_visible.
Qed.

Lemma help_loop_documented (dictionary : list descriptor) (blocks : list string) :
  Forall2 documented dictionary blocks ->
  forall helpString,
    ArgTools.help_loop dictionary helpString
    = (helpString ++ fold_right (fun b acc => b ++ nl ++ nl ++ acc) "" blocks, []).
Proof.
  induction 1 as [|d block dictionary blocks Hd _ IH]; intros helpString.
  - cbn. now rewrite str_app_nil_r.
  - cbn [ArgTools.help_loop fold_right].
    destruct (help_entry_documented d block Hd) as (-> & _ & _).
    rewrite IH. now rewrite !str_app_assoc.
Qed.

Lemma concat_blocks (b : string) (blocks : list string) :
  fold_right (fun b acc => b ++ nl ++ nl ++ acc) "" (b :: blocks)
  = join (nl ++ nl) (b :: blocks) ++ nl ++ nl.
Proof.
  revert b. induction blocks as [|b' blocks IH]; intros b.
  - reflexivity.
  - change (fold_right (fun b acc => b ++ nl ++ nl ++ acc) "" (b :: b' :: blocks))
      with (b ++ nl ++ nl
            ++ fold_right (fun b acc => b ++ nl ++ nl ++ acc) "" (b' :: blocks)).
    rewrite IH.
    change (join (nl ++ nl) (b :: b' :: blocks))
      with (b ++ (nl ++ nl) ++ join (nl ++ nl) (b' :: blocks)).
    now rewrite !str_app_assoc.
Qed.

Lemma join_ends_visible (sep b : string) (blocks : list string) :
  Forall (fun b => ends_visible b = true) (b :: blocks) ->
  ends_visible (join sep (b :: blocks)) = true.
Proof.
  revert b. induction blocks as [|b' blocks IH]; intros b H.
  - now inversion H.
  - change (join sep (b :: b' :: blocks)) with (b ++ sep ++ join sep (b' :: blocks)).
    do 2 apply ends_visible_app_r. apply IH. now inversion H.
Qed.

Lemma join_starts_visible (sep b : string) (blocks : list string) :
  starts_visible b = true -> starts_visible (join sep (b :: blocks)) = true.
Proof.
  intros H. destruct blocks; [exact H|].
  cbn [join]. now apply starts_visible_app.
Qed.

(** X28. The help text of a dictionary of documented descriptors: one
    block for each, in order, separated by blank lines, and nothing is
    sent to the monitoring function. The heading of a block lists every
    alias, [=...] follows it when the argument carries a value, and a line
    [Accepted values: ...] lists the values of a choice. *)
Theorem getHelp_documented_dictionary :
  forall (dictionary : list descriptor) (blocks : list string),
    Forall2 documented dictionary blocks ->
    ArgTools.getHelp dictionary = (join (nl ++ nl) blocks, []).
Proof.
  intros dictionary blocks H. unfold ArgTools.getHelp.
  rewrite (help_loop_documented dictionary blocks H ""). f_equal.
  destruct blocks as [|b blocks]; [reflexivity|].
  assert (Hall : Forall (fun b => starts_visible b = true /\ ends_visible b = true)
                   (b :: blocks)).
  { clear - H. remember (b :: blocks) as l eqn:E. clear E.
    induction H as [|d b' dictionary l Hd _ IH]; constructor; [|exact IH].
    now destruct (help_entry_documented d b' Hd) as (_ & Hs & He). }
  cbn [String.append]. rewrite concat_blocks. apply trim_block.
  - apply join_starts_visible. inversion Hall as [|? ? [Hs _] _]. exact Hs.
  - apply join_ends_visible. apply (Forall_impl _ (fun b H => proj2 H) Hall).
Qed.

Lemma getHelp_documented_dictionary_witness :
  ArgTools.getHelp (sample_dictionary ++ [parse_model_descriptor])%list
  = (join (nl ++ nl)
       [ help_block "--isDryRun" "" (nth 0 sample_dictionary help_descriptor);
         help_block "--version or --v" "" (nth 1 sample_dictionary help_descriptor);
         help_block "--output_dir or --od=..." ""
           (nth 2 sample_dictionary help_descriptor);
         help_block "--parseModel=..." "Accepted values: saasFile, raw"
           parse_model_descriptor ], []).
Proof.
  apply getHelp_documented_dictionary.
  apply Forall2_cons; [|apply Forall2_cons; [|apply Forall2_cons;
    [|apply Forall2_cons; [|apply Forall2_nil]]]].
  - exact (documented_literal (nth 0 sample_dictionary help_descriptor)
             "--isDryRun" eq_refl eq_refl eq_refl).
  - refine (documented_flag (nth 1 sample_dictionary help_descriptor)
              ["version"; "v"] eq_refl _).
    split; [discriminate | reflexivity].
  - refine (documented_value (nth 2 sample_dictionary help_descriptor)
              ["output_dir"; "od"] (Plus Dot) eq_refl _ _ eq_refl eq_refl).
    + split; [discriminate | reflexivity].
    + discriminate.
  - refine (documented_choice parse_model_descriptor ["parseModel"] ["saasFile"; "raw"]
              eq_refl _ _ _).
    + split; [discriminate | reflexivity].
    + split; [discriminate | reflexivity].
    + cbn [length]. lia.
Defined.
